(** * ecc_js: Jacobian elliptic-curve arithmetic over a prime field

    A shallow embedding of [ecc_bitcoin_jacobi.js] and the proofs of the
    properties its specification states.

    The program computes with BigInteger.js integers.  They are modelled by
    [Z]; the operations of that library which the program calls are gathered
    in the module [BigInt] below.  BigInteger.js raises an exception on a
    zero divisor where [Z.quot] and [Z.rem] return a value; the program only
    divides by the modulus of the curve (or of [modular_inverse]) and, inside
    the Euclid loop, by a remainder it has just tested against zero, so the
    theorems that depend on a division assume a non-zero modulus. *)

From Stdlib Require Import ZArith Zquot Znumtheory Zdivisibility Zcong Lia.
From Stdlib Require Import List String Ascii Bool.
From Stdlib Require Import Hexadecimal HexadecimalString HexadecimalZ HexadecimalPos.
From Stdlib Require Import Zmod Field.
Import ListNotations.

#[local] Open Scope Z_scope.

(** ** The big-integer capability *)

Module BigInt.

(** [abs()] *)
Definition abs (v : Z) : Z := Z.abs v.

(** [divmod(d)]: quotient rounded towards zero, remainder with the sign of
    the dividend. *)
Definition divmod (v d : Z) : Z * Z := (Z.quot v d, Z.rem v d).

(** [mod(d)] is the remainder of [divmod]. *)
Definition mod_ (v d : Z) : Z := snd (divmod v d).

(** [sign]: true exactly for negative values. *)
Definition sign (v : Z) : bool := v <? 0.

(** [equals(w)] *)
Definition equals (v w : Z) : bool := v =? w.

(** [modPow(e, m)]: [v^e] reduced with [mod]. *)
Definition modPow (v e m : Z) : Z := mod_ (v ^ e) m.

(** [and(w)] and [shiftRight(k)] on two's-complement integers. *)
Definition and (v w : Z) : Z := Z.land v w.
Definition shiftRight (v k : Z) : Z := Z.shiftr v k.

(** [toString(16)]: lowercase digits, most significant first, no prefix,
    ["0"] for zero and a leading ["-"] for negative values. *)
Definition toString16 (v : Z) : string :=
  HexadecimalString.NilZero.string_of_int (Z.to_hex_int v).

(** [bigInt(s, 16)] on a string of hexadecimal digits. *)
Definition parse16 (s : string) : option Z :=
  option_map Z.of_hex_int (HexadecimalString.NilZero.int_of_string s).

End BigInt.

(** ** The console

    [modular_inverse] writes to [console.log] and carries on.  A computation
    that may do so returns its value together with the lines it printed. *)

Definition Console (A : Type) : Type := (A * list string)%type.

Definition ret {A} (v : A) : Console A := (v, []).

Definition bind {A B} (m : Console A) (k : A -> Console B) : Console B :=
  let '(v, l1) := m in let '(w, l2) := k v in (w, l1 ++ l2).

Definition console_log (s : string) : Console unit := (tt, [s]).

Definition value {A} (m : Console A) : A := fst m.
Definition printed {A} (m : Console A) : list string := snd m.

Notation "v <- m ;; k" := (bind m (fun v => k))
  (at level 61, m at next level, right associativity).
Notation "m ;;; k" := (bind m (fun _ => k))
  (at level 61, right associativity).

(** ** Module object [ECCbitcoin] *)

(** Strings are taken over the ASCII characters, as the constants of the
    program are. *)

(** JavaScript's [\s] on the ASCII characters: tab, line feed, vertical
    tab, form feed, carriage return and space. *)
Definition is_space (c : ascii) : bool :=
  let k := nat_of_ascii c in ((9 <=? k)%nat && (k <=? 13)%nat) || (k =? 32)%nat.

(** [hexstr.replace(/\s+/g, '')] *)
Fixpoint remove_spaces (s : string) : string :=
  match s with
  | EmptyString => EmptyString
  | String c s' => if is_space c then remove_spaces s' else String c (remove_spaces s')
  end.

(** [toLowerCase()] on the ASCII characters. *)
Definition to_lower (c : ascii) : ascii :=
  let k := nat_of_ascii c in
  if ((65 <=? k)%nat && (k <=? 90)%nat) then ascii_of_nat (k + 32) else c.

Fixpoint lowercase (s : string) : string :=
  match s with
  | EmptyString => EmptyString
  | String c s' => String (to_lower c) (lowercase s')
  end.

(** [bigInt(s, 16)]: the digits are read in either case. *)
Definition bigInt16 (s : string) : option Z := BigInt.parse16 (lowercase s).

(** [hex2int]: removes spaces and returns the big integer.  [None]: what is
    left is not a numeral in hexadecimal digits, where the result is up to
    the version of BigInteger.js. *)
Definition hex2int (hexstr : string) : option Z :=
  let hexstr := remove_spaces hexstr in
  bigInt16 hexstr.

(** [getRandomBits]: [getRandomValues k] is the content the browser leaves
    in the [Uint8Array] of [k] bytes; the loop reads it from the last byte
    to the first. *)
Definition getRandomBits (getRandomValues : nat -> list Byte.byte) (bits : Z) : Z :=
  let buffer := getRandomValues (Z.to_nat (bits / 8)) in
  fold_right (fun b value => value * 256 + Z.of_N (Byte.to_N b)) 0 buffer.

(** The [while] loop of [half_extended_gcd].  [fuel] bounds the number of
    iterations; [None] means the bound was reached before [rem] became 0. *)
Fixpoint heg_loop (fuel : nat) (lastrem rem x lastx : Z) : option (Z * Z) :=
  if BigInt.equals rem 0 then Some (lastrem, lastx)
  else match fuel with
       | O => None
       | S fuel' =>
           let oldRem := rem in
           let temp := BigInt.divmod lastrem rem in
           let quotient := fst temp in
           let rem := snd temp in
           let lastrem := oldRem in
           let oldX := x in
           let x := lastx - quotient * x in
           let lastx := oldX in
           heg_loop fuel' lastrem rem x lastx
       end.

(** Iterations that always suffice: the product [lastrem * rem] at least
    halves at every iteration but the first (lemma [heg_loop_terminates]). *)
Definition heg_fuel (aa bb : Z) : nat :=
  S (S (Z.to_nat (Z.log2 (Z.abs aa * Z.abs bb)))).

Definition half_extended_gcd (aa bb : Z) : Z * Z :=
  let lastrem := BigInt.abs aa in
  let rem := BigInt.abs bb in
  let x := 0 in
  let lastx := 1 in
  match heg_loop (heg_fuel aa bb) lastrem rem x lastx with
  | Some r => r
  | None => (lastrem, lastx)
  end.

Definition modular_inverse (a m : Z) : Console Z :=
  let temp := half_extended_gcd a m in
  (if negb (BigInt.equals (fst temp) 1)
   then console_log "No inverse found"
   else ret tt) ;;;
  let inverse := BigInt.mod_ (snd temp) m in
  let inverse := if BigInt.sign inverse then inverse + m else inverse in
  ret inverse.

(** ** Elliptic curve classes *)

(** An elliptic curve [y^2 = x^3 + a x + b] over the integers modulo [p];
    [n] is the order of the generator.  The generator itself is a point that
    refers back to its curve, so it is kept beside the record
    ([secp256k1_G]). *)
Module ECcurve.
Record t : Type := mk { p : Z; a : Z; b : Z; n : Z }.
End ECcurve.
Abbreviation ECcurve := ECcurve.t.

(** A point in Jacobian coordinates: it stands for [(x / z^2, y / z^3)]. *)
Module ECpoint.
Record t : Type := mk { curve : ECcurve; x : Z; y : Z; z : Z }.
End ECpoint.
Abbreviation ECpoint := ECpoint.t.

Section Curve.

Variable this : ECcurve.

(** Prime field multiplication: [a * b mod p]. *)
Definition field_mul (a b : Z) : Z := BigInt.mod_ (a * b) this.(ECcurve.p).

(** Prime field division: [num / den mod p]. *)
Definition field_div (num den : Z) : Console Z :=
  inverse_den <- modular_inverse (BigInt.mod_ den this.(ECcurve.p)) this.(ECcurve.p) ;;
  ret (field_mul (BigInt.mod_ num this.(ECcurve.p)) inverse_den).

(** Prime field exponentiation. *)
Definition field_exp (num power : Z) : Z :=
  BigInt.modPow (BigInt.mod_ num this.(ECcurve.p)) power this.(ECcurve.p).

(** The special identity point: [x = p], [y = 0]. *)
Definition identity : ECpoint := ECpoint.mk this this.(ECcurve.p) 0 1.

End Curve.

(** Methods of [ECpoint]: the affine coordinates. *)
Definition get_x (Q : ECpoint) : Console Z :=
  field_div Q.(ECpoint.curve) Q.(ECpoint.x) (BigInt.modPow Q.(ECpoint.z) 2 Q.(ECpoint.curve).(ECcurve.p)).

Definition get_y (Q : ECpoint) : Console Z :=
  field_div Q.(ECpoint.curve) Q.(ECpoint.y) (BigInt.modPow Q.(ECpoint.z) 3 Q.(ECpoint.curve).(ECcurve.p)).

Definition toString (Q : ECpoint) : Console string :=
  if BigInt.equals Q.(ECpoint.x) Q.(ECpoint.curve).(ECcurve.p) then ret "identity_point"%string
  else
    gx <- get_x Q ;;
    gy <- get_y Q ;;
    ret ("(" ++ BigInt.toString16 gx ++ ", " ++ BigInt.toString16 gy ++ ")")%string.

Section CurveOperations.

Variable this : ECcurve.

(** True if [Q] lies on the curve. *)
Definition touches (Q : ECpoint) : Console bool :=
  x <- get_x Q ;;
  y <- get_y Q ;;
  let y2 := BigInt.mod_ (y * y) this.(ECcurve.p) in
  let x3ab :=
    BigInt.mod_
      (field_mul this (BigInt.mod_ (x * x) this.(ECcurve.p) + this.(ECcurve.a)) x + this.(ECcurve.b))
      this.(ECcurve.p) in
  ret (BigInt.equals y2 x3ab).

(** Slope of the tangent of the curve at [Q]. *)
Definition tangent (Q : ECpoint) : Console Z :=
  field_div this (Q.(ECpoint.x) * Q.(ECpoint.x) * 3 + this.(ECcurve.a)) (Q.(ECpoint.y) * 2).

(** Doubling, after Gueron and Krasnov 2013, figure 2. *)
Definition double (Q : ECpoint) : ECpoint :=
  if BigInt.equals Q.(ECpoint.x) this.(ECcurve.p) then Q
  else
    let S := BigInt.mod_ (Q.(ECpoint.x) * Q.(ECpoint.y) * Q.(ECpoint.y) * 4) this.(ECcurve.p) in
    let Z2 := Q.(ECpoint.z) * Q.(ECpoint.z) in
    let Z4 := BigInt.mod_ (Z2 * Z2) this.(ECcurve.p) in
    let M := Q.(ECpoint.x) * Q.(ECpoint.x) * 3 + this.(ECcurve.a) * Z4 in
    let x := BigInt.mod_ (M * M - S * 2) this.(ECcurve.p) in
    let x := if BigInt.sign x then x + this.(ECcurve.p) else x in
    let Y2 := Q.(ECpoint.y) * Q.(ECpoint.y) in
    let y := BigInt.mod_ (M * (S - x) - Y2 * Y2 * 8) this.(ECcurve.p) in
    let y := if BigInt.sign y then y + this.(ECcurve.p) else y in
    let z := BigInt.mod_ (Q.(ECpoint.z) * Q.(ECpoint.y) * 2) this.(ECcurve.p) in
    ECpoint.mk this x y z.

(** Sum of two points, after the same figure. *)
Definition add (Q1 Q2 : ECpoint) : ECpoint :=
  if BigInt.equals Q1.(ECpoint.x) this.(ECcurve.p) then Q2
  else if BigInt.equals Q2.(ECpoint.x) this.(ECcurve.p) then Q1
  else
    let Q1z2 := Q1.(ECpoint.z) * Q1.(ECpoint.z) in
    let Q2z2 := Q2.(ECpoint.z) * Q2.(ECpoint.z) in
    let xs1 := BigInt.mod_ (Q1.(ECpoint.x) * Q2z2) this.(ECcurve.p) in
    let xs2 := BigInt.mod_ (Q2.(ECpoint.x) * Q1z2) this.(ECcurve.p) in
    let ys1 := BigInt.mod_ (Q1.(ECpoint.y) * Q2z2 * Q2.(ECpoint.z)) this.(ECcurve.p) in
    let ys2 := BigInt.mod_ (Q2.(ECpoint.y) * Q1z2 * Q1.(ECpoint.z)) this.(ECcurve.p) in
    if BigInt.equals xs1 xs2 then
      if BigInt.equals ys1 ys2 then double Q1
      else identity this
    else
      let xd := BigInt.mod_ (xs2 - xs1) this.(ECcurve.p) in
      let xd := if BigInt.sign xd then xd + this.(ECcurve.p) else xd in
      let yd := BigInt.mod_ (ys2 - ys1) this.(ECcurve.p) in
      let yd := if BigInt.sign yd then yd + this.(ECcurve.p) else yd in
      let xd2 := BigInt.mod_ (xd * xd) this.(ECcurve.p) in
      let xd3 := BigInt.mod_ (xd2 * xd) this.(ECcurve.p) in
      let x := BigInt.mod_ (yd * yd - xd3 - xs1 * xd2 * 2) this.(ECcurve.p) in
      let x := if BigInt.sign x then x + this.(ECcurve.p) else x in
      let y := BigInt.mod_ (yd * (xs1 * xd2 - x) - ys1 * xd3) this.(ECcurve.p) in
      let y := if BigInt.sign y then y + this.(ECcurve.p) else y in
      let z := BigInt.mod_ (xd * Q1.(ECpoint.z) * Q2.(ECpoint.z)) this.(ECcurve.p) in
      ECpoint.mk this x y z.

(** The binary multiply loop of [mul]: [R] is the point to return, [m]
    the scalar still to process.  [None]: [fuel] iterations did not
    bring [m] to 0. *)
Fixpoint mul_loop (fuel : nat) (R Q : ECpoint) (m : Z) : option ECpoint :=
  if BigInt.equals m 0 then Some R
  else match fuel with
       | O => None
       | S fuel' =>
           let R := if BigInt.equals (BigInt.and m 1) 1 then add R Q else R in
           let m := BigInt.shiftRight m 1 in
           let Q := if negb (BigInt.equals m 0) then double Q else Q in
           mul_loop fuel' R Q m
       end.

(** One iteration per binary digit of the scalar. *)
Definition mul_fuel (i : Z) : nat := Z.to_nat (Z.log2 i + 1).

(** [mul Q i] is [None] when the loop does not come to an end, which is
    the case for a negative [i] (lemma [mul_loop_negative]). *)
Definition mul (Q : ECpoint) (i : Z) : option ECpoint :=
  mul_loop (mul_fuel i) (identity this) Q i.

End CurveOperations.

(** Methods [add] and [mul] of [ECpoint] call the curve of the receiver. *)
Definition point_add (Q Q2 : ECpoint) : ECpoint := add Q.(ECpoint.curve) Q Q2.
Definition point_mul (Q : ECpoint) (m : Z) : option ECpoint := mul Q.(ECpoint.curve) Q m.

(** The Bitcoin curve, SECG secp256k1. *)
Definition secp256k1 : ECcurve :=
  ECcurve.mk
    0xFFFFFFFFFFFFFFFFFFFFFFFFFFFFFFFFFFFFFFFFFFFFFFFFFFFFFFFEFFFFFC2F
    0
    7
    0xFFFFFFFFFFFFFFFFFFFFFFFFFFFFFFFEBAAEDCE6AF48A03BBFD25E8CD0364141.

Definition secp256k1_G : ECpoint :=
  ECpoint.mk secp256k1
    0x79BE667EF9DCBBAC55A06295CE870B07029BFCDB2DCE28D959F2815B16F81798
    0x483ADA7726A3C4655DA4FBFC0E1108A8FD17B448A68554199C47D08FFB10D4B8
    1.

(** ** Predicates on points used by the statements *)

(** The identity is recognised by its [x] alone, as every method does. *)
Definition is_identity (this : ECcurve) (Q : ECpoint) : bool :=
  BigInt.equals Q.(ECpoint.x) this.(ECcurve.p).

(** All three coordinates in the canonical range [[0, p-1]]. *)
Definition canonical (this : ECcurve) (Q : ECpoint) : Prop :=
  0 <= Q.(ECpoint.x) < this.(ECcurve.p) /\
  0 <= Q.(ECpoint.y) < this.(ECcurve.p) /\
  0 <= Q.(ECpoint.z) < this.(ECcurve.p).

(** ** Predicates on strings used by the statements *)

Definition lower_hex_digit (c : ascii) : bool :=
  existsb (Ascii.eqb c) (list_ascii_of_string "0123456789abcdef").

Fixpoint all_chars (f : ascii -> bool) (s : string) : bool :=
  match s with
  | EmptyString => true
  | String c s' => f c && all_chars f s'
  end.

(** ** The textbook doubling rule

    The rule the specification cross-checks [double] against works on
    affine coordinates: with the slope [lam] of the tangent at [(x, y)],
    the double is [(lam^2 - 2 x, lam (x - x3) - y)].  [tangent] reads the
    fields [x] and [y] of its argument, so it is given the affine form of
    the point. *)

(** The affine form of a point: its affine coordinates with [z = 1]. *)
Definition affine (Q : ECpoint) : ECpoint :=
  ECpoint.mk Q.(ECpoint.curve) (value (get_x Q)) (value (get_y Q)) 1.

Definition textbook_double (this : ECcurve) (P : ECpoint) : Console (Z * Z) :=
  lam <- tangent this P ;;
  let x3 := (lam * lam - 2 * P.(ECpoint.x)) mod this.(ECcurve.p) in
  let y3 := (lam * (P.(ECpoint.x) - x3) - P.(ECpoint.y)) mod this.(ECcurve.p) in
  ret (x3, y3).

(** The renormalisation idiom of [double] and [add]:
    [r = v.mod(d); if (r.sign) r = r.add(d)]. *)
Definition renorm (v d : Z) : Z :=
  let r := BigInt.mod_ v d in if BigInt.sign r then r + d else r.

(** The residue class of an integer in the field of the curve. *)
Definition phi (this : ECcurve) (v : Z) : Zmod this.(ECcurve.p) :=
  Zmod.of_Z this.(ECcurve.p) v.

(** Notations for the integers modulo [p]. *)
Declare Scope F_scope.
Delimit Scope F_scope with F.
Notation "0" := Zmod.zero : F_scope.
Notation "1" := Zmod.one : F_scope.
Notation "2" := (Zmod.add Zmod.one Zmod.one) : F_scope.
Notation "u + v" := (Zmod.add u v) : F_scope.
Notation "u - v" := (Zmod.sub u v) : F_scope.
Notation "u * v" := (Zmod.mul u v) : F_scope.
Notation "u / v" := (Zmod.mdiv u v) : F_scope.

(** ** The group of a curve over a field

    The group law is developed over any field, given by its operations and
    an equality test; it is used at the integers modulo the prime of the
    curve. *)

Declare Scope K_scope.
Delimit Scope K_scope with K.

(** The point at infinity and the affine points. *)
Inductive cpoint (K : Type) : Type :=
| Cinf : cpoint K
| Cpt (x y : K) : cpoint K.
Arguments Cinf {K}.
Arguments Cpt {K} x y.

Section CurveGroup.

Variable K : Type.
Variables k0 k1 : K.
Variables kadd kmul ksub kdiv : K -> K -> K.
Variables kopp kinv : K -> K.
Variable keqb : K -> K -> bool.
Variables cA cB : K.

Notation "0" := k0 : K_scope.
Notation "1" := k1 : K_scope.
Notation "2" := (kadd k1 k1) : K_scope.
Notation "u + v" := (kadd u v) : K_scope.
Notation "u - v" := (ksub u v) : K_scope.
Notation "u * v" := (kmul u v) : K_scope.
Notation "u / v" := (kdiv u v) : K_scope.

Definition on_curve (P : cpoint K) : Prop :=
  match P with
  | Cinf => True
  | Cpt x y => (y * y = x * x * x + cA * x + cB)%K
  end.

Definition copp (P : cpoint K) : cpoint K :=
  match P with
  | Cinf => Cinf
  | Cpt x y => Cpt x (kopp y)
  end.

Definition chord (x1 y1 x2 y2 : K) : cpoint K :=
  let l := ((y2 - y1) / (x2 - x1))%K in
  let x3 := (l * l - x1 - x2)%K in
  Cpt x3 (l * (x1 - x3) - y1)%K.

Definition tangent_double (x1 y1 : K) : cpoint K :=
  let l := ((x1 * x1 * (2 + 1) + cA) / (y1 * 2))%K in
  let x3 := (l * l - x1 * 2)%K in
  Cpt x3 (l * (x1 - x3) - y1)%K.

(** Addition, with the case analysis of [add]: the identity first, then
    equal [x] (equal [y]: doubling; otherwise opposite points), then the
    chord. *)
Definition cadd (P Q : cpoint K) : cpoint K :=
  match P, Q with
  | Cinf, _ => Q
  | _, Cinf => P
  | Cpt x1 y1, Cpt x2 y2 =>
      if keqb x1 x2 then
        if keqb y1 y2 then tangent_double x1 y1 else Cinf
      else chord x1 y1 x2 y2
  end.

(** Multiples of a point. *)
Fixpoint cmul (k : nat) (P : cpoint K) : cpoint K :=
  match k with
  | O => Cinf
  | S k' => cadd P (cmul k' P)
  end.

End CurveGroup.

Arguments on_curve {K}.
Arguments copp {K}.
Arguments chord {K}.
Arguments tangent_double {K}.
Arguments cadd {K}.
Arguments cmul {K}.

(** ** The curve of the program as a group *)

(** The affine point a Jacobian triple stands for. *)
Definition interp (this : ECcurve) (Q : ECpoint) : cpoint (Zmod this.(ECcurve.p)) :=
  if is_identity this Q then Cinf
  else
    let vx := phi this Q.(ECpoint.x) in
    let vy := phi this Q.(ECpoint.y) in
    let vz := phi this Q.(ECpoint.z) in
    Cpt (vx / (vz * vz))%F (vy / (vz * vz * vz))%F.

Definition curve_on (this : ECcurve) (P : cpoint (Zmod this.(ECcurve.p))) : Prop :=
  on_curve Zmod.add Zmod.mul (phi this this.(ECcurve.a)) (phi this this.(ECcurve.b)) P.

Definition curve_add (this : ECcurve) (P Q : cpoint (Zmod this.(ECcurve.p)))
  : cpoint (Zmod this.(ECcurve.p)) :=
  cadd Zmod.one Zmod.add Zmod.mul Zmod.sub Zmod.mdiv Zmod.eqb
    (phi this this.(ECcurve.a)) P Q.

Definition curve_mul (this : ECcurve) (k : nat) (P : cpoint (Zmod this.(ECcurve.p)))
  : cpoint (Zmod this.(ECcurve.p)) :=
  cmul Zmod.one Zmod.add Zmod.mul Zmod.sub Zmod.mdiv Zmod.eqb
    (phi this this.(ECcurve.a)) k P.

(** A well-formed point of the curve: the identity, or a triple of
    canonical coordinates with [z] not 0 whose affine point satisfies the
    equation of the curve. *)
Definition on_the_curve (this : ECcurve) (Q : ECpoint) : Prop :=
  Q.(ECpoint.curve) = this /\
  (is_identity this Q = true \/
   (canonical this Q /\ Q.(ECpoint.z) <> 0 /\ curve_on this (interp this Q))).

(** Equality as curve points: both the identity, or both finite with the
    same affine coordinates. *)
Definition same_point (this : ECcurve) (Q1 Q2 : ECpoint) : Prop :=
  (is_identity this Q1 = true /\ is_identity this Q2 = true) \/
  (is_identity this Q1 = false /\ is_identity this Q2 = false /\
   value (get_x Q1) = value (get_x Q2) /\ value (get_y Q1) = value (get_y Q2)).

(** The cubic [x^3 + a x + b] has no root: the curve has no point with
    [y = 0], that is, no point of order 2. *)
Definition no_point_of_order_two (this : ECcurve) : Prop :=
  forall v, 0 <= v < this.(ECcurve.p) ->
    (v * v * v + this.(ECcurve.a) * v + this.(ECcurve.b)) mod this.(ECcurve.p) <> 0.

(** ** Predicates and constructions of the further properties *)

(** The characters [toString(16)] writes. *)
Definition hex_or_minus (c : ascii) : bool := lower_hex_digit c || Ascii.eqb c "-".

(** The value the loop of [getRandomBits] builds from a buffer. *)
Definition buffer_value (buffer : list Byte.byte) : Z :=
  fold_right (fun b value => value * 256 + Z.of_N (Byte.to_N b)) 0 buffer.

(** The byte of value [r]. *)
Definition byte_of (r : Z) : Byte.byte :=
  match Byte.of_N (Z.to_N r) with Some b => b | None => Byte.x00 end.

(** The buffer of [k] bytes with value [v]. *)
Fixpoint buffer_of (k : nat) (v : Z) : list Byte.byte :=
  match k with
  | O => []
  | S k' => byte_of (v mod 256) :: buffer_of k' (v / 256)
  end.

(** A finite point the program accepts: it belongs to the curve [this],
    its coordinates are in [[0, p-1]], [z] is not 0 and [touches] holds. *)
Definition finite_on_curve (this : ECcurve) (Q : ECpoint) : Prop :=
  Q.(ECpoint.curve) = this /\ canonical this Q /\ Q.(ECpoint.z) <> 0 /\
  value (touches this Q) = true.

(** The curves on which [add] is a group law: a prime modulus above 2 and
    no point of order 2. *)
Definition group_curve (this : ECcurve) : Prop :=
  Z.prime this.(ECcurve.p) /\ 2 < this.(ECcurve.p) /\ no_point_of_order_two this.

(** * Proofs *)

(** ** The big-integer operations on the values the program meets *)

Lemma mod_nonneg v d : 0 <= v -> 0 < d -> BigInt.mod_ v d = v mod d.
Proof. intros Hv Hd. apply Z.rem_mod_nonneg; lia. Qed.

(** The idiom [r = v.mod(d); if (r.sign) r = r.add(d)] yields the least
    non-negative residue. *)
Lemma renorm_mod v d : 0 < d -> renorm v d = v mod d.
Proof.
  intros Hd. unfold renorm, BigInt.sign, BigInt.mod_, BigInt.divmod. simpl.
  pose proof (Z.rem_bound_abs v d ltac:(lia)) as Hb.
  pose proof (Z.quot_rem v d ltac:(lia)) as Hq.
  destruct (Z.ltb_spec (Z.rem v d) 0) as [Hneg | Hpos].
  - apply (Z.mod_unique v d (Z.quot v d - 1)); lia.
  - apply (Z.mod_unique v d (Z.quot v d)); lia.
Qed.

Lemma mod_range v d : 0 < d -> - d < BigInt.mod_ v d < d.
Proof.
  intros Hd. unfold BigInt.mod_, BigInt.divmod. simpl.
  pose proof (Z.rem_bound_abs v d ltac:(lia)). lia.
Qed.

(** ** [half_extended_gcd] *)

Section HalfExtendedGcd.

(** The loop keeps [lastrem] and [rem] congruent modulo [M] to the
    multiples [lastx * A] and [x * A]. *)
Variables A M : Z.

Definition tracks (r c : Z) : Prop := exists k, r = c * A + k * M.

Lemma tracks_step lastrem rem x lastx q :
  tracks lastrem lastx -> tracks rem x ->
  tracks (lastrem - q * rem) (lastx - q * x).
Proof.
  intros [k1 H1] [k2 H2]. exists (k1 - q * k2). subst. ring.
Qed.

Lemma heg_loop_spec fuel : forall lastrem rem x lastx g u,
  0 <= lastrem -> 0 <= rem ->
  tracks lastrem lastx -> tracks rem x ->
  heg_loop fuel lastrem rem x lastx = Some (g, u) ->
  g = Z.gcd lastrem rem /\ tracks g u.
Proof.
  induction fuel as [| fuel IH]; intros lastrem rem x lastx g u Hl Hr Tl Tr;
    simpl; unfold BigInt.equals;
    destruct (Z.eqb_spec rem 0) as [-> | Hnz]; try discriminate.
  - intros [= <- <-]. rewrite Z.gcd_0_r, Z.abs_eq by lia. auto.
  - intros [= <- <-]. rewrite Z.gcd_0_r, Z.abs_eq by lia. auto.
  - intros Hrun. apply IH in Hrun.
    + destruct Hrun as [-> Tg]. split; [| exact Tg].
      rewrite Z.rem_mod_nonneg by lia.
      rewrite (Z.gcd_comm rem), Z.gcd_mod by lia. apply Z.gcd_comm.
    + lia.
    + apply Z.rem_nonneg; lia.
    + exact Tr.
    + pose proof (Z.quot_rem' lastrem rem) as Hq.
      replace (Z.rem lastrem rem) with (lastrem - Z.quot lastrem rem * rem) by lia.
      apply tracks_step; assumption.
Qed.

End HalfExtendedGcd.

(** The loop finishes: once [rem < lastrem], the product [rem * lastrem]
    at least halves at each iteration. *)
Lemma heg_loop_halving k : forall fuel lastrem rem x lastx,
  (k <= fuel)%nat -> 0 <= rem < lastrem -> rem * lastrem < 2 ^ Z.of_nat k ->
  exists r, heg_loop fuel lastrem rem x lastx = Some r.
Proof.
  induction k as [| k IH]; intros fuel lastrem rem x lastx Hk Hr Hp.
  - assert (rem = 0) as -> by (simpl in Hp; nia).
    destruct fuel; simpl; eauto.
  - destruct fuel as [| fuel]; [lia |]. simpl. unfold BigInt.equals.
    destruct (Z.eqb_spec rem 0) as [-> | Hnz]; eauto.
    pose proof (Z.rem_bound_pos lastrem rem ltac:(lia) ltac:(lia)) as Hb.
    pose proof (Z.quot_rem' lastrem rem) as Hq.
    assert (1 <= Z.quot lastrem rem) by (apply Z.quot_le_lower_bound; lia).
    apply IH; [lia | lia |].
    rewrite Nat2Z.inj_succ, Z.pow_succ_r in Hp by lia. nia.
Qed.

Lemma heg_loop_S fuel lastrem rem x lastx :
  heg_loop (S fuel) lastrem rem x lastx =
  if rem =? 0 then Some (lastrem, lastx)
  else heg_loop fuel rem (Z.rem lastrem rem) (lastx - Z.quot lastrem rem * x) x.
Proof. reflexivity. Qed.

Lemma heg_loop_terminates aa bb x lastx :
  exists r, heg_loop (heg_fuel aa bb) (Z.abs aa) (Z.abs bb) x lastx = Some r.
Proof.
  unfold heg_fuel.
  set (k := Z.to_nat (Z.log2 (Z.abs aa * Z.abs bb))).
  assert (Hprod : Z.abs aa * Z.abs bb < 2 ^ Z.of_nat (S k)).
  { unfold k. rewrite Nat2Z.inj_succ, Z2Nat.id by apply Z.log2_nonneg.
    destruct (Z.eq_dec (Z.abs aa * Z.abs bb) 0) as [-> | Hnz].
    - apply Z.pow_pos_nonneg; [lia | pose proof (Z.log2_nonneg 0); lia].
    - apply Z.log2_spec. nia. }
  destruct (Z.lt_trichotomy (Z.abs bb) (Z.abs aa)) as [Hlt | [Heq | Hgt]].
  - apply (heg_loop_halving (S k)); [lia | lia | lia].
  - rewrite heg_loop_S.
    destruct (Z.eqb_spec (Z.abs bb) 0) as [_ | Hnz]; eauto.
    rewrite <- Heq, Z.rem_same, heg_loop_S by lia. simpl. eauto.
  - rewrite heg_loop_S.
    destruct (Z.eqb_spec (Z.abs bb) 0) as [_ | Hnz]; eauto.
    rewrite Z.rem_small by lia.
    apply (heg_loop_halving (S k)); [lia | lia | lia].
Qed.

(** What [half_extended_gcd] returns: the gcd and a coefficient of [|aa|]. *)
Lemma half_extended_gcd_spec aa bb :
  fst (half_extended_gcd aa bb) = Z.gcd aa bb /\
  exists k, Z.gcd aa bb = snd (half_extended_gcd aa bb) * Z.abs aa + k * Z.abs bb.
Proof.
  unfold half_extended_gcd, BigInt.abs.
  destruct (heg_loop_terminates aa bb 0 1) as [[g u] Hrun]. rewrite Hrun.
  apply (heg_loop_spec (Z.abs aa) (Z.abs bb)) in Hrun.
  - destruct Hrun as [Hg [k Hk]]. simpl.
    rewrite Z.gcd_abs_l, Z.gcd_abs_r in Hg. subst g. split; [reflexivity |].
    exists k. exact Hk.
  - lia.
  - lia.
  - exists 0. ring.
  - exists 1. ring.
Qed.

(** ** [modular_inverse] *)

(** The result of [modular_inverse] in one equation: the tracked coefficient
    brought into range, and the line printed when the gcd is not 1. *)
Lemma modular_inverse_eq a m :
  modular_inverse a m =
  (renorm (snd (half_extended_gcd a m)) m,
   if Z.gcd a m =? 1 then [] else ["No inverse found"%string]).
Proof.
  unfold modular_inverse, renorm, BigInt.equals.
  rewrite (proj1 (half_extended_gcd_spec a m)).
  destruct (Z.gcd a m =? 1); reflexivity.
Qed.

Lemma modular_inverse_range a m :
  0 < m -> 0 <= value (modular_inverse a m) < m.
Proof.
  intros Hm. rewrite modular_inverse_eq. unfold value. simpl.
  rewrite renorm_mod by exact Hm. apply Z.mod_pos_bound. exact Hm.
Qed.

(** The value returned is a coefficient of [|a|]: multiplied by [|a|] it is
    congruent to the gcd. *)
Lemma modular_inverse_abs a m :
  0 < m -> (Z.abs a * value (modular_inverse a m)) mod m = Z.gcd a m mod m.
Proof.
  intros Hm. rewrite modular_inverse_eq. unfold value. simpl.
  rewrite renorm_mod by exact Hm.
  destruct (half_extended_gcd_spec a m) as [_ [k Hk]].
  rewrite Z.mul_mod_idemp_r by lia. rewrite Hk, (Z.abs_eq m) by lia.
  rewrite Z.mod_add by lia. f_equal. ring.
Qed.

Lemma modular_inverse_coprime a m :
  0 <= a -> 0 < m -> Z.gcd a m = 1 ->
  (a * value (modular_inverse a m)) mod m = 1 mod m.
Proof.
  intros Ha Hm Hg. rewrite <- Hg, <- modular_inverse_abs by exact Hm.
  rewrite Z.abs_eq by exact Ha. reflexivity.
Qed.

(** No integer is an inverse when the gcd is not 1. *)
Lemma no_inverse a m v :
  m <> 0 -> Z.gcd a m <> 1 -> (a * v) mod m <> 1 mod m.
Proof.
  intros Hm Hg Heq. apply Hg.
  pose proof (Z.gcd_nonneg a m) as Hnn.
  destruct (Z.gcd_divide_l a m) as [ka Hka].
  destruct (Z.gcd_divide_r a m) as [km Hkm].
  pose proof (Z.div_mod (a * v) m Hm) as H1.
  pose proof (Z.div_mod 1 m Hm) as H2.
  assert (Hdiv : (Z.gcd a m | 1)).
  { exists (ka * v - km * ((a * v) / m) + km * (1 / m)).
    rewrite Heq in H1. nia. }
  apply Z.divide_1_r_nonneg in Hdiv; [exact Hdiv | exact Hnn].
Qed.

(** C1, as stated, fails for a negative argument: [half_extended_gcd] works
    on [|a|] and the sign is never restored, so [modular_inverse (-2) 5] is
    the inverse of 2 and not of -2. *)
Lemma modular_inverse_negative_argument :
  0 < 5 /\ Z.gcd (-2) 5 = 1 /\
  half_extended_gcd (-2) 5 = (1, -2) /\
  modular_inverse (-2) 5 = (3, []) /\
  (-2 * 3) mod 5 = 4 /\ 1 mod 5 = 1.
Proof. repeat split; reflexivity. Qed.

(** C1 (amended): for [0 <= a], [0 < m] and [gcd a m = 1],
    [modular_inverse a m] is the unique [x] in [[0, m-1]] with
    [a * x = 1 (mod m)]; in particular, for a prime [q] and every [a] in
    [[1, q-1]], [(a * modular_inverse a q) mod q = 1]. *)
Theorem modular_inverse_correct :
  (forall a m, 0 <= a -> 0 < m -> Z.gcd a m = 1 ->
     let x := value (modular_inverse a m) in
     0 <= x <= m - 1 /\ (a * x) mod m = 1 mod m /\
     (forall x', 0 <= x' <= m - 1 -> (a * x') mod m = 1 mod m -> x' = x)) /\
  (forall q a, Z.prime q -> 1 <= a <= q - 1 ->
     (a * value (modular_inverse a q)) mod q = 1).
Proof.
  split.
  - intros a m Ha Hm Hg x.
    pose proof (modular_inverse_range a m Hm) as Hx. fold x in Hx.
    pose proof (modular_inverse_coprime a m Ha Hm Hg) as Hinv. fold x in Hinv.
    split; [lia |]. split; [exact Hinv |].
    intros x' Hx' Hinv'.
    assert (Hcong : x' mod m = x mod m).
    { rewrite <- (Z.mul_1_r x') at 1.
      rewrite <- Z.mul_mod_idemp_r, <- Hinv, Z.mul_mod_idemp_r by lia.
      replace (x' * (a * x)) with (x * (a * x')) by ring.
      rewrite <- Z.mul_mod_idemp_r, Hinv', Z.mul_mod_idemp_r, Z.mul_1_r by lia.
      reflexivity. }
    rewrite !Z.mod_small in Hcong by lia. exact Hcong.
  - intros q a Hq Ha.
    pose proof (Z.prime_ge_2 q Hq) as Hq2.
    rewrite modular_inverse_coprime; [apply Z.mod_1_l | |  |]; try lia.
    rewrite Z.gcd_comm. apply Z.coprime_prime_small; [exact Hq | lia].
Qed.

Lemma modular_inverse_correct_witness :
  (0 <= 3 /\ 0 < 7 /\ Z.gcd 3 7 = 1) /\
  (0 <= value (modular_inverse 3 7) <= 7 - 1 /\
   (3 * value (modular_inverse 3 7)) mod 7 = 1 mod 7 /\
   (forall x', 0 <= x' <= 7 - 1 -> (3 * x') mod 7 = 1 mod 7 ->
               x' = value (modular_inverse 3 7))) /\
  (Z.prime 3 /\ 1 <= 2 <= 3 - 1) /\
  (2 * value (modular_inverse 2 3)) mod 3 = 1.
Proof.
  split; [repeat split; vm_compute; congruence |].
  split; [apply (proj1 modular_inverse_correct 3 7); [lia | lia | reflexivity] |].
  split; [split; [exact Z.prime_3 | lia] |].
  apply (proj2 modular_inverse_correct 3 2); [exact Z.prime_3 | lia].
Defined.

(** C6, as stated, fails: the no-inverse case prints a line and returns a
    number, and [field_div] multiplies by it.  Dividing by zero on the
    reference curve gives 0. *)
Lemma no_inverse_returns_a_number :
  Z.gcd 2 4 <> 1 /\ modular_inverse 2 4 = (1, ["No inverse found"%string]) /\
  Z.gcd 0 (ECcurve.p secp256k1) <> 1 /\
  field_div secp256k1 1 0 = (0, ["No inverse found"%string]).
Proof. repeat split; vm_compute; congruence. Qed.

(** C6 (amended): for [m <> 0] and [gcd a m <> 1], [modular_inverse a m]
    prints the line "No inverse found" and returns a number all the same,
    which is not an inverse of [a]; a [field_div] whose reduced denominator
    is [a] multiplies its numerator by that number and returns the product
    with the printed line. *)
Theorem modular_inverse_no_inverse (a m : Z) :
  m <> 0 -> Z.gcd a m <> 1 ->
  printed (modular_inverse a m) = ["No inverse found"%string] /\
  (a * value (modular_inverse a m)) mod m <> 1 mod m /\
  (forall (this : ECcurve) (num den : Z),
      this.(ECcurve.p) = m -> BigInt.mod_ den m = a ->
      field_div this num den =
      (field_mul this (BigInt.mod_ num m) (value (modular_inverse a m)),
       ["No inverse found"%string])).
Proof.
  intros Hm Hg.
  assert (Hp : printed (modular_inverse a m) = ["No inverse found"%string]).
  { rewrite modular_inverse_eq. unfold printed. simpl.
    destruct (Z.eqb_spec (Z.gcd a m) 1); [contradiction | reflexivity]. }
  split; [exact Hp |]. split; [apply no_inverse; assumption |].
  intros this num den Hthis Hden. unfold field_div. rewrite Hthis, Hden.
  unfold printed in Hp. unfold value.
  destruct (modular_inverse a m) as [v l]. simpl in *. subst l. reflexivity.
Qed.

Lemma modular_inverse_no_inverse_witness :
  (4 <> 0 /\ Z.gcd 2 4 <> 1) /\
  printed (modular_inverse 2 4) = ["No inverse found"%string] /\
  (2 * value (modular_inverse 2 4)) mod 4 <> 1 mod 4.
Proof.
  split; [split; vm_compute; congruence |].
  pose proof (modular_inverse_no_inverse 2 4) as H.
  destruct H as [H1 [H2 _]]; [lia | vm_compute; congruence |].
  split; assumption.
Defined.

(** ** The console monad *)

Lemma value_bind {A B} (m : Console A) (k : A -> Console B) :
  value (bind m k) = value (k (value m)).
Proof. destruct m as [v l]. unfold value. simpl. destruct (k v). reflexivity. Qed.

Lemma printed_bind {A B} (m : Console A) (k : A -> Console B) :
  printed (bind m k) = printed m ++ printed (k (value m)).
Proof. destruct m as [v l]. unfold printed, value. simpl. destruct (k v). reflexivity. Qed.

Lemma value_ret {A} (v : A) : value (ret v) = v.
Proof. reflexivity. Qed.

(** ** Field operations and affine coordinates *)

Lemma field_div_value this num den :
  value (field_div this num den) =
  field_mul this (BigInt.mod_ num this.(ECcurve.p))
    (value (modular_inverse (BigInt.mod_ den this.(ECcurve.p)) this.(ECcurve.p))).
Proof. unfold field_div. rewrite value_bind. reflexivity. Qed.

Lemma touches_value this Q :
  value (touches this Q) =
  let x := value (get_x Q) in
  let y := value (get_y Q) in
  BigInt.equals
    (BigInt.mod_ (y * y) this.(ECcurve.p))
    (BigInt.mod_
       (field_mul this (BigInt.mod_ (x * x) this.(ECcurve.p) + this.(ECcurve.a)) x
        + this.(ECcurve.b))
       this.(ECcurve.p)).
Proof. unfold touches. rewrite !value_bind. reflexivity. Qed.

(** C10: on a curve with [b] not congruent to 0 modulo [p], the affine
    coordinates extracted from the identity point [(p, 0, 1)] are [(0, 0)]
    and [touches] answers false for it. *)
Theorem touches_identity (this : ECcurve) :
  0 < this.(ECcurve.p) -> this.(ECcurve.b) mod this.(ECcurve.p) <> 0 ->
  value (get_x (identity this)) = 0 /\
  value (get_y (identity this)) = 0 /\
  value (touches this (identity this)) = false.
Proof.
  intros Hp Hb.
  assert (Hx : value (get_x (identity this)) = 0).
  { unfold get_x. rewrite field_div_value. simpl.
    unfold field_mul, BigInt.mod_, BigInt.divmod. simpl.
    rewrite Z.rem_same by lia. apply Z.rem_0_l. lia. }
  assert (Hy : value (get_y (identity this)) = 0).
  { unfold get_y. rewrite field_div_value. simpl.
    unfold field_mul, BigInt.mod_, BigInt.divmod. simpl.
    reflexivity. }
  split; [exact Hx |]. split; [exact Hy |].
  rewrite touches_value, Hx, Hy. cbv zeta.
  unfold field_mul, BigInt.equals, BigInt.mod_, BigInt.divmod. cbn [fst snd].
  rewrite !Z.mul_0_r, !Z.rem_0_l, Z.add_0_l by lia.
  apply Z.eqb_neq. intros H0. apply Hb.
  apply Z.mod_divide; [lia |]. apply Z.rem_divide; [lia |]. symmetry. exact H0.
Qed.

Lemma touches_identity_witness :
  value (touches secp256k1 (identity secp256k1)) = false.
Proof.
  apply (touches_identity secp256k1); [reflexivity | vm_compute; congruence].
Defined.

(** ** Addition *)

(** C5: the identity is neutral on both sides; the other argument is
    returned as it is, hence with the same affine coordinates. *)
Theorem add_identity (this : ECcurve) (P : ECpoint) :
  is_identity this P = false ->
  add this (identity this) P = P /\ add this P (identity this) = P /\
  get_x (add this (identity this) P) = get_x P /\
  get_y (add this (identity this) P) = get_y P /\
  get_x (add this P (identity this)) = get_x P /\
  get_y (add this P (identity this)) = get_y P.
Proof.
  unfold is_identity. intros HP.
  assert (Hl : add this (identity this) P = P).
  { unfold add, identity, BigInt.equals. simpl. rewrite Z.eqb_refl. reflexivity. }
  assert (Hr : add this P (identity this) = P).
  { unfold add. rewrite HP. unfold identity, BigInt.equals. cbn [ECpoint.x].
    rewrite Z.eqb_refl. reflexivity. }
  rewrite Hl, Hr. repeat split; reflexivity.
Qed.

Lemma add_identity_witness :
  add secp256k1 (identity secp256k1) secp256k1_G = secp256k1_G /\
  add secp256k1 secp256k1_G (identity secp256k1) = secp256k1_G.
Proof.
  destruct (add_identity secp256k1 secp256k1_G) as [Hl [Hr _]];
    [reflexivity | split; assumption].
Defined.

(** C4, as stated, fails for a point with [y = 0]: it is its own opposite,
    both comparisons agree and [add] hands over to [double], which returns
    a triple with [z = 0] and not the identity.  The point (0, 0) lies on
    [y^2 = x^3 + 4 x] over the integers modulo 5. *)
Lemma add_opposite_of_order_two :
  let this := ECcurve.mk 5 4 0 2 in
  let P := ECpoint.mk this 0 0 1 in
  let P' := ECpoint.mk this 0 (5 - 0) 1 in
  touches this P = (true, []) /\
  add this P P' = ECpoint.mk this 1 1 0 /\
  add this P P' <> identity this /\
  is_identity this (add this P P') = false.
Proof. repeat split; vm_compute; congruence. Qed.

(** C4 (amended): over an odd modulus [p], for an affine point
    [P = (x, y, 1)] with [x] in [[0, p-1]] and [y] in [[1, p-1]],
    [add P (x, p - y, 1)] is the identity: the [x] comparisons agree and
    the [y] comparisons differ. *)
Theorem add_opposite (this : ECcurve) (vx vy : Z) :
  Z.odd this.(ECcurve.p) = true ->
  0 <= vx < this.(ECcurve.p) -> 0 < vy < this.(ECcurve.p) ->
  add this (ECpoint.mk this vx vy 1)
           (ECpoint.mk this vx (this.(ECcurve.p) - vy) 1) = identity this.
Proof.
  intros Hodd Hx Hy. unfold add, BigInt.equals.
  cbn [ECpoint.x ECpoint.y ECpoint.z].
  destruct (Z.eqb_spec vx this.(ECcurve.p)) as [Heq | _]; [lia |].
  rewrite !Z.mul_1_r, Z.eqb_refl.
  rewrite !mod_nonneg, !Z.mod_small by lia.
  destruct (Z.eqb_spec vy (this.(ECcurve.p) - vy)) as [Heq | _]; [| reflexivity].
  assert (Hev : this.(ECcurve.p) = 2 * vy) by lia.
  rewrite Hev, Z.odd_mul in Hodd. discriminate.
Qed.

Lemma add_opposite_witness :
  add secp256k1 secp256k1_G
    (ECpoint.mk secp256k1 secp256k1_G.(ECpoint.x)
       (secp256k1.(ECcurve.p) - secp256k1_G.(ECpoint.y)) 1)
  = identity secp256k1.
Proof.
  apply (add_opposite secp256k1); [reflexivity | vm_compute | vm_compute];
    split; congruence.
Defined.

(** ** Canonical range *)

Lemma renorm_range v d : 0 < d -> 0 <= renorm v d < d.
Proof. intros Hd. rewrite renorm_mod by exact Hd. apply Z.mod_pos_bound. exact Hd. Qed.

Lemma mod_nonneg_range v d : 0 <= v -> 0 < d -> 0 <= BigInt.mod_ v d < d.
Proof. intros Hv Hd. rewrite mod_nonneg by assumption. apply Z.mod_pos_bound. exact Hd. Qed.

(** Reads the renormalisation idiom back as [renorm]. *)
Ltac fold_renorm :=
  repeat match goal with
         | |- context [if BigInt.sign (BigInt.mod_ ?v ?d)
                       then BigInt.mod_ ?v ?d + ?d else BigInt.mod_ ?v ?d] =>
             change (if BigInt.sign (BigInt.mod_ v d)
                     then BigInt.mod_ v d + d else BigInt.mod_ v d)
               with (renorm v d)
         end.

(** The same bound, with the idiom as the program writes it. *)
Lemma renorm_idiom_range v d :
  0 < d ->
  0 <= (if BigInt.sign (BigInt.mod_ v d)
        then BigInt.mod_ v d + d else BigInt.mod_ v d) < d.
Proof. exact (renorm_range v d). Qed.

Lemma canonical_mk this vx vy vz :
  0 <= vx < this.(ECcurve.p) -> 0 <= vy < this.(ECcurve.p) ->
  0 <= vz < this.(ECcurve.p) -> canonical this (ECpoint.mk this vx vy vz).
Proof. intros Hx Hy Hz. repeat split; (apply Hx || apply Hy || apply Hz). Qed.

Lemma double_canonical this Q :
  0 < this.(ECcurve.p) -> canonical this Q -> canonical this (double this Q).
Proof.
  intros Hp (Hx & Hy & Hz). unfold double, BigInt.equals.
  destruct (Z.eqb_spec Q.(ECpoint.x) this.(ECcurve.p)) as [Heq | _]; [lia |].
  apply canonical_mk.
  - apply renorm_idiom_range. exact Hp.
  - apply renorm_idiom_range. exact Hp.
  - apply mod_nonneg_range; [nia | exact Hp].
Qed.

(** C7: with arguments whose coordinates lie in [[0, p-1]], [double]
    returns a point with coordinates in [[0, p-1]], and so does [add]
    unless it returns the identity. *)
Theorem operations_stay_canonical (this : ECcurve) (Q1 Q2 : ECpoint) :
  0 < this.(ECcurve.p) -> canonical this Q1 -> canonical this Q2 ->
  canonical this (double this Q1) /\
  (is_identity this (add this Q1 Q2) = false ->
   canonical this (add this Q1 Q2)) /\
  (is_identity this (add this Q1 Q2) = true ->
   add this Q1 Q2 = identity this).
Proof.
  intros Hp H1 H2.
  pose proof (double_canonical this Q1 Hp H1) as Hd.
  split; [exact Hd |].
  assert (Hcases : add this Q1 Q2 = identity this \/
                   canonical this (add this Q1 Q2)).
  { destruct H1 as (Hx1 & Hy1 & Hz1). destruct H2 as (Hx2 & Hy2 & Hz2).
    unfold add, BigInt.equals.
    destruct (Z.eqb_spec Q1.(ECpoint.x) this.(ECcurve.p)) as [Heq | _]; [lia |].
    destruct (Z.eqb_spec Q2.(ECpoint.x) this.(ECcurve.p)) as [Heq | _]; [lia |].
    cbv zeta.
    match goal with |- context [if ?c then _ else _] => destruct c end.
    - match goal with |- context [if ?c then _ else _] => destruct c end;
        [right; exact Hd | left; reflexivity].
    - right. apply canonical_mk.
      + apply renorm_idiom_range. exact Hp.
      + apply renorm_idiom_range. exact Hp.
      + apply mod_nonneg_range; [| exact Hp].
        match goal with |- 0 <= ?xd * _ * _ =>
          assert (0 <= xd < this.(ECcurve.p))
            by (apply renorm_idiom_range; exact Hp) end.
        nia. }
  split.
  - intros Hfin. destruct Hcases as [Hid | Hc]; [| exact Hc].
    rewrite Hid in Hfin. unfold is_identity, identity, BigInt.equals in Hfin.
    cbn [ECpoint.x] in Hfin. rewrite Z.eqb_refl in Hfin. discriminate.
  - intros Hinf. destruct Hcases as [Hid | Hc]; [exact Hid |].
    unfold is_identity, BigInt.equals in Hinf. apply Z.eqb_eq in Hinf.
    destruct Hc as (Hcx & _). lia.
Qed.

Lemma operations_stay_canonical_witness :
  canonical secp256k1 (double secp256k1 secp256k1_G) /\
  canonical secp256k1
    (add secp256k1 secp256k1_G (double secp256k1 secp256k1_G)).
Proof.
  assert (HG : canonical secp256k1 secp256k1_G)
    by (unfold canonical; vm_compute; repeat split; congruence).
  assert (Hp : 0 < secp256k1.(ECcurve.p)) by reflexivity.
  destruct (operations_stay_canonical secp256k1 secp256k1_G secp256k1_G Hp HG HG)
    as [HD _].
  destruct (operations_stay_canonical secp256k1 secp256k1_G
              (double secp256k1 secp256k1_G) Hp HG HD) as [_ [HA _]].
  split; [exact HD | apply HA; vm_compute; reflexivity].
Defined.

(** ** Scalar multiplication: the loop comes to an end *)

Lemma mul_loop_zero this fuel R Q : mul_loop this fuel R Q 0 = Some R.
Proof. destruct fuel; reflexivity. Qed.

Lemma shiftRight_decreases m : 0 < m -> 0 <= BigInt.shiftRight m 1 < m.
Proof.
  intros Hm. unfold BigInt.shiftRight.
  rewrite Z.shiftr_div_pow2 by lia. change (2 ^ 1) with 2.
  split; [apply Z.div_pos; lia | apply Z.div_lt; lia].
Qed.

Lemma mul_loop_enough this k : forall R Q m,
  0 <= m < 2 ^ Z.of_nat k ->
  exists R', forall fuel, (k <= fuel)%nat -> mul_loop this fuel R Q m = Some R'.
Proof.
  induction k as [| k IH]; intros R Q m Hm.
  - assert (m = 0) as -> by (simpl in Hm; lia).
    exists R. intros fuel _. apply mul_loop_zero.
  - destruct (Z.eq_dec m 0) as [-> | Hnz].
    + exists R. intros fuel _. apply mul_loop_zero.
    + assert (Hhalf : 0 <= BigInt.shiftRight m 1 < 2 ^ Z.of_nat k).
      { unfold BigInt.shiftRight. rewrite Z.shiftr_div_pow2 by lia.
        change (2 ^ 1) with 2.
        rewrite Nat2Z.inj_succ, Z.pow_succ_r in Hm by lia.
        split; [apply Z.div_pos; lia | apply Z.div_lt_upper_bound; lia]. }
      destruct (IH (if BigInt.equals (BigInt.and m 1) 1 then add this R Q else R)
                   (if negb (BigInt.equals (BigInt.shiftRight m 1) 0)
                    then double this Q else Q)
                   (BigInt.shiftRight m 1) Hhalf) as [R' HR'].
      exists R'. intros fuel Hfuel.
      destruct fuel as [| fuel]; [lia |]. simpl.
      unfold BigInt.equals at 1.
      destruct (Z.eqb_spec m 0) as [Heq | _]; [contradiction |].
      apply HR'. lia.
Qed.

(** For a negative scalar the shifted value stays negative, and the loop
    goes on whatever the bound. *)
Lemma mul_loop_negative this fuel : forall R Q m,
  m < 0 -> mul_loop this fuel R Q m = None.
Proof.
  induction fuel as [| fuel IH]; intros R Q m Hm; simpl; unfold BigInt.equals at 1;
    destruct (Z.eqb_spec m 0) as [Heq | _]; try lia; [reflexivity |].
  apply IH. unfold BigInt.shiftRight. apply Z.shiftr_neg. exact Hm.
Qed.

(** The fuel of [mul] covers the binary digits of the scalar. *)
Lemma mul_fuel_bound (m : Z) : 0 <= m -> 0 <= m < 2 ^ Z.of_nat (mul_fuel m).
Proof.
  intros Hm. unfold mul_fuel. pose proof (Z.log2_nonneg m).
  rewrite Z2Nat.id by lia. split; [exact Hm |].
  destruct (Z.eq_dec m 0) as [-> | Hnz]; [reflexivity |].
  apply Z.log2_spec. lia.
Qed.

(** The test of the lowest binary digit. *)
Lemma land_1_odd (m : Z) : BigInt.equals (BigInt.and m 1) 1 = Z.odd m.
Proof.
  unfold BigInt.equals, BigInt.and. change 1 with (Z.ones 1) at 1.
  rewrite Z.land_ones by lia. change (2 ^ 1) with 2.
  rewrite Zmod_odd. destruct (Z.odd m); reflexivity.
Qed.

(** C8: for a scalar [0 <= m] the loop of [mul] ends, within one iteration
    per binary digit of [m]: the shift strictly decreases a positive scalar,
    and for [m = 0] the identity is returned before any iteration. *)
Theorem mul_terminates (this : ECcurve) (Q : ECpoint) (m : Z) :
  0 <= m ->
  (exists R, mul this Q m = Some R /\
             forall fuel, (mul_fuel m <= fuel)%nat ->
                          mul_loop this fuel (identity this) Q m = Some R) /\
  (0 < m -> 0 <= BigInt.shiftRight m 1 < m) /\
  mul_loop this 0 (identity this) Q 0 = Some (identity this) /\
  mul this Q 0 = Some (identity this).
Proof.
  intros Hm. split; [| split; [apply shiftRight_decreases | split; reflexivity]].
  pose proof (mul_fuel_bound m Hm) as Hb.
  destruct (mul_loop_enough this (mul_fuel m) (identity this) Q m Hb) as [R HR].
  exists R. split; [apply HR; lia | exact HR].
Qed.

Lemma mul_terminates_witness :
  exists R, mul secp256k1 secp256k1_G 5 = Some R.
Proof.
  destruct (mul_terminates secp256k1 secp256k1_G 5) as [[R [HR _]] _]; [lia |].
  exists R. exact HR.
Defined.

(** ** Hexadecimal rendering *)

Lemma string_of_uint_lower_hex d :
  all_chars lower_hex_digit (NilEmpty.string_of_uint d) = true.
Proof. induction d; simpl; try rewrite IHd; reflexivity. Qed.

Lemma toString16_nonneg v :
  0 <= v -> all_chars lower_hex_digit (BigInt.toString16 v) = true.
Proof.
  intros Hv. unfold BigInt.toString16.
  destruct v as [| q | q]; [reflexivity | | lia].
  cbn [Z.to_hex_int NilZero.string_of_int].
  pose proof (Unsigned.to_uint_nonnil q) as Hq.
  destruct (Pos.to_hex_uint q) as [| u | u | u | u | u | u | u | u
                                     | u | u | u | u | u | u | u | u];
    [congruence | ..];
    match goal with
    | |- all_chars _ (NilZero.string_of_uint ?d) = true =>
        exact (string_of_uint_lower_hex d)
    end.
Qed.

Lemma parse16_toString16 v : BigInt.parse16 (BigInt.toString16 v) = Some v.
Proof.
  unfold BigInt.parse16, BigInt.toString16.
  rewrite NilZero.isi.
  - simpl. rewrite HexadecimalZ.of_to. reflexivity.
  - destruct v; simpl; try discriminate.
    intros [= H]. exact (Unsigned.to_uint_nonnil _ H).
  - destruct v; simpl; try discriminate.
    intros [= H]. exact (Unsigned.to_uint_nonnil _ H).
Qed.

Lemma field_div_range this num den :
  0 < this.(ECcurve.p) -> 0 <= num ->
  0 <= value (field_div this num den) < this.(ECcurve.p).
Proof.
  intros Hp Hnum. rewrite field_div_value. unfold field_mul.
  apply mod_nonneg_range; [| exact Hp].
  pose proof (modular_inverse_range (BigInt.mod_ den this.(ECcurve.p)) _ Hp).
  pose proof (mod_nonneg_range num _ Hnum Hp). nia.
Qed.

(** C9: [toString] gives the token [identity_point] for a point whose [x]
    is [p]; for any other point with non-negative [x] and [y] it gives
    ["("], the affine [x] in hexadecimal, [", "], the affine [y] in
    hexadecimal and [")"], where the hexadecimal strings consist of the
    characters [0-9a-f] only (so carry no prefix) and read back as the
    coordinates. *)
Theorem toString_format (Q : ECpoint) :
  let this := Q.(ECpoint.curve) in
  (is_identity this Q = true -> toString Q = ret "identity_point"%string) /\
  (is_identity this Q = false ->
   0 < this.(ECcurve.p) -> 0 <= Q.(ECpoint.x) -> 0 <= Q.(ECpoint.y) ->
   let sx := BigInt.toString16 (value (get_x Q)) in
   let sy := BigInt.toString16 (value (get_y Q)) in
   value (toString Q) = ("(" ++ sx ++ ", " ++ sy ++ ")")%string /\
   all_chars lower_hex_digit sx = true /\
   all_chars lower_hex_digit sy = true /\
   BigInt.parse16 sx = Some (value (get_x Q)) /\
   BigInt.parse16 sy = Some (value (get_y Q))).
Proof.
  intros this. unfold is_identity, toString. fold this. split.
  - intros ->. reflexivity.
  - intros -> Hp Hx Hy.
    split; [rewrite !value_bind; reflexivity |].
    split; [apply toString16_nonneg, field_div_range; assumption |].
    split; [apply toString16_nonneg, field_div_range; assumption |].
    split; apply parse16_toString16.
Qed.

Lemma toString_format_witness :
  toString (identity secp256k1) = ret "identity_point"%string /\
  value (toString secp256k1_G) =
  ("(" ++ "79be667ef9dcbbac55a06295ce870b07029bfcdb2dce28d959f2815b16f81798" ++
   ", " ++ "483ada7726a3c4655da4fbfc0e1108a8fd17b448a68554199c47d08ffb10d4b8" ++
   ")")%string.
Proof.
  split.
  - apply (proj1 (toString_format (identity secp256k1))). reflexivity.
  - destruct (proj2 (toString_format secp256k1_G)) as [H _];
      [reflexivity | reflexivity | vm_compute; congruence | vm_compute; congruence |].
    rewrite H. vm_compute. reflexivity.
Defined.

(** ** Arithmetic in the field of the curve *)

Section PrimeField.

Variable this : ECcurve.
Hypothesis Hprime : Z.prime this.(ECcurve.p).

Add Field CurveField : (Zmod.field_theory this.(ECcurve.p) Hprime).

Lemma prime_pos : 0 < this.(ECcurve.p).
Proof. pose proof (Z.prime_ge_2 _ Hprime). lia. Qed.

Lemma phi_add u v : phi this (u + v) = (phi this u + phi this v)%F.
Proof. apply Zmod.of_Z_add. Qed.

Lemma phi_sub u v : phi this (u - v) = (phi this u - phi this v)%F.
Proof. apply Zmod.of_Z_sub. Qed.

Lemma phi_mul u v : phi this (u * v) = (phi this u * phi this v)%F.
Proof. apply Zmod.of_Z_mul. Qed.

Lemma phi_1 : phi this 1 = 1%F.
Proof. apply Zmod.of_Z_1. Qed.

Lemma phi_2 : phi this 2 = 2%F.
Proof. change 2 with (1 + 1). rewrite phi_add, phi_1. reflexivity. Qed.

Lemma phi_3 : phi this 3 = (2 + 1)%F.
Proof. change 3 with (2 + 1). rewrite phi_add, phi_2, phi_1. reflexivity. Qed.

Lemma phi_4 : phi this 4 = (2 * 2)%F.
Proof. change 4 with (2 * 2). rewrite phi_mul, phi_2. reflexivity. Qed.

Lemma phi_8 : phi this 8 = (2 * 2 * 2)%F.
Proof. change 8 with (4 * 2). rewrite phi_mul, phi_4, phi_2. reflexivity. Qed.

Lemma phi_floor_mod v : phi this (v mod this.(ECcurve.p)) = phi this v.
Proof. apply Zmod.of_Z_mod. Qed.

Lemma phi_mod v : phi this (BigInt.mod_ v this.(ECcurve.p)) = phi this v.
Proof.
  unfold phi, BigInt.mod_, BigInt.divmod. cbn [snd].
  apply Zmod.of_Z_inj.
  pose proof (Z.quot_rem' v this.(ECcurve.p)) as Hq.
  replace (Z.rem v this.(ECcurve.p))
    with (v + (- Z.quot v this.(ECcurve.p)) * this.(ECcurve.p)) by lia.
  apply Z.mod_add. pose proof prime_pos. lia.
Qed.

Lemma phi_renorm v : phi this (renorm v this.(ECcurve.p)) = phi this v.
Proof. rewrite renorm_mod by apply prime_pos. apply phi_floor_mod. Qed.

Lemma phi_modPow_2 v :
  phi this (BigInt.modPow v 2 this.(ECcurve.p)) = (phi this v * phi this v)%F.
Proof.
  unfold BigInt.modPow. rewrite phi_mod. change (v ^ 2) with (v * (v * 1)).
  rewrite Z.mul_1_r. apply phi_mul.
Qed.

Lemma phi_modPow_3 v :
  phi this (BigInt.modPow v 3 this.(ECcurve.p))
  = (phi this v * phi this v * phi this v)%F.
Proof.
  unfold BigInt.modPow. rewrite phi_mod. change (v ^ 3) with (v * (v * (v * 1))).
  rewrite Z.mul_1_r, Z.mul_assoc, !phi_mul. reflexivity.
Qed.

(** Two canonical representatives of the same class are equal. *)
Lemma phi_inj v w :
  0 <= v < this.(ECcurve.p) -> 0 <= w < this.(ECcurve.p) ->
  phi this v = phi this w -> v = w.
Proof.
  intros Hv Hw H. apply Zmod.of_Z_inj in H.
  rewrite !Z.mod_small in H by assumption. exact H.
Qed.

Lemma phi_zero_iff v : phi this v = 0%F <-> v mod this.(ECcurve.p) = 0.
Proof.
  unfold phi. rewrite <- Zmod.of_Z_0. rewrite Zmod.of_Z_inj.
  rewrite Z.mod_0_l by (pose proof prime_pos; lia). reflexivity.
Qed.

Lemma phi_nonzero v : 0 < v < this.(ECcurve.p) -> phi this v <> 0%F.
Proof. intros Hv H. apply phi_zero_iff in H. rewrite Z.mod_small in H; lia. Qed.

Lemma two_nonzero :
  2 < this.(ECcurve.p) -> (2%F : Zmod this.(ECcurve.p)) <> 0%F.
Proof. intros H2. rewrite <- phi_2. apply phi_nonzero. lia. Qed.

(** [field_div] is the division of the field whenever the reduced
    denominator is non-negative and not zero. *)
Lemma phi_field_div num den :
  0 <= BigInt.mod_ den this.(ECcurve.p) -> phi this den <> 0%F ->
  phi this (value (field_div this num den)) = (phi this num / phi this den)%F.
Proof.
  intros Hnn Hnz. pose proof prime_pos as Hp.
  rewrite field_div_value. unfold field_mul. rewrite phi_mod, phi_mul, phi_mod.
  set (r := BigInt.mod_ den this.(ECcurve.p)) in *.
  assert (Hr : phi this r = phi this den) by apply phi_mod.
  assert (Hco : Z.gcd r this.(ECcurve.p) = 1).
  { rewrite Z.gcd_comm. apply Z.coprime_prime_l; [exact Hprime |].
    intros Hdiv. apply Hnz. rewrite <- Hr. apply phi_zero_iff.
    apply Z.mod_divide; [lia | exact Hdiv]. }
  pose proof (modular_inverse_coprime r _ Hnn Hp Hco) as Hinv.
  apply (f_equal (phi this)) in Hinv.
  rewrite !phi_floor_mod, phi_mul, phi_1, Hr in Hinv.
  set (i := phi this (value (modular_inverse r this.(ECcurve.p)))) in *.
  unfold Zmod.mdiv.
  apply (Zmod.mul_cancel_l_prime (phi this den)); [exact Hprime | exact Hnz |].
  rewrite (Zmod.mul_comm (phi this num) i), Zmod.mul_assoc, Hinv.
  rewrite (Zmod.mul_comm (phi this num)), Zmod.mul_assoc.
  rewrite Zmod.mul_inv_same_r_prime by assumption. reflexivity.
Qed.

Ltac push_phi :=
  repeat (rewrite ?phi_renorm, ?phi_mod, ?phi_floor_mod, ?phi_modPow_2,
            ?phi_modPow_3, ?phi_add, ?phi_sub, ?phi_mul,
            ?phi_1, ?phi_2, ?phi_3, ?phi_4, ?phi_8).

Lemma mod_sign_nonneg v : 0 <= v -> 0 <= BigInt.mod_ v this.(ECcurve.p).
Proof. intros Hv. apply mod_nonneg_range; [exact Hv | apply prime_pos]. Qed.

(** The affine coordinates in the field. *)
Lemma phi_get_x Q :
  Q.(ECpoint.curve) = this -> phi this Q.(ECpoint.z) <> 0%F ->
  phi this (value (get_x Q))
  = (phi this Q.(ECpoint.x) / (phi this Q.(ECpoint.z) * phi this Q.(ECpoint.z)))%F.
Proof.
  intros Hc Hz. unfold get_x. rewrite Hc.
  rewrite phi_field_div; push_phi; [reflexivity | |].
  - apply mod_sign_nonneg. unfold BigInt.modPow. apply mod_sign_nonneg.
    apply Z.pow_even_nonneg. exists 1. reflexivity.
  - intros H. apply Zmod.mul_0_iff_prime in H; [tauto | exact Hprime].
Qed.

Lemma phi_get_y Q :
  Q.(ECpoint.curve) = this -> 0 <= Q.(ECpoint.z) ->
  phi this Q.(ECpoint.z) <> 0%F ->
  phi this (value (get_y Q))
  = (phi this Q.(ECpoint.y)
     / (phi this Q.(ECpoint.z) * phi this Q.(ECpoint.z) * phi this Q.(ECpoint.z)))%F.
Proof.
  intros Hc Hnn Hz. unfold get_y. rewrite Hc.
  rewrite phi_field_div; push_phi; [reflexivity | |].
  - apply mod_sign_nonneg. unfold BigInt.modPow. apply mod_sign_nonneg.
    apply Z.pow_nonneg. exact Hnn.
  - intros H. apply Zmod.mul_0_iff_prime in H; [| exact Hprime].
    destruct H as [H | H]; [| tauto].
    apply Zmod.mul_0_iff_prime in H; [tauto | exact Hprime].
Qed.

(** The coordinates of [double Q] in the field. *)
Lemma phi_double Q :
  is_identity this Q = false ->
  let vx := phi this Q.(ECpoint.x) in
  let vy := phi this Q.(ECpoint.y) in
  let vz := phi this Q.(ECpoint.z) in
  let S := (vx * vy * vy * (2 * 2))%F in
  let M := (vx * vx * (2 + 1) + phi this this.(ECcurve.a) * (vz * vz * (vz * vz)))%F in
  let x' := (M * M - S * 2)%F in
  phi this (double this Q).(ECpoint.x) = x' /\
  phi this (double this Q).(ECpoint.y)
  = (M * (S - x') - vy * vy * (vy * vy) * (2 * 2 * 2))%F /\
  phi this (double this Q).(ECpoint.z) = (vz * vy * 2)%F.
Proof.
  unfold is_identity, double. intros ->. cbv zeta. fold_renorm.
  cbn [ECpoint.x ECpoint.y ECpoint.z]. push_phi. repeat split; reflexivity.
Qed.

(** C3: for a finite point [Q] with coordinates in [[0, p-1]], [z <> 0]
    and [y <> 0], over a prime [p > 2], the affine coordinates of
    [double Q] are those the textbook tangent rule gives for the affine
    form of [Q], with the slope computed by [tangent]. *)
Theorem double_is_tangent_doubling (Q : ECpoint) :
  2 < this.(ECcurve.p) -> Q.(ECpoint.curve) = this -> canonical this Q ->
  Q.(ECpoint.z) <> 0 -> Q.(ECpoint.y) <> 0 ->
  value (textbook_double this (affine Q))
  = (value (get_x (double this Q)), value (get_y (double this Q))).
Proof.
  intros Hp2 Hc Hcan Hz Hy. pose proof prime_pos as Hp.
  pose proof (double_canonical this Q Hp Hcan) as (Hdx & Hdy & Hdz).
  destruct Hcan as (Hx & Hy' & Hz').
  assert (Hid : is_identity this Q = false)
    by (unfold is_identity, BigInt.equals; apply Z.eqb_neq; lia).
  assert (Hcd : (double this Q).(ECpoint.curve) = this)
    by (unfold double; unfold is_identity in Hid; rewrite Hid; reflexivity).
  destruct (phi_double Q Hid) as (Ex & Ey & Ez). cbv zeta in Ex, Ey, Ez.
  assert (Nz : phi this Q.(ECpoint.z) <> 0%F) by (apply phi_nonzero; lia).
  assert (Ny : phi this Q.(ECpoint.y) <> 0%F) by (apply phi_nonzero; lia).
  pose proof (two_nonzero Hp2) as N2.
  assert (Nz' : phi this (double this Q).(ECpoint.z) <> 0%F).
  { rewrite Ez. intros H.
    repeat (apply Zmod.mul_0_iff_prime in H; [destruct H as [H | H] | exact Hprime]);
      contradiction. }
  pose proof (phi_get_x Q Hc Nz) as Gx.
  pose proof (phi_get_y Q Hc ltac:(lia) Nz) as Gy.
  pose proof (phi_get_x (double this Q) Hcd Nz') as Gx'.
  pose proof (phi_get_y (double this Q) Hcd ltac:(lia) Nz') as Gy'.
  rewrite Ex, Ez in Gx'. rewrite Ey, Ez in Gy'.
  pose proof (field_div_range this Q.(ECpoint.x)
                (BigInt.modPow Q.(ECpoint.z) 2 this.(ECcurve.p)) Hp ltac:(lia)) as Rx.
  pose proof (field_div_range this Q.(ECpoint.y)
                (BigInt.modPow Q.(ECpoint.z) 3 this.(ECcurve.p)) Hp ltac:(lia)) as Ry.
  assert (Ngy : phi this (value (get_y Q)) <> 0%F).
  { rewrite Gy. unfold Zmod.mdiv. intros H.
    apply Zmod.mul_0_iff_prime in H; [| exact Hprime].
    destruct H as [H | H]; [contradiction |].
    revert H. apply Zmod.inv_nz_prime; [exact Hprime |]. intros H.
    repeat (apply Zmod.mul_0_iff_prime in H; [destruct H as [H | H] | exact Hprime]);
      contradiction. }
  assert (Lam : phi this (value (tangent this (affine Q)))
                = ((phi this (value (get_x Q)) * phi this (value (get_x Q)) * (2 + 1)
                    + phi this this.(ECcurve.a))
                   / (phi this (value (get_y Q)) * 2))%F).
  { unfold tangent, affine. cbn [ECpoint.x ECpoint.y].
    rewrite phi_field_div; push_phi; [reflexivity | |].
    - apply mod_sign_nonneg. unfold get_y in Ry |- *. rewrite Hc. lia.
    - intros H. apply Zmod.mul_0_iff_prime in H; [| exact Hprime].
      destruct H; contradiction. }
  unfold textbook_double. rewrite value_bind. unfold value at 1, ret. cbn [fst].
  set (lam := value (tangent this (affine Q))) in *.
  unfold affine. cbn [ECpoint.x ECpoint.y].
  assert (Ex3 : phi this ((lam * lam - 2 * value (get_x Q)) mod this.(ECcurve.p))
                = phi this (value (get_x (double this Q)))).
  { push_phi. rewrite Gx', Lam, Gx, Gy. field. repeat split; assumption. }
  assert (Hx3 : (lam * lam - 2 * value (get_x Q)) mod this.(ECcurve.p)
                = value (get_x (double this Q))).
  { apply phi_inj; [apply Z.mod_pos_bound; exact Hp | | exact Ex3].
    unfold get_x. rewrite Hcd. apply field_div_range; [exact Hp | lia]. }
  f_equal; [exact Hx3 |].
  apply phi_inj; [apply Z.mod_pos_bound; exact Hp | |].
  - unfold get_y. rewrite Hcd. apply field_div_range; [exact Hp | lia].
  - rewrite Hx3. push_phi. rewrite Gy', Gx', Lam, Gx, Gy. field.
    repeat split; assumption.
Qed.

End PrimeField.

(** A small curve of the shape of the reference curve, [y^2 = x^3 + 7]
    over the integers modulo 11, for running the statements that assume a
    prime modulus. *)
Lemma prime_11 : Z.prime 11.
Proof.
  split; [lia |]. intros k Hk [q Hq].
  assert (Hcases : k = 2 \/ k = 3 \/ k = 4 \/ k = 5 \/ k = 6 \/ k = 7 \/
                   k = 8 \/ k = 9 \/ k = 10) by lia.
  repeat (destruct Hcases as [-> | Hcases]; [lia |]). subst k. lia.
Qed.

Lemma double_is_tangent_doubling_witness :
  let this := ECcurve.mk 11 0 7 12 in
  let Q := ECpoint.mk this 7 10 3 in
  value (textbook_double this (affine Q))
  = (value (get_x (double this Q)), value (get_y (double this Q))).
Proof.
  intros this Q.
  apply (double_is_tangent_doubling this prime_11 Q);
    [reflexivity | reflexivity | unfold canonical; simpl; lia
    | discriminate | discriminate].
Defined.

(** ** The group law of a curve over a field *)

Lemma Cpt_inj {K : Type} (x y x' y' : K) : Cpt x y = Cpt x' y' -> x = x' /\ y = y'.
Proof.
  intros H. split.
  - exact (f_equal (fun P => match P with Cpt u _ => u | Cinf => x end) H).
  - exact (f_equal (fun P => match P with Cpt _ v => v | Cinf => y end) H).
Qed.

Section GroupLaw.

Variable K : Type.
Variables k0 k1 : K.
Variables kadd kmul ksub kdiv : K -> K -> K.
Variables kopp kinv : K -> K.
Variable keqb : K -> K -> bool.
Variables cA cB : K.

Hypothesis Kth :
  field_theory k0 k1 kadd kmul ksub kopp kdiv kinv (@eq K).
Hypothesis feqb_spec :
  forall u v : K, BoolSpec (u = v) (u <> v) (keqb u v).

Add Field Kfield : Kth.

Notation "0" := k0 : K_scope.
Notation "1" := k1 : K_scope.
Notation "2" := (kadd k1 k1) : K_scope.
Notation "u + v" := (kadd u v) : K_scope.
Notation "u - v" := (ksub u v) : K_scope.
Notation "u * v" := (kmul u v) : K_scope.
Notation "u / v" := (kdiv u v) : K_scope.
Abbreviation on_curve := (on_curve kadd kmul cA cB).
Abbreviation copp := (copp kopp).
Abbreviation chord := (chord kmul ksub kdiv).
Abbreviation tangent_double := (tangent_double k1 kadd kmul ksub kdiv cA).
Abbreviation cadd := (cadd k1 kadd kmul ksub kdiv keqb cA).
Abbreviation cmul := (cmul k1 kadd kmul ksub kdiv keqb cA).

Hypothesis F2_nz : (2 <> 0)%K.
Hypothesis no_two_torsion :
  forall x y : K, on_curve (Cpt x y) -> y <> 0%K.

Lemma sub_nz (u v : K) : u <> v -> (v - u)%K <> 0%K.
Proof. intros H E. apply H. transitivity (u + (v - u))%K; [rewrite E |]; ring. Qed.

Lemma F_integral (u v : K) : (u * v)%K = 0%K -> u = 0%K \/ v = 0%K.
Proof.
  intros H. destruct (feqb_spec u 0%K) as [Hu | Hu]; [left; exact Hu | right].
  transitivity ((u * v) / u)%K; [field; exact Hu | rewrite H; field; exact Hu].
Qed.

Lemma mul_nz (u v : K) : u <> 0%K -> v <> 0%K -> (u * v)%K <> 0%K.
Proof. intros Hu Hv H. apply F_integral in H. tauto. Qed.

Lemma mul_cancel_l (u v w : K) : u <> 0%K -> (u * v)%K = (u * w)%K -> v = w.
Proof.
  intros Hu H. transitivity ((u * v) / u)%K; [field; exact Hu |].
  rewrite H. field. exact Hu.
Qed.

Lemma feqb_refl (u : K) : keqb u u = true.
Proof. destruct (feqb_spec u u); congruence. Qed.

Lemma opp_nz (u : K) : u <> 0%K -> kopp u <> 0%K.
Proof. intros Hu H. apply Hu. transitivity (0 - kopp u)%K; [ring | rewrite H; ring]. Qed.

Lemma neq_opp (y : K) : y <> 0%K -> y <> (kopp y).
Proof.
  intros Hy H. assert (E : (y * 2)%K = 0%K)
    by (transitivity (y + kopp y)%K; [rewrite <- H; ring | ring]).
  apply F_integral in E. destruct E; [contradiction | apply F2_nz; assumption].
Qed.

(** Two points of the curve over the same [x] are equal or opposite. *)
Lemma same_x (x y1 y2 : K) :
  on_curve (Cpt x y1) -> on_curve (Cpt x y2) -> y1 = y2 \/ y2 = (kopp y1).
Proof.
  cbn [cadd copp on_curve]. intros E1 E2.
  assert (E : ((y2 - y1) * (y2 + y1))%K = 0%K).
  { transitivity (y2 * y2 - y1 * y1)%K; [ring |]. rewrite E1, E2. ring. }
  apply F_integral in E. destruct E as [E | E].
  - left. transitivity (y1 + (y2 - y1))%K; [rewrite E |]; ring.
  - right. transitivity ((y2 + y1) - y1)%K; [ring |]. rewrite E. ring.
Qed.

(** A chord determines the curve: its slope gives [a], and then [b]. *)
Lemma chord_param (x1 y1 x2 y2 l : K) :
  on_curve (Cpt x1 y1) -> on_curve (Cpt x2 y2) -> x1 <> x2 ->
  (l * (x2 - x1))%K = (y2 - y1)%K ->
  y2 = (y1 + l * (x2 - x1))%K /\
  cA = (y1 * l * 2 + l * l * (x2 - x1) - (x1 * x1 + x1 * x2 + x2 * x2))%K /\
  cB = (y1 * y1 - x1 * x1 * x1 - cA * x1)%K.
Proof.
  cbn [cadd copp on_curve]. intros E1 E2 Hx Hl.
  assert (Hy2 : y2 = (y1 + l * (x2 - x1))%K) by (rewrite Hl; ring).
  split; [exact Hy2 |]. split; [| rewrite E1; ring].
  apply (mul_cancel_l (x2 - x1)%K); [apply sub_nz; exact Hx |].
  transitivity (y2 * y2 - y1 * y1 - (x2 * x2 * x2 - x1 * x1 * x1))%K.
  - rewrite E1, E2. ring.
  - rewrite Hy2. ring.
Qed.

(** So does a tangent. *)
Lemma tangent_param (x1 y1 t : K) :
  on_curve (Cpt x1 y1) ->
  (t * (y1 * 2))%K = (x1 * x1 * (2 + 1) + cA)%K ->
  cA = (t * (y1 * 2) - x1 * x1 * (2 + 1))%K /\
  cB = (y1 * y1 - x1 * x1 * x1 - cA * x1)%K.
Proof.
  cbn [cadd copp on_curve]. intros E1 Ht. split; [rewrite Ht; ring | rewrite E1; ring].
Qed.

Lemma on_curve_opp (P : cpoint K) : on_curve P -> on_curve (copp P).
Proof. destruct P as [| x y]; cbn [cadd copp on_curve]; [trivial |]. intros E. rewrite <- E. ring. Qed.

Lemma copp_involutive (P : cpoint K) : copp (copp P) = P.
Proof. destruct P as [| x y]; cbn [cadd copp on_curve]; [reflexivity |]. f_equal. ring. Qed.


(** Side conditions of [field]: every factor of a denominator is among the
    hypotheses, up to conversion. *)
Ltac nz_atom := first [assumption | apply opp_nz; assumption].

(** A denominator that is itself a fraction comes back from [field] with
    its own denominator cleared: the condition is the hypothesis times a
    power of a denominator known not to vanish. *)
Ltac nz_cleared :=
  match goal with
  | |- ?G <> _ =>
      match goal with
      | H : ?T <> _, HD : ?D <> _ |- _ =>
          first [ replace G with (kmul T (kmul D D))
                    by (field; repeat split; nz_atom);
                  apply mul_nz; [exact H | apply mul_nz; exact HD]
                | replace G with (kmul T D)
                    by (field; repeat split; nz_atom);
                  apply mul_nz; [exact H | exact HD] ]
      end
  end.

Ltac nz := repeat split; first [nz_atom | nz_cleared].


(** *** Closure *)

Lemma chord_on_curve (x1 y1 x2 y2 : K) :
  on_curve (Cpt x1 y1) -> on_curve (Cpt x2 y2) -> x1 <> x2 ->
  on_curve (chord x1 y1 x2 y2).
Proof.
  intros E1 E2 Hx. pose proof (sub_nz _ _ Hx) as Nx. unfold chord. cbv zeta.
  set (l := ((y2 - y1) / (x2 - x1))%K).
  assert (Hl : (l * (x2 - x1))%K = (y2 - y1)%K) by (subst l; field; nz).
  destruct (chord_param x1 y1 x2 y2 l E1 E2 Hx Hl) as (Hy2 & HA & HB).
  clearbody l. subst y2. cbn [cadd copp on_curve]. rewrite HB, HA. ring.
Qed.

Lemma tangent_on_curve (x1 y1 : K) :
  on_curve (Cpt x1 y1) -> on_curve (tangent_double x1 y1).
Proof.
  intros E1. pose proof (no_two_torsion x1 y1 E1) as Hy. pose proof F2_nz as N2.
  unfold tangent_double. cbv zeta.
  set (t := ((x1 * x1 * (2 + 1) + cA) / (y1 * 2))%K).
  assert (Ht : (t * (y1 * 2))%K = (x1 * x1 * (2 + 1) + cA)%K)
    by (subst t; field; nz).
  destruct (tangent_param x1 y1 t E1 Ht) as (HA & HB).
  clearbody t. cbn [cadd copp on_curve]. rewrite HB, HA. ring.
Qed.

Lemma cadd_on_curve (P Q : cpoint K) : on_curve P -> on_curve Q -> on_curve (cadd P Q).
Proof.
  destruct P as [| x1 y1], Q as [| x2 y2]; cbn [cadd copp on_curve]; trivial. intros E1 E2.
  destruct (feqb_spec x1 x2) as [Hx | Hx].
  - destruct (feqb_spec y1 y2); [apply tangent_on_curve; exact E1 | exact I].
  - apply chord_on_curve; assumption.
Qed.

(** *** Neutral element, commutativity, opposites *)

Lemma cadd_inf_l (P : cpoint K) : cadd Cinf P = P.
Proof. reflexivity. Qed.

Lemma cadd_inf_r (P : cpoint K) : cadd P Cinf = P.
Proof. destruct P; reflexivity. Qed.

Lemma chord_comm (x1 y1 x2 y2 : K) :
  x1 <> x2 -> chord x1 y1 x2 y2 = chord x2 y2 x1 y1.
Proof.
  intros Hx. pose proof (sub_nz _ _ Hx) as Nx.
  pose proof (sub_nz _ _ (not_eq_sym Hx)) as Nx'.
  unfold chord. cbv zeta. f_equal; field; nz.
Qed.

Lemma cadd_comm (P Q : cpoint K) : cadd P Q = cadd Q P.
Proof.
  destruct P as [| x1 y1], Q as [| x2 y2]; cbn [cadd copp on_curve]; trivial.
  destruct (feqb_spec x1 x2) as [Hx | Hx],
           (feqb_spec x2 x1) as [Hx' | Hx']; try congruence.
  - destruct (feqb_spec y1 y2) as [Hy | Hy],
             (feqb_spec y2 y1) as [Hy' | Hy']; congruence.
  - apply chord_comm. exact Hx.
Qed.

Lemma cadd_opp_r (P : cpoint K) : on_curve P -> cadd P (copp P) = Cinf.
Proof.
  destruct P as [| x y]; cbn [cadd copp on_curve]; trivial. intros E.
  rewrite feqb_refl.
  destruct (feqb_spec y (kopp y)) as [Hy | Hy]; [| reflexivity].
  exfalso. revert Hy. apply neq_opp. exact (no_two_torsion x y E).
Qed.

Lemma cadd_opp_l (P : cpoint K) : on_curve P -> cadd (copp P) P = Cinf.
Proof. intros E. rewrite cadd_comm. apply cadd_opp_r. exact E. Qed.

Lemma cadd_inf_inv (P Q : cpoint K) :
  on_curve P -> on_curve Q -> cadd P Q = Cinf -> Q = copp P.
Proof.
  destruct P as [| x1 y1], Q as [| x2 y2]; cbn [cadd copp on_curve]; try congruence.
  intros E1 E2.
  destruct (feqb_spec x1 x2) as [Hx | Hx]; [| discriminate].
  destruct (feqb_spec y1 y2) as [Hy | Hy]; [discriminate |]. intros _.
  subst x2. destruct (same_x x1 y1 y2 E1 E2) as [H | H]; congruence.
Qed.

Lemma copp_cadd (P Q : cpoint K) :
  on_curve P -> on_curve Q -> copp (cadd P Q) = cadd (copp P) (copp Q).
Proof.
  destruct P as [| x1 y1], Q as [| x2 y2]; cbn [cadd copp on_curve]; trivial. intros E1 E2.
  destruct (feqb_spec x1 x2) as [Hx | Hx].
  - destruct (feqb_spec y1 y2) as [Hy | Hy],
             (feqb_spec (kopp y1) (kopp y2)) as [Hy' | Hy'].
    + pose proof (no_two_torsion x1 y1 E1) as Ny. pose proof F2_nz as N2.
      pose proof (no_two_torsion x1 (kopp y1) (on_curve_opp (Cpt x1 y1) E1)) as Ny'.
      unfold tangent_double. cbv zeta. cbn [cadd copp on_curve]. f_equal; field; nz.
    + subst. congruence.
    + exfalso. apply Hy. transitivity (kopp (kopp y1)); [ring |].
      rewrite Hy'. ring.
    + reflexivity.
  - pose proof (sub_nz _ _ Hx) as Nx.
    unfold chord. cbv zeta. cbn [cadd copp on_curve]. f_equal; field; nz.
Qed.


(** *** Subtracting what was added *)

Lemma chord_sub (x1 y1 x2 y2 : K) :
  on_curve (Cpt x1 y1) -> on_curve (Cpt x2 y2) -> x1 <> x2 ->
  cadd (chord x1 y1 x2 y2) (copp (Cpt x2 y2)) = Cpt x1 y1.
Proof.
  intros E1 E2 Hx. pose proof (sub_nz _ _ Hx) as Nx. pose proof F2_nz as N2.
  pose proof (chord_on_curve x1 y1 x2 y2 E1 E2 Hx) as E4.
  revert E4. unfold chord. cbv zeta.
  set (l := ((y2 - y1) / (x2 - x1))%K).
  assert (Hl : (l * (x2 - x1))%K = (y2 - y1)%K) by (subst l; field; nz).
  destruct (chord_param x1 y1 x2 y2 l E1 E2 Hx Hl) as (Hy2 & HA & HB).
  clearbody l. intros E4. cbn [cadd copp].
  destruct (feqb_spec (l * l - x1 - x2)%K x2) as [Hx4 | Hx4].
  - assert (Hy4 : (l * (x1 - (l * l - x1 - x2)) - y1)%K = (kopp y2))
      by (rewrite Hx4, Hy2; ring).
    destruct (feqb_spec (l * (x1 - (l * l - x1 - x2)) - y1)%K (kopp y2))
      as [_ | Hn]; [| contradiction].
    pose proof (no_two_torsion _ _ E4) as Ny4.
    assert (Hx1 : x1 = (l * l - x2 - x2)%K).
    { transitivity ((l * l - x2 - x2) - ((l * l - x1 - x2) - x2))%K; [ring |].
      rewrite Hx4. ring. }
    clear Hx4 Hy4 E4 Hl E1 E2.
    unfold tangent_double. cbv zeta. rewrite HA.
    subst y2. subst x1. f_equal; field; nz.
  - pose proof (sub_nz _ _ Hx4) as Nx4. clear E4 Hl E1 E2.
    unfold chord. cbv zeta. subst y2. f_equal; field; nz.
Qed.

Lemma tangent_sub (x1 y1 : K) :
  on_curve (Cpt x1 y1) ->
  cadd (tangent_double x1 y1) (copp (Cpt x1 y1)) = Cpt x1 y1.
Proof.
  intros E1. pose proof (no_two_torsion _ _ E1) as Ny. pose proof F2_nz as N2.
  pose proof (tangent_on_curve x1 y1 E1) as E4.
  revert E4. unfold tangent_double at 1 2. cbv zeta.
  set (t := ((x1 * x1 * (2 + 1) + cA) / (y1 * 2))%K).
  assert (Ht : (t * (y1 * 2))%K = (x1 * x1 * (2 + 1) + cA)%K)
    by (subst t; field; nz).
  destruct (tangent_param x1 y1 t E1 Ht) as (HA & HB).
  clearbody t. intros E4. cbn [cadd copp].
  destruct (feqb_spec (t * t - x1 * 2)%K x1) as [Hx4 | Hx4].
  - assert (Hy4 : (t * (x1 - (t * t - x1 * 2)) - y1)%K = (kopp y1))
      by (rewrite Hx4; ring).
    destruct (feqb_spec (t * (x1 - (t * t - x1 * 2)) - y1)%K (kopp y1))
      as [_ | Hn]; [| contradiction].
    rewrite Hy4, Hx4. rewrite Hy4, Hx4 in E4.
    pose proof (no_two_torsion _ _ E4) as Ny4.
    unfold tangent_double. cbv zeta. rewrite HA.
    assert (Hs : ((x1 * x1 * (2 + 1) + (t * (y1 * 2) - x1 * x1 * (2 + 1)))
                  / (kopp y1 * 2))%K = (0 - t)%K) by (field; nz).
    rewrite Hs. f_equal.
    + transitivity (t * t - x1 * 2)%K; [ring | exact Hx4].
    + transitivity ((0 - t) * (x1 - (t * t - x1 * 2)) + y1)%K; [ring |].
      rewrite Hx4. ring.
  - pose proof (sub_nz _ _ Hx4) as Nx4. clear E4 Ht E1.
    unfold chord. cbv zeta. f_equal; field; nz.
Qed.

Lemma cadd_sub (P Q : cpoint K) :
  on_curve P -> on_curve Q -> cadd (cadd P Q) (copp Q) = P.
Proof.
  destruct P as [| x1 y1], Q as [| x2 y2]; intros E1 E2.
  - reflexivity.
  - apply cadd_opp_r. exact E2.
  - reflexivity.
  - cbn [cadd].
    destruct (feqb_spec x1 x2) as [Hx | Hx].
    + subst x2. destruct (feqb_spec y1 y2) as [Hy | Hy].
      * subst y2. apply tangent_sub. exact E1.
      * cbn [cadd copp]. destruct (same_x x1 y1 y2 E1 E2) as [H | H];
          [contradiction |]. subst y2. f_equal. ring.
    + apply chord_sub; assumption.
Qed.

(** Hence cancellation. *)
Lemma cadd_cancel_r (P Q R : cpoint K) :
  on_curve P -> on_curve Q -> on_curve R ->
  cadd P R = cadd Q R -> P = Q.
Proof.
  intros EP EQ ER H.
  rewrite <- (cadd_sub P R EP ER), H. apply cadd_sub; assumption.
Qed.

Lemma cadd_cancel_l (P Q R : cpoint K) :
  on_curve P -> on_curve Q -> on_curve R ->
  cadd R P = cadd R Q -> P = Q.
Proof.
  intros EP EQ ER H. rewrite !(cadd_comm R) in H.
  apply (cadd_cancel_r P Q R); assumption.
Qed.

(** *** Associativity: the four computations *)

(** Slope of a chord, slope of a tangent. *)
Lemma chord_slope (x1 y1 x2 y2 : K) :
  x1 <> x2 -> (((y2 - y1) / (x2 - x1)) * (x2 - x1))%K = (y2 - y1)%K.
Proof. intros Hx. pose proof (sub_nz _ _ Hx). field. assumption. Qed.

Lemma tangent_slope (x1 y1 : K) :
  y1 <> 0%K ->
  (((x1 * x1 * (2 + 1) + cA) / (y1 * 2)) * (y1 * 2))%K
  = (x1 * x1 * (2 + 1) + cA)%K.
Proof. intros Hy. pose proof F2_nz. field. nz. Qed.

Lemma solve_linear (u c e : K) : c <> 0%K -> (e - u * c)%K = 0%K -> u = (e / c)%K.
Proof.
  intros Hc H. transitivity ((e - (e - u * c)) / c)%K; [field; exact Hc |].
  rewrite H. field. exact Hc.
Qed.

(** Three chords on each side. *)
Lemma assoc_chords (x1 y1 x2 y2 x3 y3 x4 y4 x5 y5 : K) :
  on_curve (Cpt x1 y1) -> on_curve (Cpt x2 y2) -> on_curve (Cpt x3 y3) ->
  x1 <> x2 -> x2 <> x3 ->
  chord x1 y1 x2 y2 = Cpt x4 y4 -> chord x2 y2 x3 y3 = Cpt x5 y5 ->
  x4 <> x3 -> x1 <> x5 ->
  chord x4 y4 x3 y3 = chord x1 y1 x5 y5.
Proof.
  intros E1 E2 E3 H12 H23 HS HT H43 H15.
  pose proof F2_nz as N2.
  pose proof (chord_slope x1 y1 x2 y2 H12) as Hl.
  pose proof (chord_slope x2 y2 x3 y3 H23) as Hn.
  unfold chord in HS, HT. cbv zeta in HS, HT. revert HS HT.
  set (l := ((y2 - y1) / (x2 - x1))%K) in *.
  set (n := ((y3 - y2) / (x3 - x2))%K) in *.
  destruct (chord_param x1 y1 x2 y2 l E1 E2 H12 Hl) as (Hy2 & HA & _).
  destruct (chord_param x2 y2 x3 y3 n E2 E3 H23 Hn) as (Hy3 & HA' & _).
  clearbody l n. intros [= <- <-] [= <- <-].
  pose proof (sub_nz _ _ H43) as N43. pose proof (sub_nz _ _ H15) as N15.
  clear E1 E2 E3 Hl Hn. subst y3. subst y2.
  assert (H0 : ((l * l * (x2 - x1) - l * n * (x2 - x1) * 2 - n * n * (x3 - x2)
                 + (x2 * x3 + x3 * x3 - x1 * x1 - x1 * x2))
                - y1 * ((n - l) * 2))%K = 0%K).
  { transitivity (cA - cA)%K; [| ring]. rewrite HA at 1. rewrite HA'. ring. }
  clear HA HA'.
  destruct (feqb_spec n l) as [Hnl | Hnl].
  - subst n.
    assert (Hz : ((x1 - x3) * ((l * l - x1 - x2) - x3))%K = 0%K).
    { etransitivity; [| exact H0]. ring. }
    apply F_integral in Hz. destruct Hz as [Hz | Hz];
      [| exfalso; apply N43;
         transitivity (0 - ((l * l - x1 - x2) - x3))%K; [ring | rewrite Hz; ring]].
    assert (Hx3 : x3 = x1) by (transitivity (x1 - (x1 - x3))%K; [ring | rewrite Hz; ring]).
    subst x3. clear Hz H0 N43 N15.
    replace (y1 + l * (x2 - x1) + l * (x1 - x2))%K with y1 by ring.
    replace (l * l - x2 - x1)%K with (l * l - x1 - x2)%K by ring.
    replace (l * (x2 - (l * l - x1 - x2)) - (y1 + l * (x2 - x1)))%K
      with (l * (x1 - (l * l - x1 - x2)) - y1)%K by ring.
    apply chord_comm. exact H43.
  - pose proof (sub_nz _ _ (not_eq_sym Hnl)) as Nnl.
    apply solve_linear in H0; [| apply mul_nz; assumption].
    clear H12 H23 H43 H15 Hnl. subst y1.
    unfold chord. cbv zeta. f_equal; field; nz.
Qed.

(** A tangent first: [(P + P) + R = P + (P + R)]. *)
Lemma assoc_tangent_chord (x1 y1 x3 y3 x4 y4 x5 y5 : K) :
  on_curve (Cpt x1 y1) -> on_curve (Cpt x3 y3) -> x1 <> x3 ->
  tangent_double x1 y1 = Cpt x4 y4 -> chord x1 y1 x3 y3 = Cpt x5 y5 ->
  x4 <> x3 -> x1 <> x5 ->
  chord x4 y4 x3 y3 = chord x1 y1 x5 y5.
Proof.
  intros E1 E3 H13 HD HT H43 H15.
  pose proof F2_nz as N2. pose proof (no_two_torsion x1 y1 E1) as Ny1.
  pose proof (tangent_slope x1 y1 Ny1) as Ht.
  pose proof (chord_slope x1 y1 x3 y3 H13) as Hn.
  unfold tangent_double in HD. unfold chord in HT. cbv zeta in HD, HT.
  revert HD HT.
  set (t := ((x1 * x1 * (2 + 1) + cA) / (y1 * 2))%K) in *.
  set (n := ((y3 - y1) / (x3 - x1))%K) in *.
  destruct (tangent_param x1 y1 t E1 Ht) as (HA & _).
  destruct (chord_param x1 y1 x3 y3 n E1 E3 H13 Hn) as (Hy3 & HA' & _).
  clearbody t n. intros [= <- <-] [= <- <-].
  pose proof (sub_nz _ _ H43) as N43. pose proof (sub_nz _ _ H15) as N15.
  pose proof (sub_nz _ _ H13) as N13.
  clear E1 E3 Ht Hn. subst y3.
  assert (H0 : ((x3 - x1) * ((n * n - x1 - x3) - x1) - y1 * ((t - n) * 2))%K
               = 0%K).
  { transitivity (cA - cA)%K; [| ring]. rewrite HA' at 1. rewrite HA. ring. }
  clear HA HA'.
  destruct (feqb_spec t n) as [Htn | Htn].
  - exfalso. subst n.
    assert (Hz : ((x3 - x1) * ((t * t - x1 - x3) - x1))%K = 0%K).
    { etransitivity; [| exact H0]. ring. }
    apply F_integral in Hz. destruct Hz; contradiction.
  - pose proof (sub_nz _ _ (not_eq_sym Htn)) as Ntn.
    apply solve_linear in H0; [| apply mul_nz; assumption].
    clear H13 H43 H15 Htn Ny1. subst y1.
    unfold chord. cbv zeta. f_equal; field; nz.
Qed.

(** A tangent last: [(P + Q) + (P + Q) = P + (Q + (P + Q))]. *)
Lemma assoc_chord_tangent (x1 y1 x2 y2 x4 y4 x5 y5 : K) :
  on_curve (Cpt x1 y1) -> on_curve (Cpt x2 y2) -> x1 <> x2 ->
  chord x1 y1 x2 y2 = Cpt x4 y4 -> x2 <> x4 ->
  chord x2 y2 x4 y4 = Cpt x5 y5 -> x1 <> x5 ->
  tangent_double x4 y4 = chord x1 y1 x5 y5.
Proof.
  intros E1 E2 H12 HS H24 HT H15.
  pose proof F2_nz as N2.
  pose proof (chord_on_curve x1 y1 x2 y2 E1 E2 H12) as E4.
  rewrite HS in E4. pose proof (no_two_torsion x4 y4 E4) as Ny4.
  pose proof (chord_slope x1 y1 x2 y2 H12) as Hl.
  unfold chord in HS. cbv zeta in HS. revert HS.
  set (l := ((y2 - y1) / (x2 - x1))%K) in *.
  destruct (chord_param x1 y1 x2 y2 l E1 E2 H12 Hl) as (Hy2 & HA & _).
  clearbody l. intros [= Hx4 Hy4].
  unfold chord in HT. cbv zeta in HT. injection HT as Hx5 Hy5.
  pose proof (sub_nz _ _ H24) as N24. pose proof (sub_nz _ _ H15) as N15.
  clear E1 E2 E4 Hl H12 H24 H15.
  unfold tangent_double, chord. cbv zeta. rewrite HA. clear HA.
  subst x5 y5. subst x4 y4. subst y2.
  f_equal; field; nz.
Qed.

(** Tangents only: [(P + P) + (P + P) = P + (P + (P + P))]. *)
Lemma assoc_tangents (x1 y1 x4 y4 x5 y5 : K) :
  on_curve (Cpt x1 y1) ->
  tangent_double x1 y1 = Cpt x4 y4 -> x1 <> x4 ->
  chord x1 y1 x4 y4 = Cpt x5 y5 -> x1 <> x5 ->
  tangent_double x4 y4 = chord x1 y1 x5 y5.
Proof.
  intros E1 HD H14 HT H15.
  pose proof F2_nz as N2. pose proof (no_two_torsion x1 y1 E1) as Ny1.
  pose proof (tangent_on_curve x1 y1 E1) as E4.
  rewrite HD in E4. pose proof (no_two_torsion x4 y4 E4) as Ny4.
  pose proof (tangent_slope x1 y1 Ny1) as Ht.
  unfold tangent_double in HD. cbv zeta in HD. revert HD.
  set (t := ((x1 * x1 * (2 + 1) + cA) / (y1 * 2))%K) in *.
  destruct (tangent_param x1 y1 t E1 Ht) as (HA & _).
  clearbody t. intros [= Hx4 Hy4].
  unfold chord in HT. cbv zeta in HT. injection HT as Hx5 Hy5.
  pose proof (sub_nz _ _ H14) as N14. pose proof (sub_nz _ _ H15) as N15.
  clear E1 E4 Ht H14 H15.
  unfold tangent_double, chord. cbv zeta. rewrite HA. clear HA.
  subst x5 y5. subst x4 y4.
  f_equal; field; nz.
Qed.

(** *** Associativity *)

Lemma cadd_chord (x1 y1 x2 y2 : K) :
  x1 <> x2 -> cadd (Cpt x1 y1) (Cpt x2 y2) = chord x1 y1 x2 y2.
Proof.
  intros H. cbn [cadd]. destruct (feqb_spec x1 x2); [contradiction | reflexivity].
Qed.

Lemma cadd_same (x1 y1 : K) :
  cadd (Cpt x1 y1) (Cpt x1 y1) = tangent_double x1 y1.
Proof. cbn [cadd]. rewrite !feqb_refl. reflexivity. Qed.

Lemma chord_is_point (x1 y1 x2 y2 : K) :
  exists x y, chord x1 y1 x2 y2 = Cpt x y.
Proof. unfold chord. cbv zeta. eauto. Qed.

Lemma tangent_is_point (x1 y1 : K) :
  exists x y, tangent_double x1 y1 = Cpt x y.
Proof. unfold tangent_double. cbv zeta. eauto. Qed.

(** Two affine points of the curve lie apart, coincide or are opposite. *)
Lemma position (x1 y1 x2 y2 : K) :
  on_curve (Cpt x1 y1) -> on_curve (Cpt x2 y2) ->
  x1 <> x2 \/ (x1 = x2 /\ y1 = y2) \/ Cpt x2 y2 = copp (Cpt x1 y1).
Proof.
  intros E1 E2. destruct (feqb_spec x1 x2) as [Hx | Hx]; [| left; exact Hx].
  right. subst x2. destruct (same_x x1 y1 y2 E1 E2) as [H | H].
  - left. split; [reflexivity | exact H].
  - right. cbn [copp]. rewrite H. reflexivity.
Qed.

Lemma cadd_opp_cancel (P R : cpoint K) :
  on_curve P -> on_curve R -> cadd P (cadd (copp P) R) = R.
Proof.
  intros EP ER.
  rewrite (cadd_comm (copp P) R), (cadd_comm P).
  rewrite <- (copp_involutive P) at 2.
  apply cadd_sub; [exact ER | apply on_curve_opp; exact EP].
Qed.

(** When an outer sum is the point at infinity, so is the other. *)
Lemma assoc_inf_left (P Q : cpoint K) :
  on_curve P -> on_curve Q -> cadd P (cadd Q (copp (cadd P Q))) = Cinf.
Proof.
  intros EP EQ. rewrite copp_cadd by assumption.
  rewrite (cadd_comm Q).
  rewrite <- (copp_involutive Q) at 2.
  rewrite cadd_sub by (apply on_curve_opp; assumption).
  apply cadd_opp_r. exact EP.
Qed.

Lemma assoc_inf_right (Q R : cpoint K) :
  on_curve Q -> on_curve R -> cadd (cadd (copp (cadd Q R)) Q) R = Cinf.
Proof.
  intros EQ ER. rewrite copp_cadd by assumption.
  rewrite (cadd_comm (copp Q)).
  rewrite <- (copp_involutive Q) at 2.
  rewrite cadd_sub by (apply on_curve_opp; assumption).
  apply cadd_opp_l. exact ER.
Qed.

Theorem cadd_assoc (P Q R : cpoint K) :
  on_curve P -> on_curve Q -> on_curve R ->
  cadd (cadd P Q) R = cadd P (cadd Q R).
Proof.
  intros EP EQ ER.
  destruct P as [| x1 y1]; [reflexivity |].
  destruct Q as [| x2 y2]; [reflexivity |].
  destruct R as [| x3 y3]; [rewrite !cadd_inf_r; reflexivity |].
  pose proof (no_two_torsion x2 y2 EQ) as Ny2.
  destruct (position x1 y1 x2 y2 EP EQ) as [H12 | [[-> ->] | HQ]];
    [| | rewrite HQ, cadd_opp_r, cadd_opp_cancel by assumption; reflexivity];
    (destruct (position x2 y2 x3 y3 EQ ER) as [H23 | [[<- <-] | HR]];
     [| | rewrite HR, cadd_opp_r, cadd_inf_r by assumption;
          apply cadd_sub; assumption]).
  - (* P and Q apart, Q and R apart *)
    destruct (chord_is_point x1 y1 x2 y2) as (x4 & y4 & HS).
    destruct (chord_is_point x2 y2 x3 y3) as (x5 & y5 & HT).
    pose proof (chord_on_curve x1 y1 x2 y2 EP EQ H12) as E4. rewrite HS in E4.
    pose proof (chord_on_curve x2 y2 x3 y3 EQ ER H23) as E5. rewrite HT in E5.
    rewrite (cadd_chord x1 y1 x2 y2 H12), (cadd_chord x2 y2 x3 y3 H23), HS, HT.
    destruct (position x4 y4 x3 y3 E4 ER) as [H43 | [[Ex3 Ey3] | HR]];
      [| | rewrite HR, cadd_opp_r by assumption; symmetry;
           rewrite <- HT, <- (cadd_chord x2 y2 x3 y3 H23), HR, <- HS,
             <- (cadd_chord x1 y1 x2 y2 H12);
           apply assoc_inf_left; assumption];
      (destruct (position x1 y1 x5 y5 EP E5) as [H15 | [[Ex5 Ey5] | HP]];
       [| | rewrite HP, cadd_opp_r by assumption;
            rewrite <- HS, <- (cadd_chord x1 y1 x2 y2 H12);
            rewrite <- (copp_involutive (Cpt x1 y1)), <- HP, <- HT,
              <- (cadd_chord x2 y2 x3 y3 H23);
            apply assoc_inf_right; assumption]).
    + rewrite (cadd_chord x4 y4 x3 y3 H43), (cadd_chord x1 y1 x5 y5 H15).
      exact (assoc_chords x1 y1 x2 y2 x3 y3 x4 y4 x5 y5
               EP EQ ER H12 H23 HS HT H43 H15).
    + (* Q + R = P *)
      subst x5 y5.
      rewrite (cadd_chord x4 y4 x3 y3 H43), cadd_same.
      rewrite (chord_comm x4 y4 x3 y3 H43).
      rewrite (chord_comm x2 y2 x3 y3 H23) in HT.
      rewrite (chord_comm x1 y1 x2 y2 H12) in HS.
      symmetry.
      exact (assoc_chord_tangent x3 y3 x2 y2 x1 y1 x4 y4
               ER EQ (not_eq_sym H23) HT (not_eq_sym H12) HS (not_eq_sym H43)).
    + (* P + Q = R *)
      subst x3 y3.
      rewrite cadd_same, (cadd_chord x1 y1 x5 y5 H15).
      exact (assoc_chord_tangent x1 y1 x2 y2 x4 y4 x5 y5
               EP EQ H12 HS H23 HT H15).
    + (* P + Q = R and Q + R = P *)
      subst x3 y3. subst x5 y5.
      exfalso. apply (neq_opp y2 Ny2).
      assert (Hc : cadd (Cpt x4 y4) (copp (Cpt x2 y2))
                   = cadd (Cpt x4 y4) (Cpt x2 y2)).
      { rewrite <- HS at 1. rewrite <- (cadd_chord x1 y1 x2 y2 H12).
        rewrite cadd_sub by assumption.
        rewrite (cadd_comm (Cpt x4 y4)), (cadd_chord x2 y2 x4 y4 H23).
        symmetry. exact HT. }
      apply cadd_cancel_l in Hc;
        [| apply (on_curve_opp (Cpt x2 y2)); assumption | assumption | assumption].
      cbn [copp] in Hc. congruence.
  - (* P and Q apart, Q = R *)
    destruct (chord_is_point x1 y1 x2 y2) as (x4 & y4 & HS).
    destruct (tangent_is_point x2 y2) as (x5 & y5 & HT).
    pose proof (chord_on_curve x1 y1 x2 y2 EP EQ H12) as E4. rewrite HS in E4.
    pose proof (tangent_on_curve x2 y2 EQ) as E5. rewrite HT in E5.
    rewrite (cadd_chord x1 y1 x2 y2 H12), cadd_same, HS, HT.
    destruct (position x4 y4 x2 y2 E4 EQ) as [H42 | [[-> ->] | HR]].
    + destruct (position x1 y1 x5 y5 EP E5) as [H15 | [[<- <-] | HP]].
      * rewrite (cadd_chord x4 y4 x2 y2 H42), (cadd_chord x1 y1 x5 y5 H15).
        rewrite (chord_comm x4 y4 x2 y2 H42), (chord_comm x1 y1 x5 y5 H15).
        rewrite (chord_comm x1 y1 x2 y2 H12) in HS.
        symmetry.
        exact (assoc_tangent_chord x2 y2 x1 y1 x5 y5 x4 y4
                 EQ EP (not_eq_sym H12) HT HS (not_eq_sym H15) (not_eq_sym H42)).
      * rewrite (cadd_chord x4 y4 x2 y2 H42), cadd_same.
        rewrite (chord_comm x4 y4 x2 y2 H42).
        rewrite (chord_comm x1 y1 x2 y2 H12) in HS.
        symmetry.
        exact (assoc_tangents x2 y2 x1 y1 x4 y4
                 EQ HT (not_eq_sym H12) HS (not_eq_sym H42)).
      * rewrite HP, cadd_opp_r by assumption.
        rewrite <- HS, <- (cadd_chord x1 y1 x2 y2 H12).
        rewrite <- (copp_involutive (Cpt x1 y1)), <- HP, <- HT, <- cadd_same.
        apply assoc_inf_right; assumption.
    + (* P + Q = Q *)
      exfalso.
      assert (Hc : cadd (Cpt x1 y1) (Cpt x2 y2) = cadd Cinf (Cpt x2 y2))
        by (rewrite (cadd_chord x1 y1 x2 y2 H12); exact HS).
      apply cadd_cancel_r in Hc; [discriminate | assumption | exact I | assumption].
    + rewrite HR, cadd_opp_r by assumption. symmetry.
      rewrite <- HT, <- cadd_same. rewrite HR at 2.
      rewrite <- HS, <- (cadd_chord x1 y1 x2 y2 H12).
      apply assoc_inf_left; assumption.
  - (* P = Q, Q and R apart *)
    destruct (tangent_is_point x2 y2) as (x4 & y4 & HS).
    destruct (chord_is_point x2 y2 x3 y3) as (x5 & y5 & HT).
    pose proof (tangent_on_curve x2 y2 EQ) as E4. rewrite HS in E4.
    pose proof (chord_on_curve x2 y2 x3 y3 EQ ER H23) as E5. rewrite HT in E5.
    rewrite cadd_same, (cadd_chord x2 y2 x3 y3 H23), HS, HT.
    destruct (position x2 y2 x5 y5 EQ E5) as [H15 | [[<- <-] | HP]].
    + destruct (position x4 y4 x3 y3 E4 ER) as [H43 | [[<- <-] | HR]].
      * rewrite (cadd_chord x4 y4 x3 y3 H43), (cadd_chord x2 y2 x5 y5 H15).
        exact (assoc_tangent_chord x2 y2 x3 y3 x4 y4 x5 y5
                 EQ ER H23 HS HT H43 H15).
      * rewrite cadd_same, (cadd_chord x2 y2 x5 y5 H15).
        exact (assoc_tangents x2 y2 x4 y4 x5 y5 EQ HS H23 HT H15).
      * rewrite HR, cadd_opp_r by assumption. symmetry.
        rewrite <- HT, <- (cadd_chord x2 y2 x3 y3 H23), HR, <- HS, <- cadd_same.
        apply assoc_inf_left; assumption.
    + (* P + R = P *)
      exfalso.
      assert (Hc : cadd (Cpt x2 y2) (Cpt x3 y3) = cadd (Cpt x2 y2) Cinf)
        by (rewrite (cadd_chord x2 y2 x3 y3 H23); exact HT).
      apply cadd_cancel_l in Hc; [discriminate | assumption | exact I | assumption].
    + rewrite HP, cadd_opp_r by assumption.
      rewrite <- HS, <- cadd_same.
      rewrite <- (copp_involutive (Cpt x2 y2)) at 1.
      rewrite <- HP, <- HT, <- (cadd_chord x2 y2 x3 y3 H23).
      apply assoc_inf_right; assumption.
  - (* P = Q = R *)
    apply cadd_comm.
Qed.

(** *** Multiples *)

Lemma cmul_on_curve (k : nat) (P : cpoint K) : on_curve P -> on_curve (cmul k P).
Proof.
  intros EP. induction k as [| k IH]; [exact I |].
  cbn [cmul]. apply cadd_on_curve; assumption.
Qed.

Lemma cmul_add (j k : nat) (P : cpoint K) :
  on_curve P -> cmul (j + k) P = cadd (cmul j P) (cmul k P).
Proof.
  intros EP. induction j as [| j IH]; [reflexivity |].
  cbn [cmul Nat.add]. rewrite IH.
  symmetry. apply cadd_assoc; try assumption; apply cmul_on_curve; assumption.
Qed.

Lemma cmul_1 (P : cpoint K) : cmul 1 P = P.
Proof. cbn [cmul]. apply cadd_inf_r. Qed.

Lemma cmul_twice (k : nat) (P : cpoint K) :
  on_curve P -> cmul k (cadd P P) = cmul (2 * k) P.
Proof.
  intros EP. induction k as [| k IH]; [reflexivity |].
  replace (2 * S k)%nat with (2 + 2 * k)%nat by lia.
  rewrite (cmul_add 2 (2 * k) P EP), <- IH.
  cbn [cmul]. rewrite cadd_inf_r. reflexivity.
Qed.

(** The step of the binary method: the lowest digit of [m], then the
    remaining digits on the doubled point. *)
Lemma cmul_binary (m : Z) (P : cpoint K) :
  on_curve P -> 0 < m ->
  cmul (Z.to_nat m) P
  = cadd (if Z.odd m then P else Cinf)
         (cmul (Z.to_nat (Z.shiftr m 1)) (cadd P P)).
Proof.
  intros EP Hm. rewrite Z.shiftr_div_pow2 by lia. change (2 ^ 1) with 2.
  rewrite (cmul_twice _ P EP).
  pose proof (Z.div_mod m 2 ltac:(lia)) as Hdm.
  pose proof (Zmod_odd m) as Hodd.
  assert (Hq : 0 <= m / 2) by (apply Z.div_pos; lia).
  destruct (Z.odd m).
  - replace (Z.to_nat m) with (1 + 2 * Z.to_nat (m / 2))%nat by lia.
    rewrite (cmul_add 1 _ P EP), cmul_1. reflexivity.
  - replace (Z.to_nat m) with (2 * Z.to_nat (m / 2))%nat by lia.
    reflexivity.
Qed.

(** *** The Jacobian formulas

    A triple [(X, Y, Z)] with [Z <> 0] stands for the affine point
    [(X / Z^2, Y / Z^3)]. *)

Lemma on_curve_horner (x y : K) :
  (y * y = (x * x + cA) * x + cB)%K -> on_curve (Cpt x y).
Proof. intros H. cbn [on_curve]. rewrite H. ring. Qed.

Lemma jac_same_x (X1 Z1 X2 Z2 : K) :
  Z1 <> 0%K -> Z2 <> 0%K ->
  (X1 / (Z1 * Z1) = X2 / (Z2 * Z2) <-> X1 * (Z2 * Z2) = X2 * (Z1 * Z1))%K.
Proof.
  intros N1 N2. split; intros H.
  - transitivity ((X1 / (Z1 * Z1)) * ((Z1 * Z1) * (Z2 * Z2)))%K; [field; nz |].
    rewrite H. field; nz.
  - transitivity ((X1 * (Z2 * Z2)) / ((Z1 * Z1) * (Z2 * Z2)))%K; [field; nz |].
    rewrite H. field; nz.
Qed.

Lemma jac_same_y (Y1 Z1 Y2 Z2 : K) :
  Z1 <> 0%K -> Z2 <> 0%K ->
  (Y1 / (Z1 * Z1 * Z1) = Y2 / (Z2 * Z2 * Z2)
   <-> Y1 * (Z2 * Z2) * Z2 = Y2 * (Z1 * Z1) * Z1)%K.
Proof.
  intros N1 N2. split; intros H.
  - transitivity ((Y1 / (Z1 * Z1 * Z1)) * ((Z1 * Z1 * Z1) * (Z2 * Z2 * Z2)))%K;
      [field; nz |].
    rewrite H. field; nz.
  - transitivity ((Y1 * (Z2 * Z2) * Z2) / ((Z1 * Z1 * Z1) * (Z2 * Z2 * Z2)))%K;
      [field; nz |].
    rewrite H. field; nz.
Qed.

Lemma jac_chord (X1 Y1 Z1 X2 Y2 Z2 : K) :
  Z1 <> 0%K -> Z2 <> 0%K ->
  let xs1 := (X1 * (Z2 * Z2))%K in
  let xs2 := (X2 * (Z1 * Z1))%K in
  let ys1 := (Y1 * (Z2 * Z2) * Z2)%K in
  let ys2 := (Y2 * (Z1 * Z1) * Z1)%K in
  xs1 <> xs2 ->
  let xd := (xs2 - xs1)%K in
  let yd := (ys2 - ys1)%K in
  let xd2 := (xd * xd)%K in
  let xd3 := (xd2 * xd)%K in
  let x := (yd * yd - xd3 - xs1 * xd2 * 2)%K in
  let y := (yd * (xs1 * xd2 - x) - ys1 * xd3)%K in
  let z := (xd * Z1 * Z2)%K in
  chord (X1 / (Z1 * Z1))%K (Y1 / (Z1 * Z1 * Z1))%K
        (X2 / (Z2 * Z2))%K (Y2 / (Z2 * Z2 * Z2))%K
  = Cpt (x / (z * z))%K (y / (z * z * z))%K.
Proof.
  intros N1 N2 xs1 xs2 ys1 ys2 Hxs xd yd xd2 xd3 x y z.
  pose proof (sub_nz _ _ Hxs) as Nxd. pose proof F2_nz as N2'.
  subst z y x xd3 xd2 yd xd ys2 ys1 xs2 xs1.
  unfold chord. cbv zeta. f_equal; field; nz.
Qed.

Lemma jac_tangent (X Y Z : K) :
  Y <> 0%K -> Z <> 0%K ->
  let S := (X * Y * Y * (2 * 2))%K in
  let M := (X * X * (2 + 1) + cA * (Z * Z * (Z * Z)))%K in
  let x' := (M * M - S * 2)%K in
  let y' := (M * (S - x') - Y * Y * (Y * Y) * (2 * 2 * 2))%K in
  let z' := (Z * Y * 2)%K in
  tangent_double (X / (Z * Z))%K (Y / (Z * Z * Z))%K
  = Cpt (x' / (z' * z'))%K (y' / (z' * z' * z'))%K.
Proof.
  intros NY NZ S M x' y' z'. pose proof F2_nz as N2.
  subst z' y' x' M S.
  unfold tangent_double. cbv zeta. f_equal; field; nz.
Qed.

End GroupLaw.

Section JacobianGroup.

Variable this : ECcurve.
Hypothesis Hprime : Z.prime this.(ECcurve.p).
Hypothesis Hodd : 2 < this.(ECcurve.p).
Hypothesis Hno2 : no_point_of_order_two this.

Abbreviation Fp := (Zmod this.(ECcurve.p)).
Abbreviation cA := (phi this this.(ECcurve.a)).
Abbreviation cB := (phi this this.(ECcurve.b)).

Lemma Fp_theory :
  @field_theory Fp Zmod.zero Zmod.one Zmod.add Zmod.mul Zmod.sub Zmod.opp
    Zmod.mdiv Zmod.inv eq.
Proof. exact (Zmod.field_theory this.(ECcurve.p) Hprime). Qed.

Lemma Fp_eqb_spec (u v : Fp) : BoolSpec (u = v) (u <> v) (Zmod.eqb u v).
Proof. exact (Zmod.eqb_spec u v). Qed.

Lemma Fp_two : (2%F : Fp) <> 0%F.
Proof. exact (two_nonzero this Hprime Hodd). Qed.

Lemma Fp_no_two_torsion (u v : Fp) : curve_on this (Cpt u v) -> v <> 0%F.
Proof.
  unfold curve_on. cbn [on_curve]. intros E Hv. subst v.
  pose proof (prime_pos this Hprime) as Hp.
  apply (Hno2 (Zmod.to_Z u)); [apply Zmod.unsigned_pos_bound; exact Hp |].
  apply (phi_zero_iff this Hprime).
  rewrite !(phi_add this), !(phi_mul this). unfold phi at 1 2 3 5.
  rewrite !Zmod.of_Z_unsigned. fold (phi this (ECcurve.a this)).
  fold (phi this (ECcurve.b this)). rewrite <- E. apply Zmod.mul_0_r.
Qed.

Ltac group_hyp :=
  first [ exact Fp_theory | exact Fp_eqb_spec | exact Fp_two
        | exact Fp_no_two_torsion | assumption ].

Lemma curve_add_on (P Q : cpoint Fp) :
  curve_on this P -> curve_on this Q -> curve_on this (curve_add this P Q).
Proof. intros EP EQ. unfold curve_on, curve_add. eapply cadd_on_curve; group_hyp. Qed.

Lemma curve_add_assoc (P Q R : cpoint Fp) :
  curve_on this P -> curve_on this Q -> curve_on this R ->
  curve_add this (curve_add this P Q) R = curve_add this P (curve_add this Q R).
Proof. intros EP EQ ER. unfold curve_add. eapply cadd_assoc; group_hyp. Qed.

Lemma curve_mul_on (k : nat) (P : cpoint Fp) :
  curve_on this P -> curve_on this (curve_mul this k P).
Proof. intros EP. unfold curve_on, curve_mul. eapply cmul_on_curve; group_hyp. Qed.

Lemma curve_mul_add (j k : nat) (P : cpoint Fp) :
  curve_on this P ->
  curve_mul this (j + k) P = curve_add this (curve_mul this j P) (curve_mul this k P).
Proof. intros EP. unfold curve_mul, curve_add. eapply cmul_add; group_hyp. Qed.

Lemma curve_mul_binary (m : Z) (P : cpoint Fp) :
  curve_on this P -> 0 < m ->
  curve_mul this (Z.to_nat m) P
  = curve_add this (if Z.odd m then P else Cinf)
      (curve_mul this (Z.to_nat (Z.shiftr m 1)) (curve_add this P P)).
Proof. intros EP Hm. unfold curve_mul, curve_add. eapply cmul_binary; group_hyp. Qed.

(** *** Well-formed points *)

Lemma is_identity_identity : is_identity this (identity this) = true.
Proof. unfold is_identity, identity, BigInt.equals. cbn [ECpoint.x]. apply Z.eqb_refl. Qed.

Lemma on_the_curve_identity : on_the_curve this (identity this).
Proof. split; [reflexivity | left; apply is_identity_identity]. Qed.

Lemma interp_identity (Q : ECpoint) : is_identity this Q = true -> interp this Q = Cinf.
Proof. intros H. unfold interp. rewrite H. reflexivity. Qed.

Lemma interp_finite (Q : ECpoint) :
  is_identity this Q = false ->
  interp this Q
  = Cpt (phi this Q.(ECpoint.x) / (phi this Q.(ECpoint.z) * phi this Q.(ECpoint.z)))%F
        (phi this Q.(ECpoint.y)
         / (phi this Q.(ECpoint.z) * phi this Q.(ECpoint.z) * phi this Q.(ECpoint.z)))%F.
Proof. intros H. unfold interp. rewrite H. reflexivity. Qed.

Lemma canonical_finite (Q : ECpoint) : canonical this Q -> is_identity this Q = false.
Proof.
  intros (Hx & _). unfold is_identity, BigInt.equals. apply Z.eqb_neq. lia.
Qed.

Lemma interp_on (Q : ECpoint) : on_the_curve this Q -> curve_on this (interp this Q).
Proof.
  intros (_ & [Hid | (_ & _ & E)]); [rewrite interp_identity by exact Hid; exact I | exact E].
Qed.

Lemma phi_z_nonzero (Q : ECpoint) :
  canonical this Q -> Q.(ECpoint.z) <> 0 -> phi this Q.(ECpoint.z) <> 0%F.
Proof. intros (_ & _ & Hz) Hnz. apply (phi_nonzero this Hprime). lia. Qed.

Lemma div_zero_iff (u v : Fp) : v <> 0%F -> (u / v)%F = 0%F -> u = 0%F.
Proof.
  intros Hv H. unfold Zmod.mdiv in H.
  apply Zmod.mul_0_iff_prime in H; [| exact Hprime].
  destruct H as [H | H]; [exact H |].
  exfalso. revert H. apply Zmod.inv_nz_prime; assumption.
Qed.

Lemma Fp_mul_nz (u v : Fp) : u <> 0%F -> v <> 0%F -> (u * v)%F <> 0%F.
Proof. intros Hu Hv H. apply Zmod.mul_0_iff_prime in H; [tauto | exact Hprime]. Qed.

(** *** [double] is the doubling of the group *)

Lemma double_correct (Q : ECpoint) :
  on_the_curve this Q ->
  on_the_curve this (double this Q) /\
  interp this (double this Q) = curve_add this (interp this Q) (interp this Q).
Proof.
  intros HQ. pose proof (interp_on Q HQ) as EQ.
  destruct HQ as (Hc & [Hid | (Hcan & Hz & E)]).
  - assert (Hd : double this Q = Q)
      by (unfold double; unfold is_identity in Hid; rewrite Hid; reflexivity).
    rewrite Hd. split; [split; [exact Hc | left; exact Hid] |].
    rewrite interp_identity by exact Hid. reflexivity.
  - pose proof (prime_pos this Hprime) as Hp.
    pose proof (canonical_finite Q Hcan) as Hid.
    pose proof (double_canonical this Q Hp Hcan) as Hcan'.
    pose proof (canonical_finite _ Hcan') as Hid'.
    pose proof (phi_z_nonzero Q Hcan Hz) as Nz.
    destruct (phi_double this Hprime Q Hid) as (Ex & Ey & Ez). cbv zeta in Ex, Ey, Ez.
    assert (Ny : phi this Q.(ECpoint.y) <> 0%F).
    { rewrite interp_finite in E by exact Hid.
      pose proof (Fp_no_two_torsion _ _ E) as Ny. intros H. apply Ny.
      rewrite H. apply Zmod.mul_0_l. }
    assert (Hint : interp this (double this Q)
                   = curve_add this (interp this Q) (interp this Q)).
    { rewrite (interp_finite _ Hid'), (interp_finite _ Hid), Ex, Ey, Ez.
      unfold curve_add. erewrite cadd_same by exact Fp_eqb_spec.
      symmetry. eapply jac_tangent; group_hyp. }
    split; [| exact Hint].
    split; [unfold double; unfold is_identity in Hid; rewrite Hid; reflexivity |].
    right. split; [exact Hcan' |]. split.
    + intros H0. assert (Hz0 : phi this (double this Q).(ECpoint.z) = 0%F)
        by (rewrite H0; apply Zmod.of_Z_0).
      rewrite Ez in Hz0. revert Hz0.
      apply Fp_mul_nz; [apply Fp_mul_nz; assumption | exact (two_nonzero this Hprime Hodd)].
    + rewrite Hint. apply curve_add_on; assumption.
Qed.

(** *** [add] is the addition of the group *)

Lemma Fp_same_x (X1 Z1 X2 Z2 : Fp) :
  Z1 <> 0%F -> Z2 <> 0%F ->
  (X1 / (Z1 * Z1) = X2 / (Z2 * Z2) <-> X1 * (Z2 * Z2) = X2 * (Z1 * Z1))%F.
Proof. intros N1 N2. eapply jac_same_x; group_hyp. Qed.

Lemma Fp_same_y (Y1 Z1 Y2 Z2 : Fp) :
  Z1 <> 0%F -> Z2 <> 0%F ->
  (Y1 / (Z1 * Z1 * Z1) = Y2 / (Z2 * Z2 * Z2)
   <-> Y1 * (Z2 * Z2) * Z2 = Y2 * (Z1 * Z1) * Z1)%F.
Proof. intros N1 N2. eapply jac_same_y; group_hyp. Qed.

Ltac phi_push :=
  repeat (rewrite ?(phi_renorm this Hprime), ?(phi_mod this Hprime), ?(phi_add this),
            ?(phi_sub this), ?(phi_mul this), ?(phi_2 this)).

Lemma phi_neq (v w : Z) :
  0 <= v < this.(ECcurve.p) -> 0 <= w < this.(ECcurve.p) ->
  v <> w -> phi this v <> phi this w.
Proof. intros Hv Hw Hne H. apply Hne. exact (phi_inj this v w Hv Hw H). Qed.

Lemma add_correct (Q1 Q2 : ECpoint) :
  on_the_curve this Q1 -> on_the_curve this Q2 ->
  on_the_curve this (add this Q1 Q2) /\
  interp this (add this Q1 Q2) = curve_add this (interp this Q1) (interp this Q2).
Proof.
  intros H1 H2.
  pose proof (interp_on Q1 H1) as E1. pose proof (interp_on Q2 H2) as E2.
  pose proof (prime_pos this Hprime) as Hp.
  destruct H1 as (Hc1 & [Hid1 | (Hcan1 & Hz1 & _)]).
  { assert (Ha : add this Q1 Q2 = Q2)
      by (unfold add; unfold is_identity in Hid1; rewrite Hid1; reflexivity).
    rewrite Ha, (interp_identity Q1 Hid1). split; [exact H2 | reflexivity]. }
  pose proof (canonical_finite Q1 Hcan1) as Hid1.
  destruct H2 as (Hc2 & [Hid2 | (Hcan2 & Hz2 & _)]).
  { assert (Ha : add this Q1 Q2 = Q1)
      by (unfold add; unfold is_identity in Hid1, Hid2; rewrite Hid1, Hid2; reflexivity).
    rewrite Ha, (interp_identity Q2 Hid2). unfold curve_add. rewrite cadd_inf_r.
    split; [| reflexivity].
    split; [exact Hc1 | right; repeat split; try assumption; apply Hcan1]. }
  pose proof (canonical_finite Q2 Hcan2) as Hid2.
  pose proof (phi_z_nonzero Q1 Hcan1 Hz1) as Nz1.
  pose proof (phi_z_nonzero Q2 Hcan2 Hz2) as Nz2.
  assert (HQ1 : on_the_curve this Q1)
    by (split; [exact Hc1 | right; rewrite (interp_finite Q1 Hid1) in E1; 
        split; [exact Hcan1 | split; [exact Hz1 | rewrite (interp_finite Q1 Hid1); exact E1]]]).
  rewrite (interp_finite Q1 Hid1) in *. rewrite (interp_finite Q2 Hid2) in *.
  destruct Hcan1 as (Hx1 & Hy1 & Hr1). destruct Hcan2 as (Hx2 & Hy2 & Hr2).
  set (x1 := Q1.(ECpoint.x)) in *. set (y1 := Q1.(ECpoint.y)) in *.
  set (z1 := Q1.(ECpoint.z)) in *.
  set (x2 := Q2.(ECpoint.x)) in *. set (y2 := Q2.(ECpoint.y)) in *.
  set (z2 := Q2.(ECpoint.z)) in *.
  pose (p := this.(ECcurve.p)).
  set (xs1 := BigInt.mod_ (x1 * (z2 * z2)) p).
  set (xs2 := BigInt.mod_ (x2 * (z1 * z1)) p).
  set (ys1 := BigInt.mod_ (y1 * (z2 * z2) * z2) p).
  set (ys2 := BigInt.mod_ (y2 * (z1 * z1) * z1) p).
  set (xd0 := BigInt.mod_ (xs2 - xs1) p).
  set (xd := if BigInt.sign xd0 then xd0 + p else xd0).
  set (yd0 := BigInt.mod_ (ys2 - ys1) p).
  set (yd := if BigInt.sign yd0 then yd0 + p else yd0).
  set (xd2 := BigInt.mod_ (xd * xd) p).
  set (xd3 := BigInt.mod_ (xd2 * xd) p).
  set (x0 := BigInt.mod_ (yd * yd - xd3 - xs1 * xd2 * 2) p).
  set (x := if BigInt.sign x0 then x0 + p else x0).
  set (y0 := BigInt.mod_ (yd * (xs1 * xd2 - x) - ys1 * xd3) p).
  set (y := if BigInt.sign y0 then y0 + p else y0).
  set (z := BigInt.mod_ (xd * z1 * z2) p).
  assert (Hadd : add this Q1 Q2
                 = if BigInt.equals xs1 xs2
                   then if BigInt.equals ys1 ys2 then double this Q1 else identity this
                   else ECpoint.mk this x y z).
  { unfold add. unfold is_identity in Hid1, Hid2. rewrite Hid1, Hid2. reflexivity. }
  assert (Dxd : xd = renorm (xs2 - xs1) p) by reflexivity.
  assert (Dyd : yd = renorm (ys2 - ys1) p) by reflexivity.
  assert (Dx : x = renorm (yd * yd - xd3 - xs1 * xd2 * 2) p) by reflexivity.
  assert (Dy : y = renorm (yd * (xs1 * xd2 - x) - ys1 * xd3) p) by reflexivity.
  assert (Rxs1 : 0 <= xs1 < p) by (apply mod_nonneg_range; [nia | exact Hp]).
  assert (Rxs2 : 0 <= xs2 < p) by (apply mod_nonneg_range; [nia | exact Hp]).
  assert (Rys1 : 0 <= ys1 < p)
    by (apply mod_nonneg_range; [apply Z.mul_nonneg_nonneg; nia | exact Hp]).
  assert (Rys2 : 0 <= ys2 < p)
    by (apply mod_nonneg_range; [apply Z.mul_nonneg_nonneg; nia | exact Hp]).
  assert (Rxd : 0 <= xd < p) by (rewrite Dxd; apply renorm_range; exact Hp).
  assert (Rx : 0 <= x < p) by (rewrite Dx; apply renorm_range; exact Hp).
  assert (Ry : 0 <= y < p) by (rewrite Dy; apply renorm_range; exact Hp).
  assert (Rz : 0 <= z < p)
    by (apply mod_nonneg_range; [apply Z.mul_nonneg_nonneg; nia | exact Hp]).
  set (vx1 := phi this x1) in *. set (vy1 := phi this y1) in *.
  set (vz1 := phi this z1) in *.
  set (vx2 := phi this x2) in *. set (vy2 := phi this y2) in *.
  set (vz2 := phi this z2) in *.
  assert (Pxs1 : phi this xs1 = (vx1 * (vz2 * vz2))%F)
    by (subst xs1 p; phi_push; reflexivity).
  assert (Pxs2 : phi this xs2 = (vx2 * (vz1 * vz1))%F)
    by (subst xs2 p; phi_push; reflexivity).
  assert (Pys1 : phi this ys1 = (vy1 * (vz2 * vz2) * vz2)%F)
    by (subst ys1 p; phi_push; reflexivity).
  assert (Pys2 : phi this ys2 = (vy2 * (vz1 * vz1) * vz1)%F)
    by (subst ys2 p; phi_push; reflexivity).
  assert (Pxd : phi this xd = (phi this xs2 - phi this xs1)%F)
    by (rewrite Dxd; subst p; phi_push; reflexivity).
  assert (Pyd : phi this yd = (phi this ys2 - phi this ys1)%F)
    by (rewrite Dyd; subst p; phi_push; reflexivity).
  assert (Pxd2 : phi this xd2 = (phi this xd * phi this xd)%F)
    by (subst xd2 p; phi_push; reflexivity).
  assert (Pxd3 : phi this xd3 = (phi this xd2 * phi this xd)%F)
    by (subst xd3 p; phi_push; reflexivity).
  assert (Px : phi this x
               = (phi this yd * phi this yd - phi this xd3
                  - phi this xs1 * phi this xd2 * 2)%F)
    by (rewrite Dx; subst p; phi_push; reflexivity).
  assert (Py : phi this y
               = (phi this yd * (phi this xs1 * phi this xd2 - phi this x)
                  - phi this ys1 * phi this xd3)%F)
    by (rewrite Dy; subst p; phi_push; reflexivity).
  assert (Pz : phi this z = (phi this xd * vz1 * vz2)%F)
    by (subst z p; phi_push; reflexivity).
  clear Dxd Dyd Dx Dy. clearbody xs1 xs2 ys1 ys2 xd yd xd2 xd3 x y z.
  clear xd0 yd0 x0 y0.
  unfold BigInt.equals in Hadd.
  destruct (Z.eqb_spec xs1 xs2) as [Exs | Exs].
  - assert (Ex : (vx1 / (vz1 * vz1))%F = (vx2 / (vz2 * vz2))%F).
    { apply (Fp_same_x _ _ _ _ Nz1 Nz2).
      rewrite <- Pxs1, <- Pxs2, Exs. reflexivity. }
    destruct (Z.eqb_spec ys1 ys2) as [Eys | Eys].
    + assert (Ey : (vy1 / (vz1 * vz1 * vz1))%F = (vy2 / (vz2 * vz2 * vz2))%F).
      { apply (Fp_same_y _ _ _ _ Nz1 Nz2).
        rewrite <- Pys1, <- Pys2, Eys. reflexivity. }
      rewrite Hadd, <- Ex, <- Ey.
      destruct (double_correct Q1 HQ1) as (Hd1 & Hd2).
      split; [exact Hd1 |]. rewrite Hd2, (interp_finite Q1 Hid1). reflexivity.
    + assert (Ey : (vy1 / (vz1 * vz1 * vz1))%F <> (vy2 / (vz2 * vz2 * vz2))%F).
      { intros Ey. 
        apply (Fp_same_y _ _ _ _ Nz1 Nz2) in Ey.
        rewrite <- Pys1, <- Pys2 in Ey. revert Ey. apply phi_neq; assumption. }
      rewrite Hadd. split; [apply on_the_curve_identity |].
      rewrite (interp_identity _ is_identity_identity).
      unfold curve_add. cbn [cadd]. rewrite <- Ex.
      destruct (Zmod.eqb_spec (vx1 / (vz1 * vz1))%F (vx1 / (vz1 * vz1))%F) as [_ | N];
        [| contradiction N; reflexivity].
      destruct (Zmod.eqb_spec (vy1 / (vz1 * vz1 * vz1))%F (vy2 / (vz2 * vz2 * vz2))%F)
        as [Ey' | _]; [contradiction | reflexivity].
  - assert (Nxs : phi this xs1 <> phi this xs2) by (apply phi_neq; assumption).
    assert (Ex : (vx1 / (vz1 * vz1))%F <> (vx2 / (vz2 * vz2))%F).
    { intros Ex. apply Nxs. rewrite Pxs1, Pxs2.
      apply (Fp_same_x _ _ _ _ Nz1 Nz2). exact Ex. }
    assert (Nxd : phi this xd <> 0%F).
    { rewrite Pxd. intros H. apply Nxs. symmetry.
      apply Zmod.sub_eq_0_iff. exact H. }
    assert (Nz : phi this z <> 0%F).
    { rewrite Pz. apply Fp_mul_nz; [apply Fp_mul_nz |]; assumption. }
    assert (Hidr : is_identity this (ECpoint.mk this x y z) = false).
    { unfold is_identity, BigInt.equals. cbn [ECpoint.x]. apply Z.eqb_neq. 
      subst p. lia. }
    assert (Hint : interp this (ECpoint.mk this x y z)
                   = curve_add this (Cpt (vx1 / (vz1 * vz1))%F (vy1 / (vz1 * vz1 * vz1))%F)
                       (Cpt (vx2 / (vz2 * vz2))%F (vy2 / (vz2 * vz2 * vz2))%F)).
    { rewrite (interp_finite _ Hidr). cbn [ECpoint.x ECpoint.y ECpoint.z].
      unfold curve_add. erewrite cadd_chord by (first [exact Fp_eqb_spec | exact Ex]).
      rewrite Pz, Py, Px, Pxd3, Pxd2, Pyd, Pxd, Pys1, Pys2, Pxs1, Pxs2.
      symmetry. eapply jac_chord; try group_hyp.
      rewrite <- Pxs1, <- Pxs2. exact Nxs. }
    rewrite Hadd. split; [| exact Hint].
    split; [reflexivity |]. right. split; [apply canonical_mk; assumption |]. split.
    + cbn [ECpoint.z]. intros Hz0. apply Nz. rewrite Hz0. apply Zmod.of_Z_0.
    + rewrite Hint. apply curve_add_on; assumption.
Qed.

(** *** [mul] computes the multiples of the group *)

Lemma mul_loop_correct (k : nat) : forall (R Q : ECpoint) (m : Z),
  on_the_curve this R -> on_the_curve this Q -> 0 <= m < 2 ^ Z.of_nat k ->
  exists R',
    (forall fuel, (k <= fuel)%nat -> mul_loop this fuel R Q m = Some R') /\
    on_the_curve this R' /\
    interp this R'
    = curve_add this (interp this R) (curve_mul this (Z.to_nat m) (interp this Q)).
Proof.
  induction k as [| k IH]; intros R Q m HR HQ Hm.
  - assert (m = 0) as -> by (simpl in Hm; lia).
    exists R. split; [intros fuel _; apply mul_loop_zero |].
    split; [exact HR |]. unfold curve_add, curve_mul. cbn [Z.to_nat cmul].
    rewrite cadd_inf_r. reflexivity.
  - destruct (Z.eq_dec m 0) as [-> | Hnz].
    + exists R. split; [intros fuel _; apply mul_loop_zero |].
      split; [exact HR |]. unfold curve_add, curve_mul. cbn [Z.to_nat cmul].
      rewrite cadd_inf_r. reflexivity.
    + assert (Hpos : 0 < m) by lia.
      pose proof (shiftRight_decreases m Hpos) as Hdec.
      assert (Hhalf : 0 <= BigInt.shiftRight m 1 < 2 ^ Z.of_nat k).
      { split; [apply Hdec |]. unfold BigInt.shiftRight.
        rewrite Z.shiftr_div_pow2 by lia. change (2 ^ 1) with 2.
        rewrite Nat2Z.inj_succ, Z.pow_succ_r in Hm by lia.
        apply Z.div_lt_upper_bound; lia. }
      set (R1 := if BigInt.equals (BigInt.and m 1) 1 then add this R Q else R).
      set (m' := BigInt.shiftRight m 1) in *.
      set (Q1 := if negb (BigInt.equals m' 0) then double this Q else Q).
      assert (HR1 : on_the_curve this R1 /\
                    interp this R1
                    = curve_add this (interp this R)
                        (if Z.odd m then interp this Q else Cinf)).
      { subst R1. rewrite land_1_odd. destruct (Z.odd m).
        - apply add_correct; assumption.
        - split; [exact HR |]. unfold curve_add. rewrite cadd_inf_r. reflexivity. }
      destruct HR1 as (HR1 & ER1).
      assert (HQ1 : on_the_curve this Q1 /\
                    curve_mul this (Z.to_nat m') (interp this Q1)
                    = curve_mul this (Z.to_nat m')
                        (curve_add this (interp this Q) (interp this Q))).
      { subst Q1. unfold BigInt.equals.
        destruct (Z.eqb_spec m' 0) as [E0 | N0]; cbn [negb].
        - split; [exact HQ |]. rewrite E0. reflexivity.
        - destruct (double_correct Q HQ) as (Hd & Ed).
          split; [exact Hd |]. rewrite Ed. reflexivity. }
      destruct HQ1 as (HQ1 & EQ1).
      destruct (IH R1 Q1 m' HR1 HQ1 Hhalf) as (R' & Hrun & HR' & ER').
      exists R'. split; [| split; [exact HR' |]].
      * intros fuel Hfuel. destruct fuel as [| fuel]; [lia |].
        cbn [mul_loop]. unfold BigInt.equals at 1.
        destruct (Z.eqb_spec m 0) as [Heq | _]; [contradiction |].
        apply Hrun. lia.
      * rewrite ER', ER1, EQ1.
        rewrite (curve_mul_binary m (interp this Q) (interp_on Q HQ) Hpos).
        apply curve_add_assoc.
        -- apply interp_on; exact HR.
        -- destruct (Z.odd m); [apply interp_on; exact HQ | exact I].
        -- apply curve_mul_on. apply curve_add_on; apply interp_on; exact HQ.
Qed.

Lemma mul_correct (Q : ECpoint) (m : Z) :
  on_the_curve this Q -> 0 <= m ->
  exists R, mul this Q m = Some R /\ on_the_curve this R /\
            interp this R = curve_mul this (Z.to_nat m) (interp this Q).
Proof.
  intros HQ Hm.
  destruct (mul_loop_correct (mul_fuel m) (identity this) Q m
              on_the_curve_identity HQ (mul_fuel_bound m Hm)) as (R & Hrun & HR & ER).
  exists R. split; [apply Hrun; lia |]. split; [exact HR |].
  rewrite ER, (interp_identity _ is_identity_identity). reflexivity.
Qed.

(** *** Points that pass [touches], and equality of affine coordinates *)

Lemma get_x_range (Q : ECpoint) :
  Q.(ECpoint.curve) = this -> 0 <= Q.(ECpoint.x) ->
  0 <= value (get_x Q) < this.(ECcurve.p).
Proof.
  intros Hc Hx. unfold get_x. rewrite Hc.
  apply field_div_range; [apply (prime_pos this Hprime) | exact Hx].
Qed.

Lemma get_y_range (Q : ECpoint) :
  Q.(ECpoint.curve) = this -> 0 <= Q.(ECpoint.y) ->
  0 <= value (get_y Q) < this.(ECcurve.p).
Proof.
  intros Hc Hy. unfold get_y. rewrite Hc.
  apply field_div_range; [apply (prime_pos this Hprime) | exact Hy].
Qed.

Lemma interp_affine (Q : ECpoint) :
  Q.(ECpoint.curve) = this -> canonical this Q -> Q.(ECpoint.z) <> 0 ->
  interp this Q = Cpt (phi this (value (get_x Q))) (phi this (value (get_y Q))).
Proof.
  intros Hc Hcan Hz. pose proof (phi_z_nonzero Q Hcan Hz) as Nz.
  rewrite (interp_finite Q (canonical_finite Q Hcan)).
  rewrite (phi_get_x this Hprime Q Hc Nz).
  rewrite (phi_get_y this Hprime Q Hc ltac:(apply Hcan) Nz). reflexivity.
Qed.

Lemma touches_on_the_curve (Q : ECpoint) :
  Q.(ECpoint.curve) = this -> canonical this Q -> Q.(ECpoint.z) <> 0 ->
  value (touches this Q) = true -> on_the_curve this Q.
Proof.
  intros Hc Hcan Hz Ht. split; [exact Hc |]. right.
  split; [exact Hcan |]. split; [exact Hz |].
  rewrite (interp_affine Q Hc Hcan Hz).
  rewrite touches_value in Ht. cbv zeta in Ht. unfold BigInt.equals in Ht.
  apply Z.eqb_eq in Ht. apply (f_equal (phi this)) in Ht.
  unfold field_mul in Ht. phi_push.
  rewrite !(phi_mod this Hprime), !(phi_add this), !(phi_mod this Hprime),
    !(phi_mul this), !(phi_add this), !(phi_mod this Hprime), !(phi_mul this) in Ht.
  unfold curve_on. eapply on_curve_horner; [exact Fp_theory | exact Ht].
Qed.

Lemma interp_same_point (Q1 Q2 : ECpoint) :
  on_the_curve this Q1 -> on_the_curve this Q2 ->
  interp this Q1 = interp this Q2 -> same_point this Q1 Q2.
Proof.
  intros (Hc1 & H1) (Hc2 & H2) E.
  destruct H1 as [Hid1 | (Hcan1 & Hz1 & _)]; destruct H2 as [Hid2 | (Hcan2 & Hz2 & _)].
  - left. split; assumption.
  - rewrite (interp_identity Q1 Hid1), (interp_affine Q2 Hc2 Hcan2 Hz2) in E.
    discriminate.
  - rewrite (interp_identity Q2 Hid2), (interp_affine Q1 Hc1 Hcan1 Hz1) in E.
    discriminate.
  - right. rewrite (interp_affine Q1 Hc1 Hcan1 Hz1), (interp_affine Q2 Hc2 Hcan2 Hz2) in E.
    apply Cpt_inj in E. destruct E as (Ex & Ey).
    split; [apply canonical_finite; exact Hcan1 |].
    split; [apply canonical_finite; exact Hcan2 |].
    split.
    + apply (phi_inj this); [| | exact Ex]; apply get_x_range;
        first [assumption | apply Hcan1 | apply Hcan2].
    + apply (phi_inj this); [| | exact Ey]; apply get_y_range;
        first [assumption | apply Hcan1 | apply Hcan2].
Qed.

(** *** The multiples of a point add up *)

Lemma mul_add_on_the_curve (G : ECpoint) (k1 k2 : Z) :
  on_the_curve this G -> 0 <= k1 -> 0 <= k2 ->
  exists R1 R2 R12,
    mul this G k1 = Some R1 /\ mul this G k2 = Some R2 /\
    mul this G (k1 + k2) = Some R12 /\
    same_point this R12 (add this R1 R2).
Proof.
  intros HG Hk1 Hk2.
  destruct (mul_correct G k1 HG Hk1) as (R1 & M1 & HR1 & E1).
  destruct (mul_correct G k2 HG Hk2) as (R2 & M2 & HR2 & E2).
  destruct (mul_correct G (k1 + k2) HG ltac:(lia)) as (R12 & M12 & HR12 & E12).
  exists R1, R2, R12. repeat (split; [assumption |]).
  destruct (add_correct R1 R2 HR1 HR2) as (Ha & Ea).
  apply interp_same_point; [exact HR12 | exact Ha |].
  rewrite Ea, E1, E2, E12, Z2Nat.inj_add by assumption.
  apply curve_mul_add. apply interp_on. exact HG.
Qed.

End JacobianGroup.

(** C2: on a curve over a prime [p > 2] with no point of order 2, for a
    finite point [G] with coordinates in [[0, p-1]] that passes [touches]
    and scalars [k1, k2 >= 0], the three calls of [mul] return, and
    [mul G (k1 + k2)] is the same curve point as
    [add (mul G k1) (mul G k2)]: both the identity, or both finite with
    equal affine coordinates. *)
Theorem mul_distributes_over_add (this : ECcurve) (G : ECpoint) (k1 k2 : Z) :
  Z.prime this.(ECcurve.p) -> 2 < this.(ECcurve.p) -> no_point_of_order_two this ->
  G.(ECpoint.curve) = this -> canonical this G -> G.(ECpoint.z) <> 0 ->
  value (touches this G) = true -> 0 <= k1 -> 0 <= k2 ->
  exists R1 R2 R12,
    mul this G k1 = Some R1 /\ mul this G k2 = Some R2 /\
    mul this G (k1 + k2) = Some R12 /\
    same_point this R12 (add this R1 R2).
Proof.
  intros Hprime Hodd Hno2 Hc Hcan Hz Ht Hk1 Hk2.
  apply (mul_add_on_the_curve this Hprime Hodd Hno2); [| assumption | assumption].
  exact (touches_on_the_curve this Hprime G Hc Hcan Hz Ht).
Qed.

(** The curve [y^2 = x^3 + 7] over the integers modulo 13: seven points,
    none of order 2, and [(7, 5)] is one of them. *)
Lemma prime_13 : Z.prime 13.
Proof.
  split; [lia |]. intros k Hk [q Hq].
  assert (Hcases : k = 2 \/ k = 3 \/ k = 4 \/ k = 5 \/ k = 6 \/ k = 7 \/
                   k = 8 \/ k = 9 \/ k = 10 \/ k = 11 \/ k = 12) by lia.
  repeat (destruct Hcases as [-> | Hcases]; [lia |]). subst k. lia.
Qed.

Lemma no_point_of_order_two_13 : no_point_of_order_two (ECcurve.mk 13 0 7 7).
Proof.
  intros v Hv. cbn [ECcurve.p ECcurve.a ECcurve.b] in *.
  assert (Hcases : v = 0 \/ v = 1 \/ v = 2 \/ v = 3 \/ v = 4 \/ v = 5 \/ v = 6 \/
                   v = 7 \/ v = 8 \/ v = 9 \/ v = 10 \/ v = 11 \/ v = 12) by lia.
  repeat (destruct Hcases as [-> | Hcases]; [discriminate |]). subst v. discriminate.
Qed.

Lemma mul_distributes_over_add_witness :
  let this := ECcurve.mk 13 0 7 7 in
  let G := ECpoint.mk this 7 5 1 in
  exists R1 R2 R12,
    mul this G 3 = Some R1 /\ mul this G 5 = Some R2 /\
    mul this G (3 + 5) = Some R12 /\
    same_point this R12 (add this R1 R2).
Proof.
  intros this G.
  apply (mul_distributes_over_add this G 3 5);
    [exact prime_13 | reflexivity | exact no_point_of_order_two_13 | reflexivity
    | unfold canonical; simpl; lia | discriminate | reflexivity | lia | lia].
Defined.

(** ** The reference curve

    On secp256k1 the cubic [x^3 + 7] has no root as soon as the modulus is
    prime: [p - 1] is a multiple of 3 and [-7] raised to [(p - 1) / 3] is
    not 1, so [-7] is not a cube.  The generator passes [touches].  The
    primality of the modulus is a hypothesis of the statements below. *)

Lemma secp256k1_no_point_of_order_two :
  Z.prime secp256k1.(ECcurve.p) -> no_point_of_order_two secp256k1.
Proof.
  intros Hprime v Hv H.
  change (ECcurve.a secp256k1) with 0 in H. change (ECcurve.b secp256k1) with 7 in H.
  rewrite Z.mul_0_l, Z.add_0_r in H.
  set (w := phi secp256k1 v).
  assert (Hw3 : (w * (w * w))%F = phi secp256k1 (-7)).
  { unfold w. rewrite <- !phi_mul. apply Zmod.of_Z_inj.
    replace (v * (v * v)) with ((v * v * v + 7) + (-7)) by ring.
    rewrite <- Zplus_mod_idemp_l, H. reflexivity. }
  assert (Hw : w <> 0%F).
  { intros Hw0. rewrite Hw0, !Zmod.mul_0_l in Hw3. symmetry in Hw3.
    apply (phi_zero_iff secp256k1 Hprime) in Hw3. revert Hw3.
    vm_compute. discriminate. }
  pose proof (Zmod.fermat_nz w Hw Hprime) as Hf.
  assert (He : Z.pred secp256k1.(ECcurve.p) = 3 * ((secp256k1.(ECcurve.p) - 1) / 3))
    by (vm_compute; reflexivity).
  rewrite He in Hf.
  rewrite Zmod.pow_mul_r_nonneg in Hf by (vm_compute; discriminate).
  change 3 with (Z.succ 2) in Hf at 1.
  rewrite Zmod.pow_succ_nonneg_r, Zmod.pow_2_r, Hw3 in Hf by lia.
  apply (f_equal Zmod.to_Z) in Hf. revert Hf.
  vm_compute. discriminate.
Qed.

Lemma secp256k1_G_on_the_curve :
  Z.prime secp256k1.(ECcurve.p) -> on_the_curve secp256k1 secp256k1_G.
Proof.
  intros Hprime. apply (touches_on_the_curve secp256k1 Hprime).
  - reflexivity.
  - unfold canonical. cbn [secp256k1_G ECpoint.x ECpoint.y ECpoint.z].
    repeat split; vm_compute; congruence.
  - discriminate.
  - vm_compute. reflexivity.
Qed.

(** For the generator of the reference curve and all scalars
    [k1, k2 >= 0]. *)
Lemma secp256k1_mul_distributes (k1 k2 : Z) :
  Z.prime secp256k1.(ECcurve.p) -> 0 <= k1 -> 0 <= k2 ->
  exists R1 R2 R12,
    mul secp256k1 secp256k1_G k1 = Some R1 /\
    mul secp256k1 secp256k1_G k2 = Some R2 /\
    mul secp256k1 secp256k1_G (k1 + k2) = Some R12 /\
    same_point secp256k1 R12 (add secp256k1 R1 R2).
Proof.
  intros Hprime Hk1 Hk2.
  apply (mul_add_on_the_curve secp256k1 Hprime); [| | | assumption | assumption].
  - vm_compute. reflexivity.
  - exact (secp256k1_no_point_of_order_two Hprime).
  - exact (secp256k1_G_on_the_curve Hprime).
Qed.

(** * Further properties of the program *)

(** ** [hex2int] and the constants of the reference curve *)

(** The constants of [secp256k1] are what [hex2int] reads from the strings
    of the source. *)
Lemma hex2int_constants :
  hex2int "FFFFFFFFFFFFFFFFFFFFFFFFFFFFFFFFFFFFFFFFFFFFFFFFFFFFFFFEFFFFFC2F"
  = Some secp256k1.(ECcurve.p) /\
  hex2int "FFFFFFFF FFFFFFFF FFFFFFFF FFFFFFFE BAAEDCE6 AF48A03B BFD25E8C D0364141"
  = Some secp256k1.(ECcurve.n) /\
  hex2int "79BE667E F9DCBBAC 55A06295 CE870B07 029BFCDB 2DCE28D9 59F2815B 16F81798"
  = Some secp256k1_G.(ECpoint.x) /\
  hex2int "483ADA77 26A3C465 5DA4FBFC 0E1108A8 FD17B448 A6855419 9C47D08F FB10D4B8"
  = Some secp256k1_G.(ECpoint.y) /\
  hex2int "1" = Some secp256k1_G.(ECpoint.z).
Proof. repeat split; vm_compute; reflexivity. Qed.

(** ** [half_extended_gcd]: result and edge cases *)

(** X1: for all integers [aa] and [bb] the loop of [half_extended_gcd]
    ends within the [heg_fuel aa bb] iterations of the model, and the pair it
    returns is the greatest common divisor of [aa] and [bb] together with a
    coefficient [u] such that [u * |aa|] differs from that divisor by a
    multiple of [|bb|]. *)
Theorem half_extended_gcd_bezout (aa bb : Z) :
  exists g u,
    heg_loop (heg_fuel aa bb) (BigInt.abs aa) (BigInt.abs bb) 0 1 = Some (g, u) /\
    half_extended_gcd aa bb = (g, u) /\
    g = Z.gcd aa bb /\
    exists k, g = u * Z.abs aa + k * Z.abs bb.
Proof.
  destruct (heg_loop_terminates aa bb 0 1) as [[g u] Hr].
  exists g, u. split; [exact Hr |].
  assert (Hh : half_extended_gcd aa bb = (g, u)).
  { unfold half_extended_gcd, BigInt.abs. cbv zeta. rewrite Hr. reflexivity. }
  split; [exact Hh |].
  destruct (half_extended_gcd_spec aa bb) as (Hg & k & Hk).
  rewrite Hh in Hg, Hk. cbn [fst snd] in Hg, Hk.
  split; [exact Hg |]. exists k. rewrite Hg. exact Hk.
Qed.

Lemma heg_fuel_S aa bb : exists f, heg_fuel aa bb = S (S f).
Proof. unfold heg_fuel. eauto. Qed.

Lemma half_extended_gcd_0_r (aa : Z) : half_extended_gcd aa 0 = (Z.abs aa, 1).
Proof.
  unfold half_extended_gcd. destruct (heg_fuel_S aa 0) as [f ->]. reflexivity.
Qed.

Lemma half_extended_gcd_0_l (bb : Z) :
  half_extended_gcd 0 bb = (Z.abs bb, if bb =? 0 then 1 else 0).
Proof.
  unfold half_extended_gcd. destruct (heg_fuel_S 0 bb) as [f ->].
  cbn [BigInt.abs Z.abs]. rewrite heg_loop_S. unfold BigInt.equals, BigInt.abs.
  destruct (Z.eqb_spec bb 0) as [-> | Hnz]; [reflexivity |].
  destruct (Z.eqb_spec (Z.abs bb) 0) as [E | _]; [lia |].
  cbv zeta. unfold BigInt.divmod. cbn [fst snd].
  rewrite Z.rem_0_l, Z.quot_0_l by lia. rewrite heg_loop_S.
  reflexivity.
Qed.

(** X2: with a second argument 0 the loop of [half_extended_gcd] is not
    entered and the result is [(|aa|, 1)]; with a first argument 0 and a
    second argument other than 0 it runs once and the result is [(|bb|, 0)]. *)
Theorem half_extended_gcd_zero (aa bb : Z) :
  half_extended_gcd aa 0 = (Z.abs aa, 1) /\
  half_extended_gcd 0 bb = (Z.abs bb, if bb =? 0 then 1 else 0) /\
  (forall fuel, heg_loop fuel (BigInt.abs aa) (BigInt.abs 0) 0 1 = Some (Z.abs aa, 1)).
Proof.
  split; [apply half_extended_gcd_0_r |]. split; [apply half_extended_gcd_0_l |].
  intros fuel. destruct fuel; reflexivity.
Qed.

(** ** [modular_inverse] on any argument *)

Lemma modular_inverse_opp (a m : Z) :
  modular_inverse (- a) m = modular_inverse a m.
Proof.
  unfold modular_inverse, half_extended_gcd, heg_fuel, BigInt.abs.
  rewrite Z.abs_opp. reflexivity.
Qed.

(** X3: for every [a] and every modulus [m > 0], [modular_inverse] returns
    a value [x] in [[0, m-1]] with [|a| * x] congruent to [gcd a m] modulo
    [m]; it prints nothing exactly when [gcd a m = 1] and the single line
    [No inverse found] otherwise. *)
Theorem modular_inverse_any_argument (a m : Z) :
  0 < m ->
  0 <= value (modular_inverse a m) < m /\
  (Z.abs a * value (modular_inverse a m)) mod m = Z.gcd a m mod m /\
  (printed (modular_inverse a m) = [] <-> Z.gcd a m = 1) /\
  (printed (modular_inverse a m) = ["No inverse found"%string] <-> Z.gcd a m <> 1).
Proof.
  intros Hm. split; [apply modular_inverse_range; exact Hm |].
  split; [apply modular_inverse_abs; exact Hm |].
  rewrite modular_inverse_eq. unfold printed. cbn [snd].
  destruct (Z.eqb_spec (Z.gcd a m) 1) as [E | E]; split; split; intros H;
    try reflexivity; try assumption; try discriminate; contradiction.
Qed.

Lemma modular_inverse_any_argument_witness :
  0 <= value (modular_inverse (-6) 9) < 9 /\
  (Z.abs (-6) * value (modular_inverse (-6) 9)) mod 9 = Z.gcd (-6) 9 mod 9 /\
  (printed (modular_inverse (-6) 9) = [] <-> Z.gcd (-6) 9 = 1) /\
  (printed (modular_inverse (-6) 9) = ["No inverse found"%string] <-> Z.gcd (-6) 9 <> 1).
Proof. apply (modular_inverse_any_argument (-6) 9). lia. Defined.

(** Two inverses of the same number in [[0, m-1]] are equal. *)
Lemma inverse_unique a m x1 x2 :
  0 < m -> 0 <= x1 < m -> 0 <= x2 < m ->
  (a * x1) mod m = 1 mod m -> (a * x2) mod m = 1 mod m -> x1 = x2.
Proof.
  intros Hm H1 H2 E1 E2.
  assert (Hx1 : x1 mod m = (x1 * (a * x2)) mod m).
  { rewrite <- Zmult_mod_idemp_r, E2, Zmult_mod_idemp_r, Z.mul_1_r. reflexivity. }
  assert (Hx2 : x2 mod m = (x2 * (a * x1)) mod m).
  { rewrite <- Zmult_mod_idemp_r, E1, Zmult_mod_idemp_r, Z.mul_1_r. reflexivity. }
  replace (x2 * (a * x1)) with (x1 * (a * x2)) in Hx2 by ring.
  rewrite <- Hx1 in Hx2. rewrite !Z.mod_small in Hx2 by assumption. congruence.
Qed.

(** A number that has an inverse modulo [m] is coprime to [m]. *)
Lemma inverse_coprime a m x :
  0 < m -> (a * x) mod m = 1 mod m -> Z.gcd x m = 1.
Proof.
  intros Hm E.
  destruct (Z.eq_dec (Z.gcd x m) 1) as [H | H]; [exact H |].
  exfalso. apply (no_inverse x m a); [lia | exact H |].
  rewrite Z.mul_comm. exact E.
Qed.

(** X4: for [a] in [[0, m-1]] coprime to [m], the inverse of
    [modular_inverse a m] is [a] again, with nothing printed. *)
Theorem modular_inverse_involutive (a m : Z) :
  0 <= a < m -> Z.gcd a m = 1 ->
  modular_inverse (value (modular_inverse a m)) m = (a, []).
Proof.
  intros Ha Hg. assert (Hm : 0 < m) by lia.
  pose proof (modular_inverse_range a m Hm) as Rx.
  pose proof (modular_inverse_coprime a m ltac:(lia) Hm Hg) as Ex.
  set (x := value (modular_inverse a m)) in *.
  pose proof (inverse_coprime a m x Hm Ex) as Hgx.
  pose proof (modular_inverse_range x m Hm) as Ry.
  pose proof (modular_inverse_coprime x m ltac:(lia) Hm Hgx) as Ey.
  assert (Hv : value (modular_inverse x m) = a).
  { apply (inverse_unique x m); try assumption. rewrite Z.mul_comm. exact Ex. }
  assert (Hl : printed (modular_inverse x m) = []).
  { rewrite modular_inverse_eq. unfold printed. cbn [snd]. rewrite Hgx. reflexivity. }
  destruct (modular_inverse x m) as [v l]. cbn in Hv, Hl. subst. reflexivity.
Qed.

Lemma modular_inverse_involutive_witness :
  modular_inverse (value (modular_inverse 3 7)) 7 = (3, []).
Proof. apply (modular_inverse_involutive 3 7); [lia | reflexivity]. Defined.

(** X5: for non-negative [a] and [b] coprime to [m > 0], the inverse of
    [a * b] is the product of the inverses reduced modulo [m], with nothing
    printed. *)
Theorem modular_inverse_mul (a b m : Z) :
  0 <= a -> 0 <= b -> 0 < m -> Z.gcd a m = 1 -> Z.gcd b m = 1 ->
  modular_inverse (a * b) m
  = ((value (modular_inverse a m) * value (modular_inverse b m)) mod m, []).
Proof.
  intros Ha Hb Hm Hga Hgb.
  pose proof (modular_inverse_coprime a m Ha Hm Hga) as Ea.
  pose proof (modular_inverse_coprime b m Hb Hm Hgb) as Eb.
  assert (Hxy : (a * b * (value (modular_inverse a m) * value (modular_inverse b m)))
                mod m = 1 mod m).
  { replace (a * b * (value (modular_inverse a m) * value (modular_inverse b m)))
      with ((a * value (modular_inverse a m)) * (b * value (modular_inverse b m)))
      by ring.
    rewrite Zmult_mod, Ea, Eb, <- Zmult_mod. reflexivity. }
  assert (Hgab : Z.gcd (a * b) m = 1).
  { apply (inverse_coprime
             (value (modular_inverse a m) * value (modular_inverse b m)) m (a * b) Hm).
    rewrite Z.mul_comm. exact Hxy. }
  pose proof (modular_inverse_coprime (a * b) m ltac:(nia) Hm Hgab) as Eab.
  pose proof (modular_inverse_range (a * b) m Hm) as Rab.
  set (x := value (modular_inverse a m)) in *.
  set (y := value (modular_inverse b m)) in *.
  assert (Hv : value (modular_inverse (a * b) m) = (x * y) mod m).
  { apply (inverse_unique (a * b) m); try assumption.
    - apply Z.mod_pos_bound. exact Hm.
    - rewrite Zmult_mod_idemp_r. exact Hxy. }
  assert (Hl : printed (modular_inverse (a * b) m) = []).
  { rewrite modular_inverse_eq. unfold printed. cbn [snd]. rewrite Hgab. reflexivity. }
  destruct (modular_inverse (a * b) m) as [v l]. cbn in Hv, Hl. subst. reflexivity.
Qed.

Lemma modular_inverse_mul_witness :
  modular_inverse (3 * 5) 7
  = ((value (modular_inverse 3 7) * value (modular_inverse 5 7)) mod 7, []).
Proof.
  apply (modular_inverse_mul 3 5 7); [lia | lia | lia | reflexivity | reflexivity].
Defined.

(** ** [hex2int]: spaces, case and [toString(16)] *)

Lemma remove_spaces_app s1 s2 :
  remove_spaces (s1 ++ s2) = (remove_spaces s1 ++ remove_spaces s2)%string.
Proof.
  induction s1 as [| c s1 IH]; [reflexivity |].
  cbn [String.append remove_spaces]. rewrite IH.
  destruct (is_space c); reflexivity.
Qed.

Lemma remove_spaces_spaces w : all_chars is_space w = true -> remove_spaces w = EmptyString.
Proof.
  induction w as [| c w IH]; [reflexivity |].
  cbn [all_chars remove_spaces]. intros H. apply andb_prop in H. destruct H as [Hc Hw].
  rewrite Hc. apply IH. exact Hw.
Qed.

Lemma is_space_to_lower c : is_space (to_lower c) = is_space c.
Proof. destruct c as [[] [] [] [] [] [] [] []]; reflexivity. Qed.

Lemma to_lower_idempotent c : to_lower (to_lower c) = to_lower c.
Proof. destruct c as [[] [] [] [] [] [] [] []]; reflexivity. Qed.

Lemma remove_spaces_lowercase s :
  remove_spaces (lowercase s) = lowercase (remove_spaces s).
Proof.
  induction s as [| c s IH]; [reflexivity |].
  cbn [lowercase remove_spaces]. rewrite is_space_to_lower, IH.
  destruct (is_space c); reflexivity.
Qed.

Lemma lowercase_idempotent s : lowercase (lowercase s) = lowercase s.
Proof.
  induction s as [| c s IH]; [reflexivity |].
  cbn [lowercase]. rewrite to_lower_idempotent, IH. reflexivity.
Qed.

(** X6: [hex2int] reads the same integer whether or not a run of spaces
    (space, tab, line feed, vertical tab, form feed, carriage return) is put
    anywhere in the string, and whether the letters are upper or lower
    case. *)
Theorem hex2int_spaces_and_case (s1 w s2 : string) :
  all_chars is_space w = true ->
  hex2int (s1 ++ w ++ s2) = hex2int (s1 ++ s2) /\
  hex2int (lowercase (s1 ++ s2)) = hex2int (s1 ++ s2).
Proof.
  intros Hw. unfold hex2int, bigInt16. split.
  - rewrite !remove_spaces_app, (remove_spaces_spaces w Hw). reflexivity.
  - rewrite remove_spaces_lowercase, lowercase_idempotent. reflexivity.
Qed.

Lemma hex2int_spaces_and_case_witness :
  hex2int ("FFFFFFFE" ++ " " ++ "BAAEDCE6") = hex2int ("FFFFFFFE" ++ "BAAEDCE6") /\
  hex2int (lowercase ("FFFFFFFE" ++ "BAAEDCE6")) = hex2int ("FFFFFFFE" ++ "BAAEDCE6").
Proof. apply (hex2int_spaces_and_case "FFFFFFFE" " " "BAAEDCE6"). reflexivity. Defined.

Lemma hex_or_minus_plain c :
  hex_or_minus c = true -> is_space c = false /\ to_lower c = c.
Proof.
  destruct c as [[] [] [] [] [] [] [] []]; intros H; try discriminate H;
    split; reflexivity.
Qed.

Lemma plain_string s :
  all_chars hex_or_minus s = true -> remove_spaces s = s /\ lowercase s = s.
Proof.
  induction s as [| c s IH]; [split; reflexivity |].
  cbn [all_chars remove_spaces lowercase]. intros H.
  apply andb_prop in H. destruct H as [Hc Hs].
  destruct (hex_or_minus_plain c Hc) as [H1 H2]. destruct (IH Hs) as [H3 H4].
  rewrite H1, H2, H3, H4. split; reflexivity.
Qed.

Lemma all_chars_weaken (f g : ascii -> bool) s :
  (forall c, f c = true -> g c = true) -> all_chars f s = true -> all_chars g s = true.
Proof.
  intros Hfg. induction s as [| c s IH]; [reflexivity |].
  cbn [all_chars]. intros H. apply andb_prop in H. destruct H as [Hc Hs].
  rewrite (Hfg c Hc), (IH Hs). reflexivity.
Qed.

Lemma toString16_chars v : all_chars hex_or_minus (BigInt.toString16 v) = true.
Proof.
  assert (Hw : forall c, lower_hex_digit c = true -> hex_or_minus c = true)
    by (intros c Hc; unfold hex_or_minus; rewrite Hc; reflexivity).
  destruct (Z_lt_le_dec v 0) as [Hneg | Hpos].
  - pose proof (toString16_nonneg (- v) ltac:(lia)) as H.
    destruct v as [| q | q]; try lia.
    unfold BigInt.toString16 in *. cbn [Z.to_hex_int NilZero.string_of_int Z.opp] in *.
    cbn [all_chars]. rewrite (all_chars_weaken _ _ _ Hw H). reflexivity.
  - exact (all_chars_weaken _ _ _ Hw (toString16_nonneg v Hpos)).
Qed.

(** X7: [hex2int] reads back every integer from the string
    [toString(16)] writes for it, also with spaces before and after. *)
Theorem hex2int_toString16 (v : Z) (w1 w2 : string) :
  all_chars is_space w1 = true -> all_chars is_space w2 = true ->
  hex2int (w1 ++ BigInt.toString16 v ++ w2) = Some v.
Proof.
  intros H1 H2. unfold hex2int, bigInt16.
  rewrite !remove_spaces_app, (remove_spaces_spaces w1 H1), (remove_spaces_spaces w2 H2).
  destruct (plain_string _ (toString16_chars v)) as [Hr Hl].
  rewrite Hr. cbn [String.append].
  assert (Happ : forall s, (s ++ "")%string = s)
    by (induction s as [| c s IH]; [reflexivity | cbn [String.append]; rewrite IH; reflexivity]).
  rewrite Happ, Hl. apply parse16_toString16.
Qed.

Lemma hex2int_toString16_witness :
  hex2int (" " ++ BigInt.toString16 (-255) ++ "  ") = Some (-255).
Proof. apply (hex2int_toString16 (-255) " " "  "); reflexivity. Defined.

(** ** [getRandomBits] *)

Lemma byte_range (b : Byte.byte) : 0 <= Z.of_N (Byte.to_N b) < 256.
Proof. pose proof (Byte.to_N_bounded b). lia. Qed.

Lemma byte_of_value r : 0 <= r < 256 -> Z.of_N (Byte.to_N (byte_of r)) = r.
Proof.
  intros Hr. unfold byte_of.
  destruct (Byte.of_N (Z.to_N r)) as [b |] eqn:E.
  - apply Byte.to_of_N in E. rewrite E. lia.
  - exfalso. pose proof (Byte.to_of_N_option_map (Z.to_N r)) as H.
    rewrite E in H. cbn [option_map] in H.
    destruct (N.leb_spec (Z.to_N r) 255) as [_ | Hgt]; [discriminate | lia].
Qed.

Lemma byte_value_inj (b c : Byte.byte) :
  Z.of_N (Byte.to_N b) = Z.of_N (Byte.to_N c) -> b = c.
Proof.
  intros H. apply N2Z.inj in H.
  pose proof (Byte.of_to_N b) as Hb. pose proof (Byte.of_to_N c) as Hc.
  rewrite H in Hb. congruence.
Qed.

Lemma getRandomBits_buffer rand bits :
  getRandomBits rand bits = buffer_value (rand (Z.to_nat (bits / 8))).
Proof. reflexivity. Qed.

Lemma buffer_value_range buffer :
  0 <= buffer_value buffer < 256 ^ Z.of_nat (List.length buffer).
Proof.
  induction buffer as [| b buffer IH]; [cbn; lia |].
  cbn [buffer_value fold_right List.length]. fold (buffer_value buffer).
  rewrite Nat2Z.inj_succ, Z.pow_succ_r by lia.
  pose proof (byte_range b). lia.
Qed.

Lemma buffer_value_inj : forall b1 b2,
  List.length b1 = List.length b2 -> buffer_value b1 = buffer_value b2 -> b1 = b2.
Proof.
  induction b1 as [| x b1 IH]; intros [| y b2] Hl Hv; try discriminate; [reflexivity |].
  cbn [buffer_value fold_right] in Hv.
  fold (buffer_value b1) in Hv. fold (buffer_value b2) in Hv.
  pose proof (byte_range x). pose proof (byte_range y).
  assert (Hxy : Z.of_N (Byte.to_N x) = Z.of_N (Byte.to_N y)) by lia.
  assert (Hb : buffer_value b1 = buffer_value b2) by lia.
  f_equal; [apply byte_value_inj; exact Hxy | apply IH; [cbn in Hl; lia | exact Hb]].
Qed.

Lemma buffer_of_length k : forall v, List.length (buffer_of k v) = k.
Proof. induction k as [| k IH]; intros v; [reflexivity | cbn; rewrite IH; reflexivity]. Qed.

Lemma buffer_of_value k : forall v,
  0 <= v < 256 ^ Z.of_nat k -> buffer_value (buffer_of k v) = v.
Proof.
  induction k as [| k IH]; intros v Hv.
  - cbn in *. lia.
  - cbn [buffer_of buffer_value fold_right]. fold (buffer_value (buffer_of k (v / 256))).
    rewrite Nat2Z.inj_succ, Z.pow_succ_r in Hv by lia.
    rewrite IH by (split; [apply Z.div_pos; lia | apply Z.div_lt_upper_bound; lia]).
    rewrite byte_of_value by (apply Z.mod_pos_bound; lia).
    pose proof (Z.div_mod v 256 ltac:(lia)). lia.
Qed.

Lemma bits_bytes bits : 0 <= bits -> bits mod 8 = 0 ->
  256 ^ Z.of_nat (Z.to_nat (bits / 8)) = 2 ^ bits.
Proof.
  intros Hb H8. rewrite Z2Nat.id by (apply Z.div_pos; lia).
  change 256 with (2 ^ 8). rewrite <- Z.pow_mul_r by (try apply Z.div_pos; lia).
  f_equal. pose proof (Z.div_mod bits 8 ltac:(lia)). lia.
Qed.

(** X8: for a number of bits [bits >= 0] divisible by 8, and a buffer of
    [bits / 8] bytes, [getRandomBits] returns a value in [[0, 2^bits - 1]]. *)
Theorem getRandomBits_range (rand : nat -> list Byte.byte) (bits : Z) :
  0 <= bits -> bits mod 8 = 0 ->
  List.length (rand (Z.to_nat (bits / 8))) = Z.to_nat (bits / 8) ->
  0 <= getRandomBits rand bits < 2 ^ bits.
Proof.
  intros Hb H8 Hl. rewrite getRandomBits_buffer.
  pose proof (buffer_value_range (rand (Z.to_nat (bits / 8)))) as H.
  rewrite Hl, (bits_bytes bits Hb H8) in H. exact H.
Qed.

Lemma getRandomBits_range_witness :
  0 <= getRandomBits (fun _ => [Byte.xff; Byte.x01]) 16 < 2 ^ 16.
Proof.
  apply (getRandomBits_range (fun _ => [Byte.xff; Byte.x01]) 16);
    [lia | reflexivity | reflexivity].
Defined.

(** X9: for [bits >= 0] divisible by 8, every value in [[0, 2^bits - 1]]
    is returned for exactly one content of the buffer of [bits / 8] bytes:
    the loop maps the buffers one to one onto that range. *)
Theorem getRandomBits_one_to_one (bits v : Z) :
  0 <= bits -> bits mod 8 = 0 -> 0 <= v < 2 ^ bits ->
  exists buffer,
    List.length buffer = Z.to_nat (bits / 8) /\
    getRandomBits (fun _ => buffer) bits = v /\
    forall buffer',
      List.length buffer' = Z.to_nat (bits / 8) ->
      getRandomBits (fun _ => buffer') bits = v -> buffer' = buffer.
Proof.
  intros Hb H8 Hv. exists (buffer_of (Z.to_nat (bits / 8)) v).
  split; [apply buffer_of_length |].
  assert (Hval : buffer_value (buffer_of (Z.to_nat (bits / 8)) v) = v)
    by (apply buffer_of_value; rewrite (bits_bytes bits Hb H8); exact Hv).
  split; [rewrite getRandomBits_buffer; exact Hval |].
  intros buffer' Hl Hv'. rewrite getRandomBits_buffer in Hv'.
  apply buffer_value_inj; [rewrite buffer_of_length; exact Hl | congruence].
Qed.

Lemma getRandomBits_one_to_one_witness :
  exists buffer,
    List.length buffer = Z.to_nat (16 / 8) /\
    getRandomBits (fun _ => buffer) 16 = 511 /\
    forall buffer',
      List.length buffer' = Z.to_nat (16 / 8) ->
      getRandomBits (fun _ => buffer') 16 = 511 -> buffer' = buffer.
Proof. apply (getRandomBits_one_to_one 16 511); [lia | reflexivity | lia]. Defined.

(** ** Field operations *)

Lemma rem_congr v d : d <> 0 -> Z.rem v d mod d = v mod d.
Proof.
  intros Hd. pose proof (Z.quot_rem' v d) as Hq.
  replace (Z.rem v d) with (v + (- Z.quot v d) * d) by lia.
  apply Z.mod_add. exact Hd.
Qed.

(** X10: for a modulus [p > 0], [field_mul a b] is congruent to [a * b];
    it is the least non-negative residue when [a * b >= 0], and lies in
    [[-(p-1), 0]] when [a * b < 0]: a negative product is not brought back
    into [[0, p-1]]. *)
Theorem field_mul_sign (this : ECcurve) (a b : Z) :
  0 < this.(ECcurve.p) ->
  field_mul this a b mod this.(ECcurve.p) = (a * b) mod this.(ECcurve.p) /\
  (0 <= a * b ->
   field_mul this a b = (a * b) mod this.(ECcurve.p)) /\
  (a * b < 0 -> - this.(ECcurve.p) < field_mul this a b <= 0).
Proof.
  intros Hp. unfold field_mul, BigInt.mod_, BigInt.divmod. cbn [snd].
  split; [apply rem_congr; lia |]. split.
  - intros H. apply Z.rem_mod_nonneg; assumption.
  - intros H. apply Z.rem_bound_pos_neg; lia.
Qed.

Lemma field_mul_sign_witness :
  field_mul secp256k1 (-1) 1 mod secp256k1.(ECcurve.p)
  = (-1 * 1) mod secp256k1.(ECcurve.p) /\
  (0 <= -1 * 1 -> field_mul secp256k1 (-1) 1 = (-1 * 1) mod secp256k1.(ECcurve.p)) /\
  (-1 * 1 < 0 -> - secp256k1.(ECcurve.p) < field_mul secp256k1 (-1) 1 <= 0).
Proof. apply (field_mul_sign secp256k1 (-1) 1). reflexivity. Defined.

Lemma field_div_eq this num den :
  field_div this num den
  = (field_mul this (BigInt.mod_ num this.(ECcurve.p))
       (value (modular_inverse (BigInt.mod_ den this.(ECcurve.p)) this.(ECcurve.p))),
     printed (modular_inverse (BigInt.mod_ den this.(ECcurve.p)) this.(ECcurve.p))).
Proof.
  unfold field_div, bind, ret, value, printed.
  destruct (modular_inverse _ _) as [v l]. cbn [fst snd]. rewrite app_nil_r. reflexivity.
Qed.

Lemma printed_coprime a m : Z.gcd a m = 1 -> printed (modular_inverse a m) = [].
Proof.
  intros H. rewrite modular_inverse_eq. unfold printed. cbn [snd]. rewrite H. reflexivity.
Qed.

(** [field_div] on non-negative arguments, the denominator coprime to
    the modulus. *)
Lemma field_div_coprime this num den :
  0 < this.(ECcurve.p) -> 0 <= num -> 0 <= den -> Z.gcd den this.(ECcurve.p) = 1 ->
  let inv := value (modular_inverse (den mod this.(ECcurve.p)) this.(ECcurve.p)) in
  field_div this num den = ((num mod this.(ECcurve.p) * inv) mod this.(ECcurve.p), []) /\
  0 <= inv < this.(ECcurve.p) /\
  (den * inv) mod this.(ECcurve.p) = 1 mod this.(ECcurve.p).
Proof.
  intros Hp Hnum Hden Hg inv. subst inv.
  set (p := this.(ECcurve.p)) in *.
  assert (Hg' : Z.gcd (den mod p) p = 1).
  { rewrite Z.gcd_mod, Z.gcd_comm by lia. exact Hg. }
  pose proof (Z.mod_pos_bound den p Hp) as Rr.
  pose proof (Z.mod_pos_bound num p Hp) as Rn.
  pose proof (modular_inverse_range (den mod p) p Hp) as Ri.
  pose proof (modular_inverse_coprime (den mod p) p ltac:(lia) Hp Hg') as Ei.
  rewrite Zmult_mod_idemp_l in Ei.
  split; [| split; assumption].
  rewrite field_div_eq. fold p. rewrite !mod_nonneg by assumption.
  rewrite (printed_coprime _ _ Hg'). f_equal.
  unfold field_mul. fold p. apply mod_nonneg; [nia | exact Hp].
Qed.

(** X11: for [p > 0], [num >= 0] and [den >= 0] coprime to [p],
    [field_div num den] prints nothing, returns a value in [[0, p-1]],
    multiplying it by [den] with [field_mul] gives [num mod p], and dividing
    [field_mul num den] by [den] gives [num mod p] as well. *)
Theorem field_div_then_mul (this : ECcurve) (num den : Z) :
  0 < this.(ECcurve.p) -> 0 <= num -> 0 <= den -> Z.gcd den this.(ECcurve.p) = 1 ->
  printed (field_div this num den) = [] /\
  0 <= value (field_div this num den) < this.(ECcurve.p) /\
  field_mul this (value (field_div this num den)) den = num mod this.(ECcurve.p) /\
  value (field_div this (field_mul this num den) den) = num mod this.(ECcurve.p).
Proof.
  intros Hp Hnum Hden Hg.
  destruct (field_div_coprime this num den Hp Hnum Hden Hg) as (E & Ri & Ei).
  cbv zeta in E. set (p := this.(ECcurve.p)) in *.
  set (inv := value (modular_inverse (den mod p) p)) in *.
  split; [rewrite E; reflexivity |].
  split; [rewrite E; apply Z.mod_pos_bound; exact Hp |].
  assert (Hcancel : forall u, (u * den * inv) mod p = u mod p).
  { intros u. rewrite <- Z.mul_assoc, <- Zmult_mod_idemp_r, Ei, Zmult_mod_idemp_r,
      Z.mul_1_r. reflexivity. }
  split.
  - rewrite E. cbn [value fst]. unfold field_mul. fold p.
    pose proof (Z.mod_pos_bound (num mod p * inv) p Hp).
    rewrite mod_nonneg by (try nia; exact Hp).
    rewrite (Zmult_mod_idemp_l (num mod p * inv) den p).
    rewrite <- Z.mul_assoc, (Zmult_mod_idemp_l num (inv * den) p), Z.mul_assoc.
    replace (num * inv * den) with (num * den * inv) by ring. apply Hcancel.
  - assert (Hfm : field_mul this num den = (num * den) mod p)
      by (unfold field_mul; fold p; apply mod_nonneg; [nia | exact Hp]).
    pose proof (Z.mod_pos_bound (num * den) p Hp) as Rm.
    destruct (field_div_coprime this (field_mul this num den) den Hp
                ltac:(rewrite Hfm; lia) Hden Hg) as (E' & _ & _).
    cbv zeta in E'. fold p in E'. fold inv in E'. rewrite E'. cbn [value fst].
    rewrite Hfm, Z.mod_mod, Zmult_mod_idemp_l by lia. apply Hcancel.
Qed.

Lemma field_div_then_mul_witness :
  printed (field_div secp256k1 5 3) = [] /\
  0 <= value (field_div secp256k1 5 3) < secp256k1.(ECcurve.p) /\
  field_mul secp256k1 (value (field_div secp256k1 5 3)) 3 = 5 mod secp256k1.(ECcurve.p) /\
  value (field_div secp256k1 (field_mul secp256k1 5 3) 3) = 5 mod secp256k1.(ECcurve.p).
Proof.
  apply (field_div_then_mul secp256k1 5 3); [reflexivity | lia | lia |].
  vm_compute. reflexivity.
Defined.

Lemma modular_inverse_zero m :
  1 < m -> modular_inverse 0 m = (0, ["No inverse found"%string]).
Proof.
  intros Hm. rewrite modular_inverse_eq.
  rewrite half_extended_gcd_0_l. cbn [snd].
  destruct (Z.eqb_spec m 0) as [E | _]; [lia |].
  rewrite renorm_mod by lia. rewrite Z.mod_0_l by lia.
  rewrite Z.gcd_0_l, Z.abs_eq by lia.
  destruct (Z.eqb_spec m 1) as [E | _]; [lia | reflexivity].
Qed.

Lemma field_div_multiple (this : ECcurve) (num den : Z) :
  1 < this.(ECcurve.p) -> den mod this.(ECcurve.p) = 0 ->
  field_div this num den = (0, ["No inverse found"%string]).
Proof.
  intros Hp Hden. rewrite field_div_eq.
  assert (Hr : BigInt.mod_ den this.(ECcurve.p) = 0).
  { unfold BigInt.mod_, BigInt.divmod. cbn [snd]. apply Z.rem_mod_eq_0; [lia | exact Hden]. }
  rewrite Hr, (modular_inverse_zero _ Hp). cbn [value printed fst snd].
  unfold field_mul, BigInt.mod_, BigInt.divmod. cbn [snd].
  rewrite Z.mul_0_r, Z.rem_0_l by lia. reflexivity.
Qed.

(** X12: for [p > 1] and a denominator that is a multiple of [p],
    [modular_inverse] is called on 0, returns 0 and prints the line
    [No inverse found]; [field_div] returns 0 with that line. *)
Theorem field_div_by_zero (this : ECcurve) (num den : Z) :
  1 < this.(ECcurve.p) -> den mod this.(ECcurve.p) = 0 ->
  modular_inverse (BigInt.mod_ den this.(ECcurve.p)) this.(ECcurve.p)
  = (0, ["No inverse found"%string]) /\
  field_div this num den = (0, ["No inverse found"%string]).
Proof.
  intros Hp Hden. split; [| apply field_div_multiple; assumption].
  assert (Hr : BigInt.mod_ den this.(ECcurve.p) = 0).
  { unfold BigInt.mod_, BigInt.divmod. cbn [snd]. apply Z.rem_mod_eq_0; [lia | exact Hden]. }
  rewrite Hr. apply modular_inverse_zero. exact Hp.
Qed.

Lemma field_div_by_zero_witness :
  modular_inverse (BigInt.mod_ 0 secp256k1.(ECcurve.p)) secp256k1.(ECcurve.p)
  = (0, ["No inverse found"%string]) /\
  field_div secp256k1 1 0 = (0, ["No inverse found"%string]).
Proof. apply (field_div_by_zero secp256k1 1 0); reflexivity. Defined.

(** X13: [half_extended_gcd] starts from the absolute values of both
    arguments, so the sign of either is ignored; [modular_inverse] ignores
    the sign of [a], and [field_div] the sign of the denominator: for a
    negative denominator it returns the quotient by its absolute value. *)
Theorem argument_sign_ignored (this : ECcurve) (a m num den : Z) :
  half_extended_gcd (- a) m = half_extended_gcd a m /\
  half_extended_gcd a (- m) = half_extended_gcd a m /\
  modular_inverse (- a) m = modular_inverse a m /\
  field_div this num (- den) = field_div this num den.
Proof.
  split; [| split; [| split; [apply modular_inverse_opp |]]].
  - unfold half_extended_gcd, heg_fuel, BigInt.abs. rewrite Z.abs_opp. reflexivity.
  - unfold half_extended_gcd, heg_fuel, BigInt.abs. rewrite Z.abs_opp. reflexivity.
  - rewrite !field_div_eq.
    assert (Hr : BigInt.mod_ (- den) this.(ECcurve.p) = - BigInt.mod_ den this.(ECcurve.p)).
    { unfold BigInt.mod_, BigInt.divmod. cbn [snd]. apply Z.rem_opp_l'. }
    rewrite Hr, modular_inverse_opp. reflexivity.
Qed.

(** ** [field_exp] *)

Lemma field_exp_nonneg this num power :
  0 < this.(ECcurve.p) -> 0 <= num -> 0 <= power ->
  field_exp this num power = (num ^ power) mod this.(ECcurve.p).
Proof.
  intros Hp Hnum Hpow. unfold field_exp, BigInt.modPow.
  rewrite (mod_nonneg num) by assumption.
  pose proof (Z.mod_pos_bound num this.(ECcurve.p) Hp) as Hr.
  rewrite mod_nonneg by (try apply Z.pow_nonneg; lia).
  apply Z.mod_pow_l.
Qed.



(** X15: for a prime [p] and [num >= 0] not a multiple of [p],
    [field_exp num (p - 1) = 1], and [field_exp num (p - 2)] is the value
    [modular_inverse] returns for [num mod p], which is also
    [field_div 1 num]. *)
Theorem field_exp_fermat (this : ECcurve) (num : Z) :
  Z.prime this.(ECcurve.p) -> 0 <= num -> num mod this.(ECcurve.p) <> 0 ->
  field_exp this num (this.(ECcurve.p) - 1) = 1 /\
  field_exp this num (this.(ECcurve.p) - 2)
  = value (modular_inverse (BigInt.mod_ num this.(ECcurve.p)) this.(ECcurve.p)) /\
  field_exp this num (this.(ECcurve.p) - 2) = value (field_div this 1 num).
Proof.
  intros Hprime Hnum Hnz.
  pose proof (Z.prime_ge_2 _ Hprime) as Hp2.
  set (p := this.(ECcurve.p)) in *.
  assert (Hp : 0 < p) by lia.
  rewrite !field_exp_nonneg by lia. fold p.
  pose proof (Z.fermat_nz p num Hprime Hnz) as Hf.
  split; [exact Hf |].
  rewrite mod_nonneg by assumption.
  pose proof (Z.mod_pos_bound num p Hp) as Rr.
  assert (Hg : Z.gcd num p = 1).
  { rewrite Z.gcd_comm. apply Z.coprime_prime_l; [exact Hprime |].
    intros Hd. apply Hnz. apply Z.mod_divide; [lia | exact Hd]. }
  assert (Hg' : Z.gcd (num mod p) p = 1)
    by (rewrite Z.gcd_mod, Z.gcd_comm by lia; exact Hg).
  pose proof (modular_inverse_range (num mod p) p Hp) as Ri.
  pose proof (modular_inverse_coprime (num mod p) p ltac:(lia) Hp Hg') as Ei.
  assert (Hpow : (num mod p * (num ^ (p - 2) mod p)) mod p = 1 mod p).
  { rewrite <- Zmult_mod. rewrite <- Z.pow_succ_r by lia.
    replace (Z.succ (p - 2)) with (p - 1) by lia. rewrite Hf.
    symmetry. apply Z.mod_1_l. lia. }
  assert (Hinv : num ^ (p - 2) mod p = value (modular_inverse (num mod p) p)).
  { apply (inverse_unique (num mod p) p); try assumption.
    apply Z.mod_pos_bound. exact Hp. }
  split; [exact Hinv |].
  destruct (field_div_coprime this 1 num Hp ltac:(lia) Hnum Hg) as (E & _ & _).
  cbv zeta in E. fold p in E. rewrite E. cbn [value fst].
  rewrite Hinv, Zmult_mod_idemp_l, Z.mul_1_l.
  symmetry. apply Z.mod_small. exact Ri.
Qed.

Lemma field_exp_fermat_witness :
  let this := ECcurve.mk 13 0 7 7 in
  field_exp this 5 (13 - 1) = 1 /\
  field_exp this 5 (13 - 2) = value (modular_inverse (BigInt.mod_ 5 13) 13) /\
  field_exp this 5 (13 - 2) = value (field_div this 1 5).
Proof.
  intros this.
  apply (field_exp_fermat this 5); [exact prime_13 | lia | discriminate].
Defined.

(** ** Identities of fields

    Used at the integers modulo the prime of the curve. *)

Section FieldIdentities.

Variable K : Type.
Variables k0 k1 : K.
Variables kadd kmul ksub kdiv : K -> K -> K.
Variables kopp kinv : K -> K.
Hypothesis Kth : field_theory k0 k1 kadd kmul ksub kopp kdiv kinv (@eq K).

Add Field IdentitiesField : Kth.

Lemma rescale_x (l x z : K) :
  l <> k0 -> z <> k0 ->
  kdiv (kmul (kmul l l) x) (kmul (kmul l z) (kmul l z)) = kdiv x (kmul z z).
Proof. intros Hl Hz. field. split; assumption. Qed.

Lemma rescale_y (l y z : K) :
  l <> k0 -> z <> k0 ->
  kdiv (kmul (kmul (kmul l l) l) y) (kmul (kmul (kmul l z) (kmul l z)) (kmul l z))
  = kdiv y (kmul (kmul z z) z).
Proof. intros Hl Hz. field. split; assumption. Qed.

Lemma horner_cubic (x cA cB : K) :
  kadd (kadd (kmul (kmul x x) x) (kmul cA x)) cB = kadd (kmul (kadd (kmul x x) cA) x) cB.
Proof. ring. Qed.

Lemma opposite_products (y w : K) :
  kmul y w = kmul (ksub k0 y) w -> kmul (kmul (kadd k1 k1) y) w = k0.
Proof.
  intros H. transitivity (kadd (kmul y w) (ksub k0 (kmul (ksub k0 y) w))); [ring |].
  rewrite <- H. ring.
Qed.

Lemma jacobian_equation (x y z cA cB : K) :
  z <> k0 ->
  let z2 := kmul z z in
  let z3 := kmul z2 z in
  let ax := kdiv x z2 in
  let ay := kdiv y z3 in
  kmul ay ay = kadd (kmul (kadd (kmul ax ax) cA) ax) cB <->
  kmul y y
  = kadd (kadd (kmul (kmul x x) x) (kmul (kmul cA x) (kmul z2 z2)))
         (kmul cB (kmul z3 z3)).
Proof.
  intros Hz z2 z3 ax ay. subst z2 z3 ax ay. split; intros H.
  - transitivity
      (kmul (kmul (kdiv y (kmul (kmul z z) z)) (kdiv y (kmul (kmul z z) z)))
            (kmul (kmul (kmul z z) z) (kmul (kmul z z) z))); [field; exact Hz |].
    rewrite H. field. exact Hz.
  - transitivity
      (kdiv (kmul y y) (kmul (kmul (kmul z z) z) (kmul (kmul z z) z))); [field; exact Hz |].
    rewrite H. field. exact Hz.
Qed.

End FieldIdentities.

(** ** Affine coordinates *)

Lemma modular_inverse_one m : 1 < m -> modular_inverse 1 m = (1, []).
Proof.
  intros Hm.
  assert (Hg : Z.gcd 1 m = 1) by apply Z.gcd_1_l.
  pose proof (modular_inverse_range 1 m ltac:(lia)) as Ri.
  pose proof (modular_inverse_coprime 1 m ltac:(lia) ltac:(lia) Hg) as Ei.
  pose proof (printed_coprime 1 m Hg) as Hl.
  assert (Hv : value (modular_inverse 1 m) = 1).
  { apply (inverse_unique 1 m); try assumption; try lia; reflexivity. }
  destruct (modular_inverse 1 m) as [v l]. cbn in Hv, Hl. subst. reflexivity.
Qed.

Lemma field_div_one this num :
  1 < this.(ECcurve.p) -> 0 <= num < this.(ECcurve.p) ->
  field_div this num (BigInt.mod_ 1 this.(ECcurve.p)) = (num, []).
Proof.
  intros Hp Hnum. rewrite field_div_eq.
  assert (H1 : BigInt.mod_ 1 this.(ECcurve.p) = 1)
    by (rewrite mod_nonneg by lia; apply Z.mod_1_l; exact Hp).
  rewrite !H1, (modular_inverse_one _ Hp). cbn [value printed fst snd].
  unfold field_mul. rewrite (mod_nonneg num) by lia.
  rewrite Z.mul_1_r, mod_nonneg by (try apply Z.mod_pos_bound; lia).
  rewrite Z.mod_mod, Z.mod_small by lia. reflexivity.
Qed.

(** X16: for [p > 1] and [vx], [vy] in [[0, p-1]], the point
    [(vx, vy, 1)] has affine coordinates [vx] and [vy], read with nothing
    printed; on a curve with [a, b >= 0], [touches] holds for it exactly
    when [vy^2] and [vx^3 + a vx + b] are congruent modulo [p]. *)
Theorem affine_point_coordinates (this : ECcurve) (vx vy : Z) :
  1 < this.(ECcurve.p) ->
  0 <= vx < this.(ECcurve.p) -> 0 <= vy < this.(ECcurve.p) ->
  get_x (ECpoint.mk this vx vy 1) = (vx, []) /\
  get_y (ECpoint.mk this vx vy 1) = (vy, []) /\
  (0 <= this.(ECcurve.a) -> 0 <= this.(ECcurve.b) ->
   (value (touches this (ECpoint.mk this vx vy 1)) = true <->
    (vy * vy) mod this.(ECcurve.p)
    = (vx * vx * vx + this.(ECcurve.a) * vx + this.(ECcurve.b)) mod this.(ECcurve.p))).
Proof.
  intros Hp Hx Hy.
  assert (Gx : get_x (ECpoint.mk this vx vy 1) = (vx, [])).
  { unfold get_x, BigInt.modPow. cbn [ECpoint.curve ECpoint.x ECpoint.z].
    change (1 ^ 2) with 1. apply field_div_one; assumption. }
  assert (Gy : get_y (ECpoint.mk this vx vy 1) = (vy, [])).
  { unfold get_y, BigInt.modPow. cbn [ECpoint.curve ECpoint.y ECpoint.z].
    change (1 ^ 3) with 1. apply field_div_one; assumption. }
  split; [exact Gx |]. split; [exact Gy |].
  intros Ha Hb. rewrite touches_value, Gx, Gy. cbv zeta. cbn [value fst].
  unfold BigInt.equals, field_mul.
  set (p := this.(ECcurve.p)) in *.
  assert (Hpos : 0 < p) by lia.
  pose proof (Z.mod_pos_bound (vx * vx) p Hpos) as R1.
  rewrite (mod_nonneg (vy * vy)) by nia.
  rewrite (mod_nonneg (vx * vx)) by nia.
  rewrite (mod_nonneg (((vx * vx) mod p + ECcurve.a this) * vx)) by nia.
  pose proof (Z.mod_pos_bound (((vx * vx) mod p + ECcurve.a this) * vx) p Hpos) as R2.
  rewrite mod_nonneg by lia.
  rewrite Zplus_mod_idemp_l.
  replace (((vx * vx) mod p + ECcurve.a this) * vx + ECcurve.b this)
    with ((vx * vx) mod p * vx + (ECcurve.a this * vx + ECcurve.b this)) by ring.
  rewrite <- Zplus_mod_idemp_l, Zmult_mod_idemp_l, Zplus_mod_idemp_l.
  replace (vx * vx * vx + (ECcurve.a this * vx + ECcurve.b this))
    with (vx * vx * vx + ECcurve.a this * vx + ECcurve.b this) by ring.
  apply Z.eqb_eq.
Qed.

Lemma affine_point_coordinates_witness :
  get_x (ECpoint.mk secp256k1 5 9 1) = (5, []) /\
  get_y (ECpoint.mk secp256k1 5 9 1) = (9, []) /\
  (0 <= secp256k1.(ECcurve.a) -> 0 <= secp256k1.(ECcurve.b) ->
   (value (touches secp256k1 (ECpoint.mk secp256k1 5 9 1)) = true <->
    (9 * 9) mod secp256k1.(ECcurve.p)
    = (5 * 5 * 5 + secp256k1.(ECcurve.a) * 5 + secp256k1.(ECcurve.b))
      mod secp256k1.(ECcurve.p))).
Proof.
  apply (affine_point_coordinates secp256k1 5 9);
    [reflexivity | split; [lia | reflexivity] | split; [lia | reflexivity]].
Defined.

(** ** Rescaling a Jacobian triple *)

Lemma coprime_prime this v :
  Z.prime this.(ECcurve.p) -> v mod this.(ECcurve.p) <> 0 ->
  Z.gcd v this.(ECcurve.p) = 1.
Proof.
  intros Hprime Hnz. pose proof (Z.prime_ge_2 _ Hprime).
  rewrite Z.gcd_comm. apply Z.coprime_prime_l; [exact Hprime |].
  intros Hd. apply Hnz. apply Z.mod_divide; [lia | exact Hd].
Qed.

Lemma phi_nonzero_mod this v :
  Z.prime this.(ECcurve.p) -> v mod this.(ECcurve.p) <> 0 -> phi this v <> 0%F.
Proof. intros Hprime Hnz H. apply Hnz. apply (phi_zero_iff this Hprime). exact H. Qed.

Lemma modPow_coprime this v e :
  Z.prime this.(ECcurve.p) -> 0 <= v -> v mod this.(ECcurve.p) <> 0 -> 0 <= e ->
  0 <= BigInt.modPow v e this.(ECcurve.p) /\
  Z.gcd (BigInt.modPow v e this.(ECcurve.p)) this.(ECcurve.p) = 1.
Proof.
  intros Hprime Hv Hnz He. pose proof (Z.prime_ge_2 _ Hprime) as Hp2.
  unfold BigInt.modPow. rewrite mod_nonneg by (try apply Z.pow_nonneg; lia).
  split; [apply Z.mod_pos_bound; lia |].
  rewrite Z.gcd_mod, Z.gcd_comm by lia.
  pose proof (coprime_prime this v Hprime Hnz) as Hg.
  apply Z.coprime_pow_l; [exact He | exact Hg].
Qed.

(** The affine coordinates of a triple with [z] prime to the modulus are
    read without a line on the console. *)
Lemma get_printed this Q :
  Z.prime this.(ECcurve.p) -> Q.(ECpoint.curve) = this ->
  0 <= Q.(ECpoint.x) -> 0 <= Q.(ECpoint.y) -> 0 <= Q.(ECpoint.z) ->
  Q.(ECpoint.z) mod this.(ECcurve.p) <> 0 ->
  printed (get_x Q) = [] /\ printed (get_y Q) = [].
Proof.
  intros Hprime Hc Hx Hy Hz Hnz. pose proof (Z.prime_ge_2 _ Hprime) as Hp2.
  unfold get_x, get_y. rewrite Hc.
  destruct (modPow_coprime this Q.(ECpoint.z) 2 Hprime Hz Hnz ltac:(lia)) as (N2 & G2).
  destruct (modPow_coprime this Q.(ECpoint.z) 3 Hprime Hz Hnz ltac:(lia)) as (N3 & G3).
  destruct (field_div_coprime this _ _ ltac:(lia) Hx N2 G2) as (E2 & _).
  destruct (field_div_coprime this _ _ ltac:(lia) Hy N3 G3) as (E3 & _).
  cbv zeta in E2, E3. rewrite E2, E3. split; reflexivity.
Qed.

(** X17: over a prime [p], multiplying the coordinates of a triple with
    [z] not a multiple of [p] by [l^2], [l^3] and [l], for [l >= 0] not a
    multiple of [p], changes neither [get_x] nor [get_y]. *)
Theorem jacobian_rescaling (this : ECcurve) (Q : ECpoint) (l : Z) :
  Z.prime this.(ECcurve.p) -> Q.(ECpoint.curve) = this ->
  0 <= Q.(ECpoint.x) -> 0 <= Q.(ECpoint.y) -> 0 <= Q.(ECpoint.z) ->
  Q.(ECpoint.z) mod this.(ECcurve.p) <> 0 ->
  0 <= l -> l mod this.(ECcurve.p) <> 0 ->
  let Q' := ECpoint.mk this (l * l * Q.(ECpoint.x)) (l * l * l * Q.(ECpoint.y))
              (l * Q.(ECpoint.z)) in
  get_x Q' = get_x Q /\ get_y Q' = get_y Q.
Proof.
  intros Hprime Hc Hx Hy Hz Hnz Hl Hlnz Q'.
  pose proof (Z.prime_ge_2 _ Hprime) as Hp2.
  assert (Hp : 0 < this.(ECcurve.p)) by lia.
  pose proof (phi_nonzero_mod this _ Hprime Hnz) as Nz.
  pose proof (phi_nonzero_mod this _ Hprime Hlnz) as Nl.
  assert (Hc' : Q'.(ECpoint.curve) = this) by reflexivity.
  assert (Hx' : 0 <= Q'.(ECpoint.x)) by (cbn; nia).
  assert (Hy' : 0 <= Q'.(ECpoint.y)) by (cbn; apply Z.mul_nonneg_nonneg; nia).
  assert (Hz' : 0 <= Q'.(ECpoint.z)) by (cbn; nia).
  assert (Nz' : phi this Q'.(ECpoint.z) <> 0%F).
  { cbn [Q' ECpoint.z]. rewrite (phi_mul this). apply (Fp_mul_nz this Hprime); assumption. }
  assert (Hnz' : Q'.(ECpoint.z) mod this.(ECcurve.p) <> 0).
  { intros H. apply Nz'. apply (phi_zero_iff this Hprime). exact H. }
  destruct (get_printed this Q Hprime Hc Hx Hy Hz Hnz) as (Lx & Ly).
  destruct (get_printed this Q' Hprime Hc' Hx' Hy' Hz' Hnz') as (Lx' & Ly').
  assert (Vx : value (get_x Q') = value (get_x Q)).
  { apply (phi_inj this).
    - unfold get_x. rewrite Hc'. apply field_div_range; assumption.
    - unfold get_x. rewrite Hc. apply field_div_range; assumption.
    - rewrite (phi_get_x this Hprime Q' Hc' Nz'), (phi_get_x this Hprime Q Hc Nz).
      cbn [Q' ECpoint.x ECpoint.z]. rewrite !(phi_mul this).
      apply (rescale_x _ _ _ _ _ _ _ _ _ (Fp_theory this Hprime)); assumption. }
  assert (Vy : value (get_y Q') = value (get_y Q)).
  { apply (phi_inj this).
    - unfold get_y. rewrite Hc'. apply field_div_range; assumption.
    - unfold get_y. rewrite Hc. apply field_div_range; assumption.
    - rewrite (phi_get_y this Hprime Q' Hc' Hz' Nz'), (phi_get_y this Hprime Q Hc Hz Nz).
      cbn [Q' ECpoint.y ECpoint.z]. rewrite !(phi_mul this).
      apply (rescale_y _ _ _ _ _ _ _ _ _ (Fp_theory this Hprime)); assumption. }
  unfold value, printed in *.
  destruct (get_x Q') as [a1 b1], (get_x Q) as [a2 b2],
           (get_y Q') as [a3 b3], (get_y Q) as [a4 b4].
  cbn [fst snd] in *. subst. split; reflexivity.
Qed.

Lemma jacobian_rescaling_witness :
  let this := ECcurve.mk 13 0 7 7 in
  let Q := ECpoint.mk this 7 5 1 in
  let Q' := ECpoint.mk this (3 * 3 * Q.(ECpoint.x)) (3 * 3 * 3 * Q.(ECpoint.y))
              (3 * Q.(ECpoint.z)) in
  get_x Q' = get_x Q /\ get_y Q' = get_y Q.
Proof.
  intros this Q.
  apply (jacobian_rescaling this Q 3);
    [exact prime_13 | reflexivity | cbn; lia | cbn; lia | cbn; lia
    | discriminate | lia | discriminate].
Defined.

(** ** [double], [add] and [mul] on any triple *)

(** X18: for every triple [Q], [add Q Q] is [double Q]. *)
Theorem add_self_is_double (this : ECcurve) (Q : ECpoint) :
  add this Q Q = double this Q.
Proof.
  unfold add, double, BigInt.equals.
  destruct (Z.eqb_spec Q.(ECpoint.x) this.(ECcurve.p)) as [_ | _]; [reflexivity |].
  cbv zeta. rewrite !Z.eqb_refl. reflexivity.
Qed.

Lemma double_identity_like this Q :
  is_identity this Q = true -> double this Q = Q.
Proof. unfold is_identity, double. intros ->. reflexivity. Qed.

Lemma add_identity_like_l this Q1 Q2 :
  is_identity this Q1 = true -> add this Q1 Q2 = Q2.
Proof. unfold is_identity, add. intros ->. reflexivity. Qed.

Lemma mul_loop_S this fuel R Q m :
  m <> 0 ->
  mul_loop this (S fuel) R Q m
  = mul_loop this fuel
      (if BigInt.equals (BigInt.and m 1) 1 then add this R Q else R)
      (if negb (BigInt.equals (BigInt.shiftRight m 1) 0) then double this Q else Q)
      (BigInt.shiftRight m 1).
Proof.
  intros Hm. cbn [mul_loop]. unfold BigInt.equals at 1.
  destruct (Z.eqb_spec m 0) as [E | _]; [contradiction | reflexivity].
Qed.

Lemma mul_loop_power_of_two this k : forall fuel Q,
  (k < fuel)%nat ->
  mul_loop this fuel (identity this) Q (2 ^ Z.of_nat k)
  = Some (Nat.iter k (double this) Q).
Proof.
  induction k as [| k IH]; intros fuel Q Hf.
  - destruct fuel as [| fuel]; [lia |].
    change (2 ^ Z.of_nat 0) with 1. rewrite mul_loop_S by lia.
    change (BigInt.shiftRight 1 1) with 0. change (BigInt.and 1 1) with 1.
    unfold BigInt.equals. cbn [Z.eqb Pos.eqb negb].
    rewrite mul_loop_zero, add_identity_like_l by apply is_identity_identity.
    reflexivity.
  - destruct fuel as [| fuel]; [lia |].
    assert (Hpos : 0 < 2 ^ Z.of_nat k) by (apply Z.pow_pos_nonneg; lia).
    assert (Hsh : BigInt.shiftRight (2 ^ Z.of_nat (S k)) 1 = 2 ^ Z.of_nat k).
    { unfold BigInt.shiftRight. rewrite Z.shiftr_div_pow2 by lia. change (2 ^ 1) with 2.
      rewrite Nat2Z.inj_succ, Z.pow_succ_r by lia.
      rewrite Z.mul_comm, Z.div_mul by lia. reflexivity. }
    assert (Hand : BigInt.equals (BigInt.and (2 ^ Z.of_nat (S k)) 1) 1 = false).
    { rewrite land_1_odd. rewrite Nat2Z.inj_succ, Z.pow_succ_r by lia.
      rewrite Z.odd_mul. reflexivity. }
    rewrite mul_loop_S by (rewrite Nat2Z.inj_succ, Z.pow_succ_r; lia).
    rewrite Hsh, Hand. unfold BigInt.equals.
    destruct (Z.eqb_spec (2 ^ Z.of_nat k) 0) as [E | _]; [lia |]. cbn [negb].
    rewrite IH by lia. rewrite Nat.iter_succ_r. reflexivity.
Qed.

(** X19: for every triple [Q] and every [k], [mul Q (2^k)] is [Q]
    doubled [k] times; in particular [mul Q 1 = Q] and
    [mul Q 2 = double Q]. *)
Theorem mul_power_of_two (this : ECcurve) (Q : ECpoint) (k : nat) :
  mul this Q (2 ^ Z.of_nat k) = Some (Nat.iter k (double this) Q).
Proof.
  unfold mul. apply mul_loop_power_of_two.
  unfold mul_fuel. rewrite Z.log2_pow2 by lia. lia.
Qed.

Lemma mul_loop_identity_like this Q :
  is_identity this Q = true ->
  forall fuel R m,
    R = identity this \/ R = Q -> 0 <= m < 2 ^ Z.of_nat fuel ->
    mul_loop this fuel R Q m = Some (if m =? 0 then R else Q).
Proof.
  intros Hid. induction fuel as [| fuel IH]; intros R m HR Hm.
  - assert (m = 0) as -> by (cbn in Hm; lia). reflexivity.
  - destruct (Z.eqb_spec m 0) as [-> | Hnz]; [apply mul_loop_zero |].
    rewrite mul_loop_S by exact Hnz. rewrite land_1_odd.
    assert (HQ : (if negb (BigInt.equals (BigInt.shiftRight m 1) 0)
                  then double this Q else Q) = Q).
    { destruct (negb _); [apply double_identity_like; exact Hid | reflexivity]. }
    rewrite HQ.
    assert (HR1 : (if Z.odd m then add this R Q else R) = if Z.odd m then Q else R).
    { destruct (Z.odd m); [| reflexivity].
      destruct HR as [-> | ->];
        apply add_identity_like_l; [apply is_identity_identity | exact Hid]. }
    rewrite HR1.
    assert (Hhalf : 0 <= BigInt.shiftRight m 1 < 2 ^ Z.of_nat fuel).
    { unfold BigInt.shiftRight. rewrite Z.shiftr_div_pow2 by lia. change (2 ^ 1) with 2.
      rewrite Nat2Z.inj_succ, Z.pow_succ_r in Hm by lia.
      split; [apply Z.div_pos; lia | apply Z.div_lt_upper_bound; lia]. }
    rewrite IH; [| destruct (Z.odd m); [right; reflexivity | exact HR] | exact Hhalf].
    destruct (Z.eqb_spec (BigInt.shiftRight m 1) 0) as [E | _]; [| reflexivity].
    assert (m = 1) as ->.
    { unfold BigInt.shiftRight in E. rewrite Z.shiftr_div_pow2 in E by lia.
      change (2 ^ 1) with 2 in E.
      pose proof (Z.div_mod m 2 ltac:(lia)). pose proof (Z.mod_pos_bound m 2 ltac:(lia)).
      lia. }
    reflexivity.
Qed.

(** X20: a triple with [x = p] is taken for the identity whatever its [y]
    and [z] are: for [m >= 0], [mul Q m] returns the identity for [m = 0]
    and [Q] itself otherwise; every multiple of the identity is the
    identity. *)
Theorem mul_identity_like (this : ECcurve) (Q : ECpoint) (m : Z) :
  is_identity this Q = true -> 0 <= m ->
  mul this Q m = Some (if m =? 0 then identity this else Q) /\
  mul this (identity this) m = Some (identity this).
Proof.
  intros Hid Hm. split.
  - unfold mul. apply mul_loop_identity_like;
      [exact Hid | left; reflexivity | apply mul_fuel_bound; exact Hm].
  - unfold mul. rewrite mul_loop_identity_like;
      [| apply is_identity_identity | left; reflexivity | apply mul_fuel_bound; exact Hm].
    destruct (m =? 0); reflexivity.
Qed.

Lemma mul_identity_like_witness :
  let Q := ECpoint.mk secp256k1 secp256k1.(ECcurve.p) 5 7 in
  mul secp256k1 Q 6 = Some (if 6 =? 0 then identity secp256k1 else Q) /\
  mul secp256k1 (identity secp256k1) 6 = Some (identity secp256k1).
Proof.
  intros Q. apply (mul_identity_like secp256k1 Q 6); [reflexivity | lia].
Defined.

(** X21: for [p > 1], [double] of a triple other than the identity is
    never recognised as the identity; for a triple with [y = 0] or [z = 0]
    it returns a triple with [z = 0], whose affine coordinates are read as
    0 with the line [No inverse found] printed. *)
Theorem double_never_identity (this : ECcurve) (Q : ECpoint) :
  1 < this.(ECcurve.p) -> is_identity this Q = false ->
  is_identity this (double this Q) = false /\
  (Q.(ECpoint.y) = 0 \/ Q.(ECpoint.z) = 0 ->
   (double this Q).(ECpoint.z) = 0 /\
   get_x (double this Q) = (0, ["No inverse found"%string]) /\
   get_y (double this Q) = (0, ["No inverse found"%string])).
Proof.
  intros Hp Hid. unfold is_identity in Hid.
  assert (Hc : (double this Q).(ECpoint.curve) = this)
    by (unfold double; rewrite Hid; reflexivity).
  split.
  - unfold is_identity, double. rewrite Hid. cbv zeta. cbn [ECpoint.x].
    unfold BigInt.equals. apply Z.eqb_neq.
    match goal with |- ?v <> _ =>
      assert (Hr : 0 <= v < this.(ECcurve.p)) by (apply renorm_idiom_range; lia) end.
    lia.
  - intros Hyz.
    assert (Hz : (double this Q).(ECpoint.z) = 0).
    { unfold double. rewrite Hid. cbv zeta. cbn [ECpoint.z].
      assert (E : Q.(ECpoint.z) * Q.(ECpoint.y) * 2 = 0) by (destruct Hyz as [-> | ->]; ring).
      rewrite E. unfold BigInt.mod_, BigInt.divmod. cbn [snd]. apply Z.rem_0_l. lia. }
    split; [exact Hz |].
    unfold get_x, get_y. rewrite Hc, Hz. unfold BigInt.modPow.
    change (0 ^ 2) with 0. change (0 ^ 3) with 0.
    assert (H0 : BigInt.mod_ 0 this.(ECcurve.p) = 0)
      by (unfold BigInt.mod_, BigInt.divmod; cbn [snd]; apply Z.rem_0_l; lia).
    rewrite H0.
    split; apply field_div_multiple; try exact Hp; apply Z.mod_0_l; lia.
Qed.

Lemma double_never_identity_witness :
  let this := ECcurve.mk 5 4 0 2 in
  let Q := ECpoint.mk this 0 0 1 in
  is_identity this (double this Q) = false /\
  (Q.(ECpoint.y) = 0 \/ Q.(ECpoint.z) = 0 ->
   (double this Q).(ECpoint.z) = 0 /\
   get_x (double this Q) = (0, ["No inverse found"%string]) /\
   get_y (double this Q) = (0, ["No inverse found"%string])).
Proof.
  intros this Q. apply (double_never_identity this Q); reflexivity.
Defined.



Lemma finite_on_the_curve this Q :
  Z.prime this.(ECcurve.p) -> finite_on_curve this Q -> on_the_curve this Q.
Proof.
  intros Hprime (Hc & Hcan & Hz & Ht). apply touches_on_the_curve; assumption.
Qed.

(** On a curve with coefficients [a, b >= 0], [touches] accepts every
    finite point of the curve. *)
Lemma on_the_curve_finite this Q :
  Z.prime this.(ECcurve.p) -> 0 <= this.(ECcurve.a) -> 0 <= this.(ECcurve.b) ->
  on_the_curve this Q -> is_identity this Q = false -> finite_on_curve this Q.
Proof.
  intros Hprime Ha Hb (Hc & [Hid | (Hcan & Hz & E)]) Hfin; [congruence |].
  split; [exact Hc |]. split; [exact Hcan |]. split; [exact Hz |].
  pose proof (prime_pos this Hprime) as Hp.
  rewrite (interp_affine this Hprime Q Hc Hcan Hz) in E.
  unfold curve_on in E. cbn [on_curve] in E.
  pose proof (get_x_range this Hprime Q Hc ltac:(apply Hcan)) as Rx.
  pose proof (get_y_range this Hprime Q Hc ltac:(apply Hcan)) as Ry.
  rewrite touches_value. cbv zeta.
  set (gx := value (get_x Q)) in *. set (gy := value (get_y Q)) in *.
  unfold BigInt.equals. apply Z.eqb_eq.
  unfold field_mul.
  pose proof (mod_nonneg_range (gx * gx) _ ltac:(nia) Hp) as R1.
  pose proof (mod_nonneg_range ((BigInt.mod_ (gx * gx) this.(ECcurve.p) + this.(ECcurve.a)) * gx)
                _ ltac:(nia) Hp) as R2.
  apply (phi_inj this).
  - apply mod_nonneg_range; [nia | exact Hp].
  - apply mod_nonneg_range; [lia | exact Hp].
  - rewrite !(phi_mod this Hprime), (phi_add this), (phi_mod this Hprime),
      !(phi_mul this), (phi_add this), (phi_mod this Hprime), (phi_mul this).
    rewrite E. apply (horner_cubic _ _ _ _ _ _ _ _ _ (Fp_theory this Hprime)).
Qed.

(** X22: on a curve over a prime [p > 2] with no point of order 2, for
    finite points [P], [Q], [R] that pass [touches]: [add P Q] and
    [add Q P] are the same curve point, and so are [add (add P Q) R] and
    [add P (add Q R)]. *)
Theorem add_commutative_associative (this : ECcurve) (P Q R : ECpoint) :
  group_curve this ->
  finite_on_curve this P -> finite_on_curve this Q -> finite_on_curve this R ->
  same_point this (add this P Q) (add this Q P) /\
  same_point this (add this (add this P Q) R) (add this P (add this Q R)).
Proof.
  intros (Hprime & Hodd & Hno2) HP HQ HR.
  apply (finite_on_the_curve this _ Hprime) in HP, HQ, HR.
  destruct (add_correct this Hprime Hodd Hno2 P Q HP HQ) as (Hpq & Epq).
  destruct (add_correct this Hprime Hodd Hno2 Q P HQ HP) as (Hqp & Eqp).
  destruct (add_correct this Hprime Hodd Hno2 Q R HQ HR) as (Hqr & Eqr).
  destruct (add_correct this Hprime Hodd Hno2 _ R Hpq HR) as (Hl & El).
  destruct (add_correct this Hprime Hodd Hno2 P _ HP Hqr) as (Hr & Er).
  split; apply (interp_same_point this Hprime); try assumption.
  - rewrite Epq, Eqp. unfold curve_add.
    apply (cadd_comm _ _ _ _ _ _ _ _ _ _ _ (Fp_theory this Hprime) (Fp_eqb_spec this)).
  - rewrite El, Er, Epq, Eqr.
    apply (curve_add_assoc this Hprime Hodd Hno2); apply interp_on; assumption.
Qed.

(** The curve [y^2 = x^3 + 7] over the integers modulo 13 and three of
    its points. *)
Lemma group_curve_13 : group_curve (ECcurve.mk 13 0 7 7).
Proof. split; [exact prime_13 | split; [reflexivity | exact no_point_of_order_two_13]]. Qed.

Lemma finite_on_curve_13 (vx vy : Z) :
  (vx = 7 \/ vx = 8 \/ vx = 11) -> (vy = 5 \/ vy = 8) ->
  finite_on_curve (ECcurve.mk 13 0 7 7) (ECpoint.mk (ECcurve.mk 13 0 7 7) vx vy 1).
Proof.
  intros [-> | [-> | ->]] [-> | ->];
    (split; [reflexivity |]; split; [unfold canonical; cbn; lia |];
     split; [discriminate | reflexivity]).
Qed.

Lemma add_commutative_associative_witness :
  let this := ECcurve.mk 13 0 7 7 in
  let P := ECpoint.mk this 7 5 1 in
  let Q := ECpoint.mk this 8 5 1 in
  let R := ECpoint.mk this 11 8 1 in
  same_point this (add this P Q) (add this Q P) /\
  same_point this (add this (add this P Q) R) (add this P (add this Q R)).
Proof.
  intros this P Q R.
  apply (add_commutative_associative this P Q R);
    [exact group_curve_13 | apply finite_on_curve_13; auto ..].
Defined.

(** X23: on such a curve with [a, b >= 0], for finite points [Q1], [Q2]
    that pass [touches] and [m >= 0]: [double Q1] is a finite point that
    passes [touches]; [add Q1 Q2], and the point [mul Q1 m] returns, are the
    identity or a finite point that passes [touches]. *)
Theorem operations_stay_on_curve (this : ECcurve) (Q1 Q2 : ECpoint) (m : Z) :
  group_curve this -> 0 <= this.(ECcurve.a) -> 0 <= this.(ECcurve.b) ->
  finite_on_curve this Q1 -> finite_on_curve this Q2 -> 0 <= m ->
  finite_on_curve this (double this Q1) /\
  (is_identity this (add this Q1 Q2) = true \/ finite_on_curve this (add this Q1 Q2)) /\
  exists R, mul this Q1 m = Some R /\
            (is_identity this R = true \/ finite_on_curve this R).
Proof.
  intros (Hprime & Hodd & Hno2) Ha Hb H1 H2 Hm.
  pose proof (prime_pos this Hprime) as Hp.
  pose proof H1 as (_ & Hcan1 & _).
  apply (finite_on_the_curve this _ Hprime) in H1, H2.
  destruct (double_correct this Hprime Hodd Hno2 Q1 H1) as (Hd & _).
  destruct (add_correct this Hprime Hodd Hno2 Q1 Q2 H1 H2) as (Hs & _).
  destruct (mul_correct this Hprime Hodd Hno2 Q1 m H1 Hm) as (R & HR & HRc & _).
  split; [| split].
  - apply on_the_curve_finite; try assumption.
    apply canonical_finite. apply double_canonical; assumption.
  - destruct (is_identity this (add this Q1 Q2)) eqn:Hid; [left; reflexivity |].
    right. apply on_the_curve_finite; assumption.
  - exists R. split; [exact HR |].
    destruct (is_identity this R) eqn:Hid; [left; reflexivity |].
    right. apply on_the_curve_finite; assumption.
Qed.

Lemma operations_stay_on_curve_witness :
  let this := ECcurve.mk 13 0 7 7 in
  let Q1 := ECpoint.mk this 7 5 1 in
  let Q2 := ECpoint.mk this 8 5 1 in
  finite_on_curve this (double this Q1) /\
  (is_identity this (add this Q1 Q2) = true \/ finite_on_curve this (add this Q1 Q2)) /\
  exists R, mul this Q1 5 = Some R /\
            (is_identity this R = true \/ finite_on_curve this R).
Proof.
  intros this Q1 Q2.
  apply (operations_stay_on_curve this Q1 Q2 5);
    [exact group_curve_13 | cbn; lia | cbn; lia
    | apply finite_on_curve_13; auto | apply finite_on_curve_13; auto | lia].
Defined.

(** Multiples of multiples. *)
Lemma curve_mul_mul this (Hprime : Z.prime this.(ECcurve.p))
  (Hodd : 2 < this.(ECcurve.p)) (Hno2 : no_point_of_order_two this)
  (j k : nat) (P : cpoint (Zmod this.(ECcurve.p))) :
  curve_on this P ->
  curve_mul this k (curve_mul this j P) = curve_mul this (j * k) P.
Proof.
  intros EP. induction k as [| k IH].
  - rewrite Nat.mul_0_r. reflexivity.
  - rewrite Nat.mul_succ_r, Nat.add_comm.
    rewrite (curve_mul_add this Hprime Hodd Hno2 j (j * k) P EP), <- IH.
    reflexivity.
Qed.

(** X24: on such a curve, for a finite point [G] that passes [touches]
    and scalars [a, b >= 0]: [mul (mul G b) a] and [mul (mul G a) b] are
    the same curve point, which is [mul G (a * b)]; the two sides of a key
    exchange obtain the same point. *)
Theorem shared_secret (this : ECcurve) (G : ECpoint) (a b : Z) :
  group_curve this -> finite_on_curve this G -> 0 <= a -> 0 <= b ->
  exists A B Ka Kb K,
    mul this G a = Some A /\ mul this G b = Some B /\
    mul this B a = Some Ka /\ mul this A b = Some Kb /\
    mul this G (a * b) = Some K /\
    same_point this Ka Kb /\ same_point this Ka K.
Proof.
  intros (Hprime & Hodd & Hno2) HG Ha Hb.
  apply (finite_on_the_curve this _ Hprime) in HG.
  pose proof (interp_on this G HG) as EG.
  destruct (mul_correct this Hprime Hodd Hno2 G a HG Ha) as (A & MA & HA & EA).
  destruct (mul_correct this Hprime Hodd Hno2 G b HG Hb) as (B & MB & HB & EB).
  destruct (mul_correct this Hprime Hodd Hno2 B a HB Ha) as (Ka & MKa & HKa & EKa).
  destruct (mul_correct this Hprime Hodd Hno2 A b HA Hb) as (Kb & MKb & HKb & EKb).
  destruct (mul_correct this Hprime Hodd Hno2 G (a * b) HG ltac:(nia)) as (K & MK & HK & EK).
  exists A, B, Ka, Kb, K. repeat (split; [assumption |]).
  rewrite EB, (curve_mul_mul this Hprime Hodd Hno2 _ _ _ EG) in EKa.
  rewrite EA, (curve_mul_mul this Hprime Hodd Hno2 _ _ _ EG) in EKb.
  rewrite Z2Nat.inj_mul in EK by assumption.
  split; apply (interp_same_point this Hprime); try assumption.
  - rewrite EKa, EKb, Nat.mul_comm. reflexivity.
  - rewrite EKa, EK, Nat.mul_comm. reflexivity.
Qed.

Lemma shared_secret_witness :
  let this := ECcurve.mk 13 0 7 7 in
  let G := ECpoint.mk this 7 5 1 in
  exists A B Ka Kb K,
    mul this G 3 = Some A /\ mul this G 5 = Some B /\
    mul this B 3 = Some Ka /\ mul this A 5 = Some Kb /\
    mul this G (3 * 5) = Some K /\
    same_point this Ka Kb /\ same_point this Ka K.
Proof.
  intros this G.
  apply (shared_secret this G 3 5);
    [exact group_curve_13 | apply finite_on_curve_13; auto | lia | lia].
Defined.

(** X25: over a prime [p > 2], for a triple [Q] with coordinates in
    [[0, p-1]], [y] and [z] not 0: [add Q (x, p - y, z)] is the identity. *)
Theorem add_opposite_jacobian (this : ECcurve) (Q : ECpoint) :
  Z.prime this.(ECcurve.p) -> 2 < this.(ECcurve.p) ->
  canonical this Q -> Q.(ECpoint.y) <> 0 -> Q.(ECpoint.z) <> 0 ->
  add this Q (ECpoint.mk this Q.(ECpoint.x) (this.(ECcurve.p) - Q.(ECpoint.y))
                Q.(ECpoint.z))
  = identity this.
Proof.
  intros Hprime Hodd (Hx & Hy & Hz) Hynz Hznz.
  pose proof (prime_pos this Hprime) as Hp.
  unfold add, BigInt.equals. cbn [ECpoint.x ECpoint.y ECpoint.z].
  destruct (Z.eqb_spec Q.(ECpoint.x) this.(ECcurve.p)) as [E | _]; [lia |].
  cbv zeta. rewrite Z.eqb_refl.
  match goal with |- (if ?u =? ?v then _ else _) = _ =>
    destruct (Z.eqb_spec u v) as [E | _]; [exfalso | reflexivity] end.
  apply (f_equal (phi this)) in E.
  rewrite !(phi_mod this Hprime), !(phi_mul this), (phi_sub this) in E.
  assert (Hpz : phi this this.(ECcurve.p) = 0%F)
    by (apply (phi_zero_iff this Hprime); apply Z.mod_same; lia).
  rewrite Hpz in E.
  rewrite <- !Zmod.mul_assoc in E.
  apply (opposite_products _ _ _ _ _ _ _ _ _ (Fp_theory this Hprime)) in E.
  assert (Ny : phi this Q.(ECpoint.y) <> 0%F) by (apply (phi_nonzero this Hprime); lia).
  assert (Nz : phi this Q.(ECpoint.z) <> 0%F) by (apply (phi_nonzero this Hprime); lia).
  revert E. repeat apply (Fp_mul_nz this Hprime); try assumption.
  exact (two_nonzero this Hprime Hodd).
Qed.

Lemma add_opposite_jacobian_witness :
  let this := ECcurve.mk 13 0 7 7 in
  let Q := ECpoint.mk this 2 1 3 in
  add this Q (ECpoint.mk this Q.(ECpoint.x) (this.(ECcurve.p) - Q.(ECpoint.y))
                Q.(ECpoint.z))
  = identity this.
Proof.
  intros this Q.
  apply (add_opposite_jacobian this Q);
    [exact prime_13 | reflexivity | unfold canonical; cbn; lia | discriminate | discriminate].
Defined.



(** X26: over a prime [p], on a curve with [a, b >= 0], for a triple with
    coordinates in [[0, p-1]] and [z] not 0: [touches] prints nothing and
    holds exactly when [y^2] and [x^3 + a x z^4 + b z^6] are congruent
    modulo [p]. *)
Theorem touches_jacobian (this : ECcurve) (Q : ECpoint) :
  Z.prime this.(ECcurve.p) -> 0 <= this.(ECcurve.a) -> 0 <= this.(ECcurve.b) ->
  Q.(ECpoint.curve) = this -> canonical this Q -> Q.(ECpoint.z) <> 0 ->
  let vx := Q.(ECpoint.x) in
  let vy := Q.(ECpoint.y) in
  let vz := Q.(ECpoint.z) in
  touches this Q
  = ((vy ^ 2) mod this.(ECcurve.p)
     =? (vx ^ 3 + this.(ECcurve.a) * vx * vz ^ 4 + this.(ECcurve.b) * vz ^ 6)
        mod this.(ECcurve.p),
     []).
Proof.
  intros Hprime Ha Hb Hc Hcan Hz vx vy vz.
  pose proof (prime_pos this Hprime) as Hp.
  assert (Hznz : vz mod this.(ECcurve.p) <> 0)
    by (rewrite Z.mod_small by apply Hcan; exact Hz).
  pose proof (phi_nonzero_mod this _ Hprime Hznz) as Nz.
  destruct (get_printed this Q Hprime Hc ltac:(apply Hcan) ltac:(apply Hcan)
              ltac:(apply Hcan) Hznz) as (Lx & Ly).
  pose proof (get_x_range this Hprime Q Hc ltac:(apply Hcan)) as Rx.
  pose proof (get_y_range this Hprime Q Hc ltac:(apply Hcan)) as Ry.
  pose proof (phi_get_x this Hprime Q Hc Nz) as Px.
  pose proof (phi_get_y this Hprime Q Hc ltac:(apply Hcan) Nz) as Py.
  assert (Hl : printed (touches this Q) = []).
  { unfold touches, bind, ret, printed in *.
    destruct (get_x Q) as [gx lx], (get_y Q) as [gy ly]. cbn [snd] in *.
    subst. reflexivity. }
  assert (Hv : value (touches this Q)
               = ((vy ^ 2) mod this.(ECcurve.p)
                  =? (vx ^ 3 + this.(ECcurve.a) * vx * vz ^ 4 + this.(ECcurve.b) * vz ^ 6)
                     mod this.(ECcurve.p))).
  { rewrite touches_value. cbv zeta.
    set (gx := value (get_x Q)) in *. set (gy := value (get_y Q)) in *.
    unfold BigInt.equals, field_mul.
    pose proof (mod_nonneg_range (gx * gx) _ ltac:(nia) Hp) as R1.
    pose proof (mod_nonneg_range
                  ((BigInt.mod_ (gx * gx) this.(ECcurve.p) + this.(ECcurve.a)) * gx)
                  _ ltac:(nia) Hp) as R2.
    pose proof (mod_nonneg_range (gy * gy) _ ltac:(nia) Hp) as R3.
    pose proof (mod_nonneg_range
                  (BigInt.mod_ ((BigInt.mod_ (gx * gx) this.(ECcurve.p) + this.(ECcurve.a)) * gx)
                     this.(ECcurve.p) + this.(ECcurve.b)) _ ltac:(lia) Hp) as R4.
    pose proof (Z.mod_pos_bound (vy ^ 2) _ Hp) as R5.
    pose proof (Z.mod_pos_bound
                  (vx ^ 3 + this.(ECcurve.a) * vx * vz ^ 4 + this.(ECcurve.b) * vz ^ 6)
                  _ Hp) as R6.
    apply eq_true_iff_eq. rewrite !Z.eqb_eq.
    assert (Hiff : forall u v, 0 <= u < this.(ECcurve.p) -> 0 <= v < this.(ECcurve.p) ->
                               (u = v <-> phi this u = phi this v)).
    { intros u v Hu Hv'. split; [intros ->; reflexivity | apply (phi_inj this); assumption]. }
    rewrite (Hiff _ _ R3 R4), (Hiff _ _ R5 R6).
    rewrite !(phi_mod this Hprime), (phi_add this), (phi_mod this Hprime),
      !(phi_mul this), (phi_add this), (phi_mod this Hprime), (phi_mul this).
    rewrite !(phi_floor_mod this), !(phi_add this), !(phi_mul this).
    change (vy ^ 2) with (vy * (vy * 1)). change (vx ^ 3) with (vx * (vx * (vx * 1))).
    change (vz ^ 4) with (vz * (vz * (vz * (vz * 1)))).
    change (vz ^ 6) with (vz * (vz * (vz * (vz * (vz * (vz * 1)))))).
    rewrite !Z.mul_1_r, !(phi_mul this). fold gx gy in Px, Py. rewrite Px, Py.
    fold vx vy vz.
    rewrite (jacobian_equation _ _ _ _ _ _ _ _ _ (Fp_theory this Hprime)
               (phi this vx) (phi this vy) (phi this vz)
               (phi this this.(ECcurve.a)) (phi this this.(ECcurve.b)) Nz).
    cbv zeta.
    assert (Hring : forall u v w : Zmod this.(ECcurve.p), (u * (v * w) = u * v * w)%F)
      by (intros; apply Zmod.mul_assoc).
    rewrite !Hring. reflexivity. }
  destruct (touches this Q) as [v l]. cbn [value printed fst snd] in *. subst. reflexivity.
Qed.

Lemma touches_jacobian_witness :
  let this := ECcurve.mk 13 0 7 7 in
  let Q := ECpoint.mk this 2 1 3 in
  touches this Q
  = ((1 ^ 2) mod 13 =? (2 ^ 3 + 0 * 2 * 3 ^ 4 + 7 * 3 ^ 6) mod 13, []).
Proof.
  intros this Q.
  apply (touches_jacobian this Q);
    [exact prime_13 | cbn; lia | cbn; lia | reflexivity | unfold canonical; cbn; lia
    | discriminate].
Defined.

(** X27: on a curve over a prime [p > 2] with no point of order 2, for a
    finite point [G] that passes [touches]: if [mul G n] is the identity
    then [mul G (k + n)] and [mul G k] are the same curve point, for
    [k, n >= 0]. *)
Theorem mul_periodic (this : ECcurve) (G : ECpoint) (k n : Z) :
  group_curve this -> finite_on_curve this G -> 0 <= k -> 0 <= n ->
  (exists O, mul this G n = Some O /\ is_identity this O = true) ->
  exists R1 R2,
    mul this G (k + n) = Some R1 /\ mul this G k = Some R2 /\ same_point this R1 R2.
Proof.
  intros (Hprime & Hodd & Hno2) HG Hk Hn (O & MO & HO).
  apply (finite_on_the_curve this _ Hprime) in HG.
  pose proof (interp_on this G HG) as EG.
  destruct (mul_correct this Hprime Hodd Hno2 G n HG Hn) as (O' & MO' & _ & EO).
  assert (O' = O) by congruence. subst O'.
  rewrite (interp_identity this O HO) in EO.
  destruct (mul_correct this Hprime Hodd Hno2 G k HG Hk) as (R2 & M2 & H2 & E2).
  destruct (mul_correct this Hprime Hodd Hno2 G (k + n) HG ltac:(lia)) as (R1 & M1 & H1 & E1).
  exists R1, R2. repeat (split; [assumption |]).
  apply (interp_same_point this Hprime); try assumption.
  rewrite E1, E2, Z2Nat.inj_add by assumption.
  rewrite (curve_mul_add this Hprime Hodd Hno2 _ _ _ EG), <- EO.
  unfold curve_add. apply cadd_inf_r.
Qed.

Lemma mul_periodic_witness :
  let this := ECcurve.mk 13 0 7 7 in
  let G := ECpoint.mk this 7 5 1 in
  exists R1 R2,
    mul this G (4 + 7) = Some R1 /\ mul this G 4 = Some R2 /\ same_point this R1 R2.
Proof.
  intros this G.
  apply (mul_periodic this G 4 7);
    [exact group_curve_13 | apply finite_on_curve_13; auto | lia | lia |].
  exists (identity this). split; reflexivity.
Defined.

(** Multiples of a sum. *)
Lemma curve_mul_sum this (Hprime : Z.prime this.(ECcurve.p))
  (Hodd : 2 < this.(ECcurve.p)) (Hno2 : no_point_of_order_two this)
  (k : nat) (P Q : cpoint (Zmod this.(ECcurve.p))) :
  curve_on this P -> curve_on this Q ->
  curve_mul this k (curve_add this P Q)
  = curve_add this (curve_mul this k P) (curve_mul this k Q).
Proof.
  intros EP EQ.
  assert (Hassoc := curve_add_assoc this Hprime Hodd Hno2).
  assert (Hon := curve_add_on this Hprime Hodd Hno2).
  assert (Hcomm : forall A B, curve_add this A B = curve_add this B A).
  { intros A B. unfold curve_add.
    apply (cadd_comm _ _ _ _ _ _ _ _ _ _ _ (Fp_theory this Hprime) (Fp_eqb_spec this)). }
  induction k as [| k IH]; [reflexivity |].
  pose proof (curve_mul_on this Hprime Hodd Hno2 k P EP) as EkP.
  pose proof (curve_mul_on this Hprime Hodd Hno2 k Q EQ) as EkQ.
  change (curve_mul this (S k) ?X) with (curve_add this X (curve_mul this k X)).
  rewrite IH.
  rewrite (Hassoc P Q _ EP EQ (Hon _ _ EkP EkQ)).
  rewrite <- (Hassoc Q _ _ EQ EkP EkQ).
  rewrite (Hcomm Q (curve_mul this k P)).
  rewrite (Hassoc _ Q _ EkP EQ EkQ).
  rewrite <- (Hassoc P _ _ EP EkP (Hon _ _ EQ EkQ)).
  reflexivity.
Qed.

(** X28: on such a curve, for finite points [P], [Q] that pass [touches]
    and [k >= 0]: [mul (add P Q) k] is the same curve point as
    [add (mul P k) (mul Q k)]. *)
Theorem mul_of_sum (this : ECcurve) (P Q : ECpoint) (k : Z) :
  group_curve this -> finite_on_curve this P -> finite_on_curve this Q -> 0 <= k ->
  exists RP RQ RS,
    mul this P k = Some RP /\ mul this Q k = Some RQ /\
    mul this (add this P Q) k = Some RS /\
    same_point this RS (add this RP RQ).
Proof.
  intros (Hprime & Hodd & Hno2) HP HQ Hk.
  apply (finite_on_the_curve this _ Hprime) in HP, HQ.
  destruct (add_correct this Hprime Hodd Hno2 P Q HP HQ) as (HS & ES).
  destruct (mul_correct this Hprime Hodd Hno2 P k HP Hk) as (RP & MP & HRP & ERP).
  destruct (mul_correct this Hprime Hodd Hno2 Q k HQ Hk) as (RQ & MQ & HRQ & ERQ).
  destruct (mul_correct this Hprime Hodd Hno2 _ k HS Hk) as (RS & MS & HRS & ERS).
  destruct (add_correct this Hprime Hodd Hno2 RP RQ HRP HRQ) as (HA & EA).
  exists RP, RQ, RS. repeat (split; [assumption |]).
  apply (interp_same_point this Hprime); try assumption.
  rewrite ERS, EA, ERP, ERQ, ES.
  apply (curve_mul_sum this Hprime Hodd Hno2); apply interp_on; assumption.
Qed.

Lemma mul_of_sum_witness :
  let this := ECcurve.mk 13 0 7 7 in
  let P := ECpoint.mk this 7 5 1 in
  let Q := ECpoint.mk this 8 5 1 in
  exists RP RQ RS,
    mul this P 3 = Some RP /\ mul this Q 3 = Some RQ /\
    mul this (add this P Q) 3 = Some RS /\
    same_point this RS (add this RP RQ).
Proof.
  intros this P Q.
  apply (mul_of_sum this P Q 3);
    [exact group_curve_13 | apply finite_on_curve_13; auto
    | apply finite_on_curve_13; auto | lia].
Defined.
